(** * Node Guardian: a shallow embedding of the monitoring core

    The development follows the TypeScript sources of the repository:

    - [src/collector/eventStore.ts]                     (module [EventStore])
    - [src/utils/healthChecker.ts], class HealthChecker (module [HealthChecker])
    - [src/utils/healthChecker.ts], class AlertRouter   (module [AlertRouter])
    - [src/core/promiseTracker.ts]                      (module [PromiseTracker])
    - [src/instrumentation/unawaitedPromiseDetector.ts] (module [UnawaitedPromiseDetector])
    - [src/utils/customMetrics.ts]                      (module [CustomMetrics])
    - [src/core/eventLoopMonitor.ts]                    (module [EventLoopMonitor])
    - [src/utils/errorHandler.ts]                       (module [ErrorHandler])
    - [src/core/memoryMonitor.ts]                       (module [MemoryMonitor])
    - [src/index.ts], [src/utils/configValidator.ts]    (module [Guardian])

    Conventions.  A string is the sequence of bytes of its UTF-8 encoding,
    so a character above U+007F is two to four bytes; searching, splitting
    and joining are the same on the bytes as on the code units of the
    sources.  A JavaScript [number] that holds an integer (counters,
    lengths, millisecond timestamps, byte counts) is a [Z]; the embedding is
    exact as long as the magnitude stays below 2^53.  The two places where the
    sources multiply a length by a decimal fraction and take [Math.floor] are
    modelled with the kernel's binary64 floats ([floorMul]), and so is the
    mean delay that the event-loop monitor reads.  Every call of
    [Date.now()] is an explicit argument.  A [Map] whose iteration order is
    observable is an association list in insertion order; a [Map] that is only
    read and written by key is a [gmap].  Closures supplied by the user
    (listeners, filters, handlers) are records of pure functions describing
    whether the call returns normally. *)

From Stdlib Require Import ZArith QArith List Ascii String Bool Lia.
From Stdlib Require Import Permutation Sorted.
From Stdlib Require Import DecimalString DecimalZ.
From Stdlib Require Import Floats.PrimFloat Floats.FloatOps Floats.SpecFloat Uint63.
From stdpp Require Import gmap strings sorting.

Open Scope Z_scope.

(** ** JavaScript string and array helpers *)

Module JS.

(** [s.includes(needle)] *)
Fixpoint includes (s needle : string) : bool :=
  if String.prefix needle s then true
  else match s with
       | EmptyString => false
       | String _ s' => includes s' needle
       end.

(** [s.split('\n')]: always at least one piece. *)
Fixpoint splitLines (s : string) : list string :=
  match s with
  | EmptyString => [EmptyString]
  | String c s' =>
      if Ascii.eqb c "010"%char then EmptyString :: splitLines s'
      else match splitLines s' with
           | [] => [String c EmptyString]
           | l :: ls => String c l :: ls
           end
  end.

(** What [trim] removes: the white space and the line terminators of
    ECMAScript.  Those of one byte are U+0009 to U+000D and U+0020. *)
Definition isSpace (c : ascii) : bool :=
  let n := nat_of_ascii c in
  (Nat.eqb n 32 || (Nat.leb 9 n && Nat.leb n 13))%bool.

(** U+00A0, the bytes C2 A0. *)
Definition isSpace2 (a b : ascii) : bool :=
  (Nat.eqb (nat_of_ascii a) 194 && Nat.eqb (nat_of_ascii b) 160)%bool.

(** U+1680 (E1 9A 80); U+2000 to U+200A, U+2028, U+2029 and U+202F
    (E2 80 80 to 8A, A8, A9 and AF); U+205F (E2 81 9F); U+3000 (E3 80 80);
    U+FEFF (EF BB BF). *)
Definition isSpace3 (a b c : ascii) : bool :=
  let x := nat_of_ascii a in
  let y := nat_of_ascii b in
  let z := nat_of_ascii c in
  ((Nat.eqb x 225 && Nat.eqb y 154 && Nat.eqb z 128)
   || (Nat.eqb x 226 && Nat.eqb y 128
       && ((Nat.leb 128 z && Nat.leb z 138)
           || Nat.eqb z 168 || Nat.eqb z 169 || Nat.eqb z 175))
   || (Nat.eqb x 226 && Nat.eqb y 129 && Nat.eqb z 159)
   || (Nat.eqb x 227 && Nat.eqb y 128 && Nat.eqb z 128)
   || (Nat.eqb x 239 && Nat.eqb y 187 && Nat.eqb z 191))%bool.

Fixpoint trimStart (s : string) : string :=
  match s with
  | EmptyString => EmptyString
  | String a s1 =>
      if isSpace a then trimStart s1
      else
        match s1 with
        | EmptyString => s
        | String b s2 =>
            if isSpace2 a b then trimStart s2
            else
              match s2 with
              | EmptyString => s
              | String c s3 => if isSpace3 a b c then trimStart s3 else s
              end
        end
  end.

(** The characters are dropped from the end for as long as what is left
    from there on is white space only. *)
Fixpoint trimEnd (s : string) : string :=
  match s with
  | EmptyString => EmptyString
  | String c s' =>
      match trimStart s with
      | EmptyString => EmptyString
      | _ => String c (trimEnd s')
      end
  end.

Definition trim (s : string) : string := trimEnd (trimStart s).

(** Template rendering of an integer: [`${n}`]. *)
Definition showZ (z : Z) : string := NilZero.string_of_int (Z.to_int z).

(** [parseInt(digits, 10)] on the text of a decimal literal. *)
Definition parseInt (s : string) : option Z :=
  option_map Z.of_int (NilZero.int_of_string s).

(** Truthiness of an optional string / number, as used by [x || dflt]. *)
Definition orString (x : option string) (dflt : string) : string :=
  match x with
  | Some s => if String.eqb s "" then dflt else s
  | None => dflt
  end.

Definition orZ (x : option Z) (dflt : Z) : Z :=
  match x with
  | Some n => if n =? 0 then dflt else n
  | None => dflt
  end.

(** [Array.prototype.sort(cmp)] is a stable sort; [cmp a b < 0] puts [a]
    first.  Insertion of the elements from left to right, each one after the
    elements that do not compare greater, is such a sort. *)
Section Sort.
Context {A : Type} (cmp : A -> A -> Z).

Fixpoint insertBy (x : A) (l : list A) : list A :=
  match l with
  | [] => [x]
  | y :: l' => if cmp x y <? 0 then x :: l else y :: insertBy x l'
  end.

Definition sortBy (l : list A) : list A :=
  fold_left (fun acc x => insertBy x acc) l [].

End Sort.

(** A [Map] whose iteration order matters: entries in insertion order, keys
    unique.  [set] on a present key replaces the value in place. *)
Section OrderedMap.
Context {K V : Type} `{EqDecision K}.

Fixpoint mapGet (k : K) (m : list (K * V)) : option V :=
  match m with
  | [] => None
  | (k', v) :: m' => if decide (k = k') then Some v else mapGet k m'
  end.

Fixpoint mapSet (k : K) (v : V) (m : list (K * V)) : list (K * V) :=
  match m with
  | [] => [(k, v)]
  | (k', v') :: m' =>
      if decide (k = k') then (k, v) :: m' else (k', v') :: mapSet k v m'
  end.

Fixpoint mapDelete (k : K) (m : list (K * V)) : list (K * V) :=
  match m with
  | [] => []
  | (k', v') :: m' =>
      if decide (k = k') then mapDelete k m' else (k', v') :: mapDelete k m'
  end.

End OrderedMap.

Definition newline : string := String "010"%char EmptyString.

(** [s.split(sep)] for a separator of one character. *)
Fixpoint splitOn (sep : ascii) (s : string) : list string :=
  match s with
  | EmptyString => [EmptyString]
  | String c s' =>
      if Ascii.eqb c sep then EmptyString :: splitOn sep s'
      else match splitOn sep s' with
           | [] => [String c EmptyString]
           | l :: ls => String c l :: ls
           end
  end.

(** [lines.join(sep)] *)
Fixpoint join (sep : string) (l : list string) : string :=
  match l with
  | [] => EmptyString
  | [x] => x
  | x :: rest => x +:+ sep +:+ join sep rest
  end.

(** [Math.floor(f)] for a finite [f > 0], which is [m * 2^e] for integers
    [m] and [e]: the mantissa shifted by the exponent.  Zero gives 0; the
    other floats are not the product of a length and a positive constant.
    [floorMul n q] is [Math.floor(n * q)] for a length [n] and a binary64
    constant [q]. *)
Definition floorFloat (f : float) : Z :=
  match Prim2SF f with
  | S754_finite false m e => Z.shiftl (Z.pos m) e
  | _ => 0
  end.

Definition floorMul (n : Z) (q : float) : Z :=
  floorFloat (PrimFloat.mul (PrimFloat.of_uint63 (Uint63.of_Z n)) q).

(** [Number.MAX_SAFE_INTEGER], 2^53 - 1.  Every integer up to this
    magnitude is a binary64 number, and a sum of two of them that stays
    within it is computed exactly; this is the range in which an integer of
    the embedding and the [number] of the sources agree. *)
Definition maxSafeInteger : Z := 9007199254740991.

(** [p n && p (n + 1) && ...], [fuel] times: a bounded check by evaluation. *)
Fixpoint holdsFrom (p : Z -> bool) (n : Z) (fuel : nat) : bool :=
  match fuel with
  | O => true
  | S fuel' => (p n && holdsFrom p (n + 1) fuel')%bool
  end.

End JS.

(** ** The event store ([src/collector/eventStore.ts]) *)

Module EventStore.

Inductive EventType :=
  | EVENT_LOOP_STALL | MEMORY_LEAK | PROMISE_DEADLOCK | UNAWAITED_PROMISE
  | CPU_BLOCK | HANDLE_LEAK | ASYNC_RESOURCE_LEAK | SYSTEM_INFO.

(** The string value of each member of the [enum]. *)
Definition typeName (t : EventType) : string :=
  match t with
  | EVENT_LOOP_STALL => "EVENT_LOOP_STALL"
  | MEMORY_LEAK => "MEMORY_LEAK"
  | PROMISE_DEADLOCK => "PROMISE_DEADLOCK"
  | UNAWAITED_PROMISE => "UNAWAITED_PROMISE"
  | CPU_BLOCK => "CPU_BLOCK"
  | HANDLE_LEAK => "HANDLE_LEAK"
  | ASYNC_RESOURCE_LEAK => "ASYNC_RESOURCE_LEAK"
  | SYSTEM_INFO => "SYSTEM_INFO"
  end.

Inductive Severity := info | warning | error | critical.

Definition severityName (s : Severity) : string :=
  match s with
  | info => "info" | warning => "warning" | error => "error" | critical => "critical"
  end.

#[global] Instance EventType_eq_dec : EqDecision EventType.
Proof. solve_decision. Defined.

#[global] Instance Severity_eq_dec : EqDecision Severity.
Proof. solve_decision. Defined.

(** The payload [data : any]: the fields of it that the core reads back. *)
Record Payload := mkPayload {
  data_file : option string;
  data_line : option Z;
}.

Record GuardianEvent := mkEvent {
  id : string;
  type : EventType;
  timestamp : Z;
  severity : Severity;
  source : string;
  data : Payload;
  stack : option string;
  file : option string;
  line : option Z;
  suggestion : option string;
}.

(** The optional third argument of [emit]. *)
Record EmitOptions := mkOptions {
  o_severity : option Severity;
  o_stack : option string;
  o_file : option string;
  o_line : option Z;
  o_suggestion : option string;
}.

Definition noOptions : EmitOptions := mkOptions None None None None None.

(** A listener registered with [on]: an identity for the call trace, and
    whether the call on a given event returns normally ([false]: it throws). *)
Record Listener := mkListener {
  l_id : nat;
  l_returns : GuardianEvent -> bool;
}.

Record Store := mkStore {
  events : list GuardianEvent;
  eventCounter : Z;
  eventEmitter : gmap string (list Listener);
}.

Definition maxEvents : Z := 10000.

(** [maxEvents] as a length. *)
Definition capacity : nat := Z.to_nat maxEvents.

Definition initial : Store := mkStore [] 0 ∅.

Definition inferSeverity (t : EventType) : Severity :=
  match t with
  | PROMISE_DEADLOCK | MEMORY_LEAK => critical
  | EVENT_LOOP_STALL | CPU_BLOCK | HANDLE_LEAK => error
  | UNAWAITED_PROMISE => warning
  | _ => info
  end.

(** The loop of [extractSource] over the lines of the stack. *)
Fixpoint firstUserLine (lines : list string) : option string :=
  match lines with
  | [] => None
  | l :: rest =>
      if (JS.includes l "at " && negb (JS.includes l "node_modules")
          && negb (JS.includes l "node:internal"))%bool
      then Some (JS.trim l)
      else firstUserLine rest
  end.

Definition extractSource (stack : option string) : string :=
  match stack with
  | None => "unknown"
  | Some s =>
      if String.eqb s "" then "unknown"
      else
        let lines := JS.splitLines s in
        match firstUserLine lines with
        | Some l => l
        | None => JS.orString (option_map JS.trim (nth_error lines 1)) "unknown"
        end
  end.

(** [`evt_${++this.eventCounter}`] *)
Definition eventId (n : Z) : string := "evt_" +:+ JS.showZ n.

(** The number a well-formed id carries. *)
Definition idNumber (i : string) : option Z :=
  match i with
  | String "e" (String "v" (String "t" (String "_" rest))) => JS.parseInt rest
  | _ => None
  end.

(** The object literal built at the head of [emit]. *)
Definition newEvent (st : Store) (now : Z) (t : EventType) (d : Payload)
    (o : EmitOptions) : GuardianEvent :=
  {| id := eventId (eventCounter st + 1);
     type := t;
     timestamp := now;
     severity := match o_severity o with Some s => s | None => inferSeverity t end;
     source := extractSource (o_stack o);
     data := d;
     stack := o_stack o;
     file := o_file o;
     line := o_line o;
     suggestion := o_suggestion o |}.

(** [EventEmitter.prototype.emit]: the listeners of one channel are called
    synchronously in registration order; an exception thrown by a listener
    leaves [emit] at once. *)
Inductive Outcome := Returned | Threw (by_listener : nat).

Fixpoint callListeners (ls : list Listener) (ev : GuardianEvent)
    : list nat * Outcome :=
  match ls with
  | [] => ([], Returned)
  | l :: rest =>
      if l_returns l ev
      then let '(called, o) := callListeners rest ev in (l_id l :: called, o)
      else ([l_id l], Threw (l_id l))
  end.

Definition listenersOf (st : Store) (channel : string) : list Listener :=
  default [] (eventEmitter st !! channel).

Record EmitResult := mkEmitResult {
  r_store : Store;
  r_event : GuardianEvent;
  r_called : list nat;
  r_outcome : Outcome;
}.

Definition emit (st : Store) (now : Z) (t : EventType) (d : Payload)
    (o : EmitOptions) : EmitResult :=
  let ev := newEvent st now t d o in
  let pushed := events st ++ [ev] in
  let kept := if Z.of_nat (length pushed) >? maxEvents then tl pushed else pushed in
  let st' := mkStore kept (eventCounter st + 1) (eventEmitter st) in
  match callListeners (listenersOf st' "event") ev with
  | (called, Threw l) => mkEmitResult st' ev called (Threw l)
  | (called, Returned) =>
      let '(called', out) := callListeners (listenersOf st' (typeName t)) ev in
      mkEmitResult st' ev (called ++ called') out
  end.

(** [on(event, listener)] *)
Definition on (st : Store) (channel : string) (l : Listener) : Store :=
  mkStore (events st) (eventCounter st)
          (<[channel := listenersOf st channel ++ [l]]> (eventEmitter st)).

Definition clear (st : Store) : Store :=
  mkStore [] 0 (eventEmitter st).

(** [rec[k] = (rec[k] || 0) + 1] on a record with string keys. *)
Definition bump (k : string) (rec : gmap string Z) : gmap string Z :=
  <[k := default 0 (rec !! k) + 1]> rec.

Record EventStats := mkStats {
  total : Z;
  byType : gmap string Z;
  bySeverity : gmap string Z;
}.

Definition getEventStats (st : Store) : EventStats :=
  {| total := Z.of_nat (length (events st));
     byType := fold_left (fun acc e => bump (typeName (type e)) acc) (events st) ∅;
     bySeverity :=
       fold_left (fun acc e => bump (severityName (severity e)) acc) (events st) ∅ |}.

(** [e1] carries a strictly smaller id number than [e2]. *)
Definition idBefore (e1 e2 : GuardianEvent) : Prop :=
  exists n1 n2, idNumber (id e1) = Some n1 /\ idNumber (id e2) = Some n2 /\ n1 < n2.

(** The entry of a statistics record for a key that occurs [n] times. *)
Definition entryFor (n : nat) : option Z :=
  match n with
  | O => None
  | _ => Some (Z.of_nat n)
  end.

(** One call of [emit] as the rest of the program issues it. *)
Record EmitCall := mkCall {
  c_now : Z;
  c_type : EventType;
  c_data : Payload;
  c_options : EmitOptions;
}.

Definition emitCall (st : Store) (c : EmitCall) : EmitResult :=
  emit st (c_now c) (c_type c) (c_data c) (c_options c).

(** A run of [emit] calls; the caller goes on whether a listener threw or
    not.  The result is the final store and the events built, in order. *)
Fixpoint emitAll (st : Store) (cs : list EmitCall) : Store * list GuardianEvent :=
  match cs with
  | [] => (st, [])
  | c :: rest =>
      let r := emitCall st c in
      let '(st', evs) := emitAll (r_store r) rest in
      (st', r_event r :: evs)
  end.

(** The argument of [getEvents]; a severity is passed as a string. *)
Record EventFilter := mkFilter {
  f_type : option EventType;
  f_severity : option string;
  f_since : option Z;
}.

Definition getEvents (st : Store) (filter : option EventFilter) : list GuardianEvent :=
  let filtered := events st in
  let filtered :=
    match filter with
    | Some {| f_type := Some t |} =>
        List.filter (fun e => bool_decide (type e = t)) filtered
    | _ => filtered
    end in
  let filtered :=
    match filter with
    | Some {| f_severity := Some s |} =>
        if String.eqb s "" then filtered
        else List.filter (fun e => String.eqb (severityName (severity e)) s) filtered
    | _ => filtered
    end in
  match filter with
  | Some {| f_since := Some since |} =>
      List.filter (fun e => since <=? timestamp e) filtered
  | _ => filtered
  end.

(** Whether an event meets every criterion a filter gives. *)
Definition meets (filter : option EventFilter) (e : GuardianEvent) : bool :=
  match filter with
  | None => true
  | Some f =>
      (match f_type f with Some t => bool_decide (type e = t) | None => true end)
      && (match f_severity f with
          | Some s => String.eqb s "" || String.eqb (severityName (severity e)) s
          | None => true
          end)
      && (match f_since f with Some since => since <=? timestamp e | None => true end)
  end.

(** [EventEmitter.prototype.removeListener]: the most recently added
    registration of the listener goes; the identity of the function is its
    [l_id]. *)
Fixpoint removeLast (i : nat) (ls : list Listener) : list Listener :=
  match ls with
  | [] => []
  | l :: rest =>
      if existsb (fun x => Nat.eqb (l_id x) i) rest then l :: removeLast i rest
      else if Nat.eqb (l_id l) i then rest
      else l :: rest
  end.

(** [off(event, listener)]; a channel left without listeners is dropped. *)
Definition off (st : Store) (channel : string) (l : Listener) : Store :=
  match eventEmitter st !! channel with
  | None => st
  | Some ls =>
      mkStore (events st) (eventCounter st)
        (match removeLast (l_id l) ls with
         | [] => delete channel (eventEmitter st)
         | ls' => <[channel := ls']> (eventEmitter st)
         end)
  end.

(** No listener of the store throws. *)
Definition listenersReturn (st : Store) : Prop :=
  forall (channel : string) (l : Listener) (ev : GuardianEvent),
    In l (listenersOf st channel) -> l_returns l ev = true.

End EventStore.

(** ** The health checker (class [HealthChecker]) *)

Module HealthChecker.

Inductive Status := healthy | degraded | unhealthy.

Record MonitorHealth := mkMonitorHealth {
  mh_healthy : bool;
  mh_lastCheck : Z;
  mh_errors : Z;
}.

Record Checker := mkChecker {
  startTime : Z;
  eventCount : Z;
  monitorHealth : list (string * MonitorHealth);
}.

Definition create (now : Z) : Checker := mkChecker now 0 [].

Definition recordEvent (c : Checker) : Checker :=
  mkChecker (startTime c) (eventCount c + 1) (monitorHealth c).

Definition recordMonitorCheck (c : Checker) (monitorName : string)
    (success : bool) (now : Z) : Checker :=
  let current :=
    default (mkMonitorHealth true 0 0) (JS.mapGet monitorName (monitorHealth c)) in
  mkChecker (startTime c) (eventCount c)
    (JS.mapSet monitorName
       (mkMonitorHealth success now (if success then 0 else mh_errors current + 1))
       (monitorHealth c)).

(** The [for ... of] loop over the monitors, with its [break]. *)
Fixpoint monitorLoop (ms : list (string * MonitorHealth)) (status : Status) : Status :=
  match ms with
  | [] => status
  | (_, h) :: rest =>
      if mh_errors h >? 10 then unhealthy
      else if mh_errors h >? 3 then monitorLoop rest degraded
      else monitorLoop rest status
  end.

(** [a > b] on exact rationals. *)
Definition Qgtb (a b : Q) : bool := negb (Qle_bool a b).

(** [heapUsed / 1048576]; the division by a power of two is exact. *)
Definition memoryMB (heapUsed : Z) : Q := heapUsed # 1048576.

(** The two [if]s on the heap size, in the order of the source. *)
Definition memoryChecks (mb : Q) (status : Status) : Status :=
  let status := if Qgtb mb (100 # 1) then degraded else status in
  if Qgtb mb (200 # 1) then unhealthy else status.

Record MonitorReport := mkMonitorReport {
  rp_enabled : bool;
  rp_healthy : bool;
  rp_lastCheck : Z;
  rp_errors : Z;
}.

Record HealthStatus := mkHealthStatus {
  status : Status;
  uptime : Z;
  hs_timestamp : Z;
  version : string;
  monitors : list (string * MonitorReport);
  eventsProcessed : Z;
  memoryUsage : Q;
}.

(** [heapUsed] is [process.memoryUsage().heapUsed]; [now] and [now'] are the
    two readings of the clock. *)
Definition getHealth (c : Checker) (heapUsed : Z) (now now' : Z) : HealthStatus :=
  let st := monitorLoop (monitorHealth c) healthy in
  let mb := memoryMB heapUsed in
  let st := memoryChecks mb st in
  {| status := st;
     uptime := now - startTime c;
     hs_timestamp := now';
     version := "1.0.0";
     monitors :=
       map (fun '(n, h) =>
              (n, mkMonitorReport true (mh_healthy h) (mh_lastCheck h) (mh_errors h)))
           (monitorHealth c);
     eventsProcessed := eventCount c;
     memoryUsage := mb |}.

Definition isHealthy (c : Checker) (heapUsed : Z) (now now' : Z) : bool :=
  match status (getHealth c heapUsed now now') with
  | healthy => true
  | _ => false
  end.

(** The derivation rule as it is worded, for comparison with [getHealth]: the
    heap can only make the status of the monitors worse. *)
Definition heapStatus (mb : Q) : Status :=
  if Qgtb mb (200 # 1) then unhealthy
  else if Qgtb mb (100 # 1) then degraded else healthy.

Definition worse (a b : Status) : Status :=
  match a, b with
  | unhealthy, _ | _, unhealthy => unhealthy
  | degraded, _ | _, degraded => degraded
  | healthy, healthy => healthy
  end.

(** A run of [recordMonitorCheck] calls: monitor, outcome, clock. *)
Definition recordAll (c : Checker) (checks : list (string * bool * Z)) : Checker :=
  fold_left (fun c '(n, ok, now) => recordMonitorCheck c n ok now) checks c.

(** The errors [getHealth] would report for a monitor ([0] when it has never
    been checked). *)
Definition errorsOf (c : Checker) (monitorName : string) : Z :=
  match JS.mapGet monitorName (monitorHealth c) with
  | Some h => mh_errors h
  | None => 0
  end.

End HealthChecker.

(** ** The alert router (class [AlertRouter]) *)

Module AlertRouter.
Import EventStore.

(** What awaiting a handler gives: whether it settled normally, and the clock
    reading once it has settled.  A handler that throws before it returns is
    one that has not settled normally at the reading at which it was
    started. *)
Record HandlerResult := mkHandlerResult {
  hr_ok : bool;
  hr_done : Z;
}.

Record RateLimit := mkRateLimit {
  maxPerMinute : Z;
  maxPerHour : Z;
}.

(** [filter ev] is [None] when the filter throws, and else the truth of what
    it returns.  [handler ev t]: the handler is started on [ev] when the
    clock shows [t]; the result is what awaiting it gives once it has
    settled, which other calls need not wait for ([step] below). *)
Record AlertRoute := mkRoute {
  name : string;
  filter : option (GuardianEvent -> option bool);
  handler : GuardianEvent -> Z -> HandlerResult;
  enabled : option bool;
  rateLimit : option RateLimit;
}.

Record Counts := mkCounts {
  perMinute : list Z;
  perHour : list Z;
}.

Record Router := mkRouter {
  routes : list AlertRoute;
  alertCounts : gmap string Counts;
  deduplicationCache : gmap string Z;
}.

Definition empty : Router := mkRouter [] ∅ ∅.

Definition addRoute (r : Router) (route : AlertRoute) : Router :=
  mkRouter
    (routes r ++
       [mkRoute (name route) (filter route) (handler route)
                (Some (match enabled route with Some false => false | _ => true end))
                (rateLimit route)])
    (alertCounts r) (deduplicationCache r).

Definition removeRoute (r : Router) (n : string) : Router :=
  mkRouter (List.filter (fun x => negb (String.eqb (name x) n)) (routes r))
           (alertCounts r) (deduplicationCache r).

Definition getEventKey (ev : GuardianEvent) : string :=
  typeName (type ev) +:+ ":" +:+ JS.orString (data_file (data ev)) "unknown"
    +:+ ":" +:+ JS.showZ (JS.orZ (data_line (data ev)) 0).

(** [checkRateLimit]: the stored object, when there is one, keeps the trimmed
    arrays even when the call refuses. *)
Definition checkRateLimit (counts : gmap string Counts) (routeName : string)
    (limit : RateLimit) (now : Z) : bool * gmap string Counts :=
  let stored := counts !! routeName in
  let c := default (mkCounts [] []) stored in
  let pm := List.filter (fun t => now - t <? 60000) (perMinute c) in
  let ph := List.filter (fun t => now - t <? 3600000) (perHour c) in
  let trimmed :=
    match stored with
    | Some _ => <[routeName := mkCounts pm ph]> counts
    | None => counts
    end in
  if Z.of_nat (length pm) >=? maxPerMinute limit then (false, trimmed)
  else if Z.of_nat (length ph) >=? maxPerHour limit then (false, trimmed)
  else (true, <[routeName := mkCounts (pm ++ [now]) (ph ++ [now])]> counts).

(** One handler invocation, for the trace: the position of the route in the
    route list, the key of the event, the clock when the handler was started
    and whether it settled normally. *)
Record Dispatch := mkDispatch {
  d_route : nat;
  d_key : string;
  d_start : Z;
  d_ok : bool;
}.

Record RouteResult := mkRouteResult {
  rr_router : Router;
  rr_clock : Z;
  rr_dispatches : list Dispatch;
}.

Definition truthy (b : option bool) : bool :=
  match b with Some true => true | _ => false end.

(** [route.filter && !route.filter(event)] once the route is known to be
    enabled: [Some true] when the loop goes on to the rate limit, [Some
    false] when it passes the route over, [None] when the filter throws. *)
Definition accepts (x : AlertRoute) (ev : GuardianEvent) : option bool :=
  match filter x with
  | Some f => f ev
  | None => Some true
  end.

(** The body of the [for (const route of this.routes)] loop, in a call in
    which every awaited handler settles and no other call runs in between;
    [i] is the position of the head of [rs] in the route list.  The filter is
    called outside the [try]: when it throws, the loop is left and the
    promise of [route] is rejected. *)
Fixpoint routeLoop (rs : list AlertRoute) (i : nat) (ev : GuardianEvent)
    (counts : gmap string Counts) (cache : gmap string Z) (clock : Z)
    : gmap string Counts * gmap string Z * Z * list Dispatch :=
  match rs with
  | [] => (counts, cache, clock, [])
  | r :: rest =>
      if negb (truthy (enabled r)) then routeLoop rest (S i) ev counts cache clock
      else
        match accepts r ev with
        | None => (counts, cache, clock, [])
        | Some false => routeLoop rest (S i) ev counts cache clock
        | Some true =>
            let '(allowed, counts1) :=
              match rateLimit r with
              | Some limit => checkRateLimit counts (name r) limit clock
              | None => (true, counts)
              end in
            if negb allowed then routeLoop rest (S i) ev counts1 cache clock
            else
              let res := handler r ev clock in
              let cache1 :=
                if hr_ok res then <[getEventKey ev := hr_done res]> cache else cache in
              let '(counts2, cache2, clock2, ds) :=
                routeLoop rest (S i) ev counts1 cache1 (hr_done res) in
              (counts2, cache2, clock2,
               mkDispatch i (getEventKey ev) clock (hr_ok res) :: ds)
        end
  end.

(** [lastSent && Date.now() - lastSent < 300000] *)
Definition recentlySent (cache : gmap string Z) (key : string) (now : Z) : bool :=
  match cache !! key with
  | Some lastSent => (negb (lastSent =? 0) && (now - lastSent <? 300000))%bool
  | None => false
  end.

(** A call of [route] from its start to its end, for a call whose handlers
    all settle and during which no other call runs on the router
    ([awaitedCall_route] relates it to [step] below). *)
Definition route (r : Router) (now : Z) (ev : GuardianEvent) : RouteResult :=
  if recentlySent (deduplicationCache r) (getEventKey ev) now
  then mkRouteResult r now []
  else
    let '(counts, cache, clock, ds) :=
      routeLoop (routes r) 0 ev (alertCounts r) (deduplicationCache r) now in
    mkRouteResult (mkRouter (routes r) counts cache) clock ds.

(** *** Calls of [route] that overlap

    [route] is an [async] function: at [await route.handler(event)] the call
    is suspended until the promise of the handler settles, and until then
    other calls of [route] run on the same router.  A suspended call is its
    event, the position of the route whose handler it awaits, what awaiting
    it gives, and the routes the loop has still to visit. *)
Record Suspended := mkSuspended {
  s_event : GuardianEvent;
  s_index : nat;
  s_result : HandlerResult;
  s_rest : list AlertRoute;
}.

(** The loop from the route at position [i] up to the next [await]: the
    windows of the rate limits as the loop leaves them and, when a handler
    was started, its invocation and the call as it is suspended.  There is
    none when the loop reached the end of the list or a filter threw. *)
Fixpoint advance (rs : list AlertRoute) (i : nat) (ev : GuardianEvent)
    (counts : gmap string Counts) (clock : Z)
    : gmap string Counts * option (Dispatch * Suspended) :=
  match rs with
  | [] => (counts, None)
  | r :: rest =>
      if negb (truthy (enabled r)) then advance rest (S i) ev counts clock
      else
        match accepts r ev with
        | None => (counts, None)
        | Some false => advance rest (S i) ev counts clock
        | Some true =>
            let '(allowed, counts1) :=
              match rateLimit r with
              | Some limit => checkRateLimit counts (name r) limit clock
              | None => (true, counts)
              end in
            if negb allowed then advance rest (S i) ev counts1 clock
            else
              let res := handler r ev clock in
              (counts1,
               Some (mkDispatch i (getEventKey ev) clock (hr_ok res),
                     mkSuspended ev i res rest))
        end
  end.

(** A router with the calls that are suspended on it, in the order in which
    they were suspended, and the handler invocations so far. *)
Record Running := mkRunning {
  router : Router;
  suspended : list Suspended;
  trace : list Dispatch;
}.

(** A call runs on from position [i] of the list [rs] it iterates. *)
Definition enter (st : Running) (rs : list AlertRoute) (i : nat)
    (ev : GuardianEvent) (clock : Z) : Running :=
  let '(counts, next) := advance rs i ev (alertCounts (router st)) clock in
  let r := mkRouter (routes (router st)) counts (deduplicationCache (router st)) in
  match next with
  | Some (d, s) => mkRunning r (suspended st ++ [s]) (trace st ++ [d])
  | None => mkRunning r (suspended st) (trace st)
  end.

(** What happens on a router: [route(ev)] is called when the clock shows
    [now], or the handler awaited by the [n]-th suspended call settles.  A
    handler that never settles is one for which no [Settle] comes.  The route
    list stays as it is while calls are suspended. *)
Inductive Action :=
  | Call (now : Z) (ev : GuardianEvent)
  | Settle (n : nat).

Definition step (st : Running) (a : Action) : Running :=
  match a with
  | Call now ev =>
      if recentlySent (deduplicationCache (router st)) (getEventKey ev) now then st
      else enter st (routes (router st)) 0 ev now
  | Settle n =>
      match nth_error (suspended st) n with
      | None => st
      | Some s =>
          let r := router st in
          let res := s_result s in
          let cache :=
            if hr_ok res
            then <[getEventKey (s_event s) := hr_done res]> (deduplicationCache r)
            else deduplicationCache r in
          enter (mkRunning (mkRouter (routes r) (alertCounts r) cache)
                           (firstn n (suspended st) ++ skipn (S n) (suspended st))
                           (trace st))
                (s_rest s) (S (s_index s)) (s_event s) (hr_done res)
      end
  end.

Definition runActions (st : Running) (acts : list Action) : Running :=
  fold_left step acts st.

(** The actions of a call that is awaited: the call, and the handlers it
    awaits settling one after the other before anything else happens.  No
    call awaits more handlers than there are routes. *)
Definition awaitedCall (r : Router) (now : Z) (ev : GuardianEvent) : list Action :=
  Call now ev :: repeat (Settle 0) (length (routes r)).

Fixpoint awaitedCalls (r : Router) (calls : list (Z * GuardianEvent)) : list Action :=
  match calls with
  | [] => []
  | (now, ev) :: rest => awaitedCall r now ev ++ awaitedCalls r rest
  end.

(** A run of awaited [route] calls: each event arrives at the given clock
    reading.  The result is the final router and the trace of invocations. *)
Fixpoint routeAll (r : Router) (calls : list (Z * GuardianEvent))
    : Router * list Dispatch :=
  match calls with
  | [] => (r, [])
  | (now, ev) :: rest =>
      let res := route r now ev in
      let '(r', ds) := routeAll (rr_router res) rest in
      (r', rr_dispatches res ++ ds)
  end.

(** The key as the glossary words it, from the event's own [file] and [line]
    fields; for comparison with [getEventKey]. *)
Definition ownFieldsKey (ev : GuardianEvent) : string :=
  typeName (type ev) +:+ ":" +:+ JS.orString (file ev) "unknown"
    +:+ ":" +:+ JS.showZ (JS.orZ (line ev) 0).

(** The clock readings of a run of awaited calls: no call starts before the
    previous one has finished. *)
Fixpoint awaited (r : Router) (clock : Z) (calls : list (Z * GuardianEvent)) : Prop :=
  match calls with
  | [] => True
  | (now, ev) :: rest =>
      clock <= now /\
      awaited (rr_router (route r now ev)) (rr_clock (route r now ev)) rest
  end.

(** The spacing of an earlier and a later invocation: when the earlier one
    settled normally and the later one is for the same key on the same route,
    it starts at least five minutes after it. *)
Definition apart (d1 d2 : Dispatch) : Prop :=
  d_key d1 = d_key d2 -> d_route d1 = d_route d2 -> d_ok d1 = true ->
  300000 <= d_start d2 - d_start d1.

(** What the cache holds about a trace when the clock shows [T]: time stamps
    are positive, nothing in the trace started after [T], and an invocation
    that settled normally left a time stamp no older than its start. *)
Definition recorded (cache : gmap string Z) (T : Z) (log : list Dispatch) : Prop :=
  (forall k c, cache !! k = Some c -> 0 < c) /\
  Forall (fun d => d_start d <= T /\
                   (d_ok d = true ->
                    exists c, cache !! d_key d = Some c /\ d_start d <= c)) log.

(** No handler finishes before it starts. *)
Definition handlersTakeTime (r : Router) : Prop :=
  forall x, In x (routes r) -> forall ev t, t <= hr_done (handler x ev t).

(** A run of [checkRateLimit] calls, each for a route name at a clock
    reading, every name with its own limits; the result lists the calls that
    were allowed. *)
Fixpoint checkAll (limitOf : string -> RateLimit) (counts : gmap string Counts)
    (calls : list (string * Z)) : list (string * Z) :=
  match calls with
  | [] => []
  | (n, now) :: rest =>
      let '(ok, counts') := checkRateLimit counts n (limitOf n) now in
      (if ok then [(n, now)] else []) ++ checkAll limitOf counts' rest
  end.

(** The clock readings at which calls for [n] were allowed. *)
Definition allowedAt (n : string) (allowed : list (string * Z)) : list Z :=
  map snd (List.filter (fun c => bool_decide (fst c = n)) allowed).

(** [t] lies in the window of [len] milliseconds that starts at [w]. *)
Definition inWindow (w len : Z) (t : Z) : bool := (w <=? t) && (t <? w + len).

(** What the stored windows of [n] know about the calls allowed so far, as
    seen from any clock reading from [T] on. *)
Definition tracks (counts : gmap string Counts) (n : string) (T : Z)
    (allowed : list (string * Z)) : Prop :=
  forall now, T <= now ->
    List.filter (fun t => now - t <? 60000)
                (perMinute (default (mkCounts [] []) (counts !! n)))
    = List.filter (fun t => now - t <? 60000) (allowedAt n allowed) /\
    List.filter (fun t => now - t <? 3600000)
                (perHour (default (mkCounts [] []) (counts !! n)))
    = List.filter (fun t => now - t <? 3600000) (allowedAt n allowed).

(** No window of a minute holds more than [maxPerMinute] allowed calls, no
    window of an hour more than [maxPerHour]. *)
Definition bounded (limit : RateLimit) (ts : list Z) : Prop :=
  forall w,
    Z.of_nat (length (List.filter (inWindow w 60000) ts))
      <= Z.max 0 (maxPerMinute limit) /\
    Z.of_nat (length (List.filter (inWindow w 3600000) ts))
      <= Z.max 0 (maxPerHour limit).

(** A route the loop of [route] does not pass over before the rate limit is
    looked at: enabled, and with no filter or one that accepts the event. *)
Definition eligible (ev : GuardianEvent) (x : AlertRoute) : bool :=
  truthy (enabled x) && default false (accepts x ev).

(** The positions of the eligible routes, counted from [i]. *)
Fixpoint eligibleFrom (ev : GuardianEvent) (i : nat) (rs : list AlertRoute) : list nat :=
  match rs with
  | [] => []
  | x :: rest => (if eligible ev x then [i] else []) ++ eligibleFrom ev (S i) rest
  end.

End AlertRouter.

(** ** Stack frames (shared by the two task monitors) *)

Module Stack.

Definition isDigit (c : ascii) : bool :=
  let n := nat_of_ascii c in (Nat.leb 48 n && Nat.leb n 57)%bool.

Fixpoint allDigits (s : string) : bool :=
  match s with
  | EmptyString => true
  | String c s' => (isDigit c && allDigits s')%bool
  end.

(** [s] cut at its last colon. *)
Fixpoint splitLastColon (s : string) : option (string * string) :=
  match s with
  | EmptyString => None
  | String c s' =>
      match splitLastColon s' with
      | Some (before, after) => Some (String c before, after)
      | None => if Ascii.eqb c ":" then Some (EmptyString, s') else None
      end
  end.

(** The text before the first closing parenthesis, if there is one. *)
Fixpoint beforeClose (s : string) : option string :=
  match s with
  | EmptyString => None
  | String c s' =>
      if Ascii.eqb c ")" then Some EmptyString
      else option_map (String c) (beforeClose s')
  end.

Definition nonEmptyDigits (s : string) : bool :=
  (negb (String.eqb s "") && allDigits s)%bool.

(** [path:line:col] with a non-empty path and decimal line and column: the
    groups 1 and 2 of the pattern. *)
Definition frameGroups (inner : string) : option (string * string) :=
  match splitLastColon inner with
  | Some (front, col) =>
      match splitLastColon front with
      | Some (path, ln) =>
          if (nonEmptyDigits col && nonEmptyDigits ln && negb (String.eqb path ""))%bool
          then Some (path, ln) else None
      | None => None
      end
  | None => None
  end.

(** [line.match(/\(([^)]+):(\d+):\d+\)/)]: the leftmost opening parenthesis
    from which the pattern matches.  The text matched between the parentheses
    holds no closing parenthesis, so it is the text up to the first one, and
    the two numbers are what follows its last two colons. *)
Fixpoint matchFrame (s : string) : option (string * string) :=
  match s with
  | EmptyString => None
  | String c s' =>
      if Ascii.eqb c "(" then
        match beforeClose s' with
        | Some inner =>
            match frameGroups inner with
            | Some g => Some g
            | None => matchFrame s'
            end
        | None => matchFrame s'
        end
      else matchFrame s'
  end.

(** The files named by the frames of a stack, top frame first: group 1 of
    the pattern on every line it matches. *)
Definition frameFiles (stack : string) : list string :=
  flat_map (fun l => match matchFrame l with
                     | Some (path, _) => [path]
                     | None => []
                     end)
           (JS.splitLines stack).

(** The originating file of a task as the specification speaks of it, read
    off the stack without the parser of the monitors: the file of the first
    frame that is not a frame of the code that captured the stack, whose
    paths hold one of the words of [hook]. *)
Definition creatorFile (hook : list string) (stack : string) : option string :=
  hd_error (List.filter (fun f => forallb (fun w => negb (JS.includes f w)) hook)
                        (frameFiles stack)).

(** The loop of [parseStack]; [skip] lists the substrings that disqualify a
    path. *)
Fixpoint parseLines (skip : list string) (lines : list string)
    : option string * option Z :=
  match lines with
  | [] => (None, None)
  | l :: rest =>
      match matchFrame l with
      | Some (path, ln) =>
          if forallb (fun w => negb (JS.includes path w)) skip
          then (Some path, JS.parseInt ln)
          else parseLines skip rest
      | None => parseLines skip rest
      end
  end.

(** The test both monitors make on the parsed file. *)
Definition isGuardianInternal (file : option string) : bool :=
  match file with
  | None => false
  | Some f =>
      (negb (String.eqb f "") &&
       (JS.includes f "/node-guardian/"
        || JS.includes f "/dist/core/"
        || JS.includes f "/dist/collector/"
        || JS.includes f "/dist/dashboard/"
        || JS.includes f "/dist/instrumentation/"
        || JS.includes f "promiseTracker"
        || JS.includes f "eventLoopMonitor"
        || JS.includes f "memoryMonitor"
        || JS.includes f "unawaitedPromiseDetector"
        || JS.includes f "eventStore"))%bool
  end.

(** The body shared by the two [cleanStack] methods: the lines that hold
    none of the words of [skip], the first [keep] of them, joined again. *)
Definition cleanLines (skip : list string) (keep : nat) (stack : string) : string :=
  JS.join JS.newline
    (firstn keep
       (List.filter (fun l => forallb (fun w => negb (JS.includes l w)) skip)
                    (JS.splitLines stack))).

End Stack.

(** ** The task tracker ([src/core/promiseTracker.ts]) *)

Module PromiseTracker.

Inductive PStatus := pending | resolved | rejected.

#[global] Instance PStatus_eq_dec : EqDecision PStatus.
Proof. solve_decision. Defined.

Record TrackedPromise := mkTracked {
  asyncId : Z;
  type : string;
  triggerAsyncId : Z;
  createdAt : Z;
  stack : string;
  status : PStatus;
  file : option string;
  line : option Z;
}.

Record PromiseConfig := mkConfig {
  enabled : bool;
  deadlockThreshold : Z;
  checkInterval : Z;
  maxTrackedPromises : Z;
}.

Definition defaultConfig : PromiseConfig := mkConfig true 30000 5000 10000.

Record Tracker := mkTracker {
  promises : list (Z * TrackedPromise);
  config : PromiseConfig;
  deadlockCount : Z;
}.

Definition create (c : PromiseConfig) : Tracker := mkTracker [] c 0.

Definition parseStack (stack : string) : option string * option Z :=
  Stack.parseLines ["node_modules"; "node:internal"] (JS.splitLines stack).

Definition isPending (p : TrackedPromise) : bool :=
  if decide (status p = pending) then true else false.

(** The entries that are no longer pending. *)
Definition settled (m : list (Z * TrackedPromise)) : list (Z * TrackedPromise) :=
  List.filter (fun e => negb (isPending (snd e))) m.

(** The entries [cleanupOldPromises] sorts: not pending, oldest first. *)
Definition sortedSettled (m : list (Z * TrackedPromise)) : list (Z * TrackedPromise) :=
  JS.sortBy (fun a b => createdAt (snd a) - createdAt (snd b)) (settled m).

(** The binary64 constant written [0.2]. *)
Definition fifth : float := 0x1.999999999999ap-3%float.

(** [Math.floor(sorted.length * 0.2)] *)
Definition toRemove (sorted : list (Z * TrackedPromise)) : nat :=
  Z.to_nat (JS.floorMul (Z.of_nat (length sorted)) fifth).

Definition cleanupOldPromises (t : Tracker) : Tracker :=
  let sorted := sortedSettled (promises t) in
  mkTracker
    (fold_left (fun m e => JS.mapDelete (fst e) m)
               (firstn (toRemove sorted) sorted) (promises t))
    (config t) (deadlockCount t).

(** [stack] is what [new Error().stack || ''] gives inside the hook. *)
Definition onInit (t : Tracker) (id : Z) (ty : string) (trigger : Z)
    (stack : string) (now : Z) : Tracker :=
  if negb (String.eqb ty "PROMISE") then t
  else
    let '(f, l) := parseStack stack in
    if Stack.isGuardianInternal f then t
    else
      let t1 :=
        if Z.of_nat (length (promises t)) >=? maxTrackedPromises (config t)
        then cleanupOldPromises t else t in
      mkTracker
        (JS.mapSet id (mkTracked id ty trigger now stack pending f l) (promises t1))
        (config t1) (deadlockCount t1).

Definition setStatus (s : PStatus) (p : TrackedPromise) : TrackedPromise :=
  mkTracked (asyncId p) (type p) (triggerAsyncId p) (createdAt p) (stack p) s
            (file p) (line p).

(** [onDestroy] marks a pending entry resolved; the removal it schedules is
    [expire], run by the timer a minute later. *)
Definition onDestroy (t : Tracker) (id : Z) : Tracker :=
  match JS.mapGet id (promises t) with
  | Some p =>
      if isPending p
      then mkTracker (JS.mapSet id (setStatus resolved p) (promises t))
                     (config t) (deadlockCount t)
      else t
  | None => t
  end.


Definition expire (t : Tracker) (id : Z) : Tracker :=
  mkTracker (JS.mapDelete id (promises t)) (config t) (deadlockCount t).

Definition getPendingPromises (t : Tracker) : list TrackedPromise :=
  JS.sortBy (fun a b => createdAt a - createdAt b)
            (List.filter isPending (map snd (promises t))).

(** [promise.status = s] on the object the map holds under [id]. *)
Definition mark (s : PStatus) (id : Z) (m : list (Z * TrackedPromise))
    : list (Z * TrackedPromise) :=
  match JS.mapGet id m with
  | Some q => JS.mapSet id (setStatus s q) m
  | None => m
  end.

(** The loop of [checkForDeadlocks] as far as the tracker's own state goes:
    every pending entry older than the threshold is counted, reported through
    the event store and marked [rejected].  [emitReturns id] tells whether the
    [emit] for that entry returns; when it throws the loop is left with the
    entry counted but not marked. *)
Fixpoint reportLoop (emitReturns : Z -> bool) (now : Z) (ps : list TrackedPromise)
    (t : Tracker) : Tracker * list Z :=
  match ps with
  | [] => (t, [])
  | p :: rest =>
      if now - createdAt p >? deadlockThreshold (config t) then
        let alreadyReported :=
          match JS.mapGet (asyncId p) (promises t) with
          | Some q => negb (isPending q)
          | None => false
          end in
        if alreadyReported then reportLoop emitReturns now rest t
        else if emitReturns (asyncId p) then
          let '(t', ids) :=
            reportLoop emitReturns now rest
              (mkTracker (mark rejected (asyncId p) (promises t))
                         (config t) (deadlockCount t + 1)) in
          (t', asyncId p :: ids)
        else (mkTracker (promises t) (config t) (deadlockCount t + 1), [asyncId p])
      else reportLoop emitReturns now rest t
  end.

Definition checkForDeadlocks (emitReturns : Z -> bool) (t : Tracker) (now : Z)
    : Tracker * list Z :=
  reportLoop emitReturns now (getPendingPromises t) t.

Definition stop (t : Tracker) : Tracker :=
  mkTracker [] (config t) (deadlockCount t).

Definition cleanStack (stack : string) : string :=
  Stack.cleanLines ["node_modules"; "node:internal"; "async_hooks"] 10 stack.

Record Stats := mkStats {
  s_total : Z;
  s_pending : Z;
  s_deadlockCount : Z;
  s_oldestPending : Z;
  s_suspiciousCount : Z;
}.

(** [now - p.createdAt > deadlockThreshold / 2]; the halving is exact. *)
Definition suspicious (t : Tracker) (now : Z) (p : TrackedPromise) : bool :=
  negb (Qle_bool (inject_Z (now - createdAt p)) (deadlockThreshold (config t) # 2)).

Definition getStats (t : Tracker) (now : Z) : Stats :=
  let pendingNow := getPendingPromises t in
  {| s_total := Z.of_nat (length (promises t));
     s_pending := Z.of_nat (length pendingNow);
     s_deadlockCount := deadlockCount t;
     s_oldestPending :=
       match pendingNow with
       | p :: _ => now - createdAt p
       | [] => 0
       end;
     s_suspiciousCount := Z.of_nat (length (List.filter (suspicious t now) pendingNow)) |}.

(** The closure [traverse] of [findRelatedPromises], with the set [visited]
    and the array [related] it updates.  [levels] is the number of depths
    still open: the closure returns at once when [depth > 10]. *)
Fixpoint traverse (levels : nat) (m : list (Z * TrackedPromise)) (p : TrackedPromise)
    (st : gset Z * list TrackedPromise) : gset Z * list TrackedPromise :=
  match levels with
  | O => st
  | S levels' =>
      if bool_decide (asyncId p ∈ fst st) then st
      else
        fold_left
          (fun st other =>
             if (triggerAsyncId other =? asyncId p) && isPending other
             then traverse levels' m other (fst st, snd st ++ [other])
             else st)
          (map snd m) ({[asyncId p]} ∪ fst st, snd st)
  end.

Definition findRelatedPromises (t : Tracker) (p : TrackedPromise) : list TrackedPromise :=
  snd (traverse 11 (promises t) p (∅, [])).

(** The closure [hasCircle] of [detectCircularWait], for the promise with id
    [target]; it follows the triggers for as long as [fuel] lasts (every step
    adds an id to [visited]). *)
Fixpoint hasCircle (fuel : nat) (m : list (Z * TrackedPromise)) (target : Z)
    (current : TrackedPromise) (visited : gset Z) : option bool * gset Z :=
  match fuel with
  | O => (None, visited)
  | S fuel' =>
      if (asyncId current =? target) && (0 <? size visited)%nat then (Some true, visited)
      else if bool_decide (asyncId current ∈ visited) then (Some false, visited)
      else
        let visited' := {[asyncId current]} ∪ visited in
        match JS.mapGet (triggerAsyncId current) m with
        | Some trigger =>
            if isPending trigger then hasCircle fuel' m target trigger visited'
            else (Some false, visited')
        | None => (Some false, visited')
        end
  end.

(** [related.some(r => hasCircle(r))]; the calls share [visited]. *)
Fixpoint someCircle (fuel : nat) (m : list (Z * TrackedPromise)) (target : Z)
    (related : list TrackedPromise) (visited : gset Z) : option bool :=
  match related with
  | [] => Some false
  | r :: rest =>
      match hasCircle fuel m target r visited with
      | (Some true, _) => Some true
      | (Some false, visited') => someCircle fuel m target rest visited'
      | (None, _) => None
      end
  end.

(** The ids [hasCircle] can visit are those of the entries and of [related];
    one more step than there are of them is enough fuel. *)
Definition detectCircularWait (t : Tracker) (p : TrackedPromise)
    (related : list TrackedPromise) : option bool :=
  someCircle (S (length (promises t) + length related)) (promises t) (asyncId p)
             related ∅.

(** The entry stored under a key carries that key as its [asyncId]. *)
Definition keyed (m : list (Z * TrackedPromise)) : Prop :=
  Forall (fun e => asyncId (snd e) = fst e) m.

(** An entry made for a task of the application: its file and line are those
    parsed from the stack captured at creation, and the file is not one of
    the monitor's own. *)
Definition fromUserCode (p : TrackedPromise) : Prop :=
  parseStack (stack p) = (file p, line p) /\
  Stack.isGuardianInternal (file p) = false.

(** The calls that reach a running tracker. *)
Inductive Call :=
  | Init (id : Z) (ty : string) (trigger : Z) (stack : string) (now : Z)
  | Destroy (id : Z)
  | Expire (id : Z)
  | Check (emitReturns : Z -> bool) (now : Z)
  | Stop.

Definition step (t : Tracker) (c : Call) : Tracker :=
  match c with
  | Init id ty trigger stack now => onInit t id ty trigger stack now
  | Destroy id => onDestroy t id
  | Expire id => expire t id
  | Check emitReturns now => fst (checkForDeadlocks emitReturns t now)
  | Stop => stop t
  end.

Definition run (t : Tracker) (cs : list Call) : Tracker := fold_left step cs t.

End PromiseTracker.

(** ** The unawaited-task detector
    ([src/instrumentation/unawaitedPromiseDetector.ts]) *)

Module UnawaitedPromiseDetector.

Record TrackedPromiseCreation := mkCreation {
  c_id : Z;
  c_stack : string;
  c_createdAt : Z;
  c_file : option string;
  c_line : option Z;
  isAwaited : bool;
}.

Record UnawaitedPromiseConfig := mkConfig {
  enabled : bool;
  checkInterval : Z;
  warningThreshold : Z;
}.

Definition defaultConfig : UnawaitedPromiseConfig := mkConfig true 3000 5000.

Record Detector := mkDetector {
  config : UnawaitedPromiseConfig;
  promiseCounter : Z;
  trackedPromises : list (Z * TrackedPromiseCreation);
}.

Definition create (c : UnawaitedPromiseConfig) : Detector := mkDetector c 0 [].

Definition parseStack (stack : string) : option string * option Z :=
  Stack.parseLines ["node_modules"; "node:internal"; "unawaitedPromiseDetector"]
                   (JS.splitLines stack).

(** The patched [then], [catch] and [finally] of the promise tracked under
    [id]: [tracked.isAwaited = true] when the entry is still there. *)
Definition continuationAttached (d : Detector) (id : Z) : Detector :=
  match JS.mapGet id (trackedPromises d) with
  | Some tr =>
      mkDetector (config d) (promiseCounter d)
        (JS.mapSet id
           (mkCreation (c_id tr) (c_stack tr) (c_createdAt tr) (c_file tr)
                       (c_line tr) true)
           (trackedPromises d))
  | None => d
  end.

(** The patched constructor [GuardianPromise].  After the entry is stored and
    the three methods are patched, the constructor itself calls the patched
    [promise.then(...)] to schedule the clean-up. *)
Definition construct (d : Detector) (stack : string) (now : Z) : Detector :=
  let '(f, l) := parseStack stack in
  if Stack.isGuardianInternal f then d
  else
    let id := promiseCounter d + 1 in
    continuationAttached
      (mkDetector (config d) id
         (JS.mapSet id (mkCreation id stack now f l false) (trackedPromises d)))
      id.

(** The timer armed by [cleanupPromise]. *)
Definition expire (d : Detector) (id : Z) : Detector :=
  mkDetector (config d) (promiseCounter d) (JS.mapDelete id (trackedPromises d)).

(** The loop of [checkUnawaitedPromises] over the entries present when it
    starts; an [emit] that throws leaves the loop before the entry is deleted. *)
Fixpoint warnLoop (emitReturns : Z -> bool) (now : Z)
    (es : list (Z * TrackedPromiseCreation)) (d : Detector) : Detector * list Z :=
  match es with
  | [] => (d, [])
  | (id, tr) :: rest =>
      if isAwaited tr then warnLoop emitReturns now rest d
      else if now - c_createdAt tr >? warningThreshold (config d) then
        if emitReturns id then
          let '(d', ids) := warnLoop emitReturns now rest (expire d id) in
          (d', id :: ids)
        else (d, [id])
      else warnLoop emitReturns now rest d
  end.

Definition checkUnawaitedPromises (emitReturns : Z -> bool) (d : Detector) (now : Z)
    : Detector * list Z :=
  warnLoop emitReturns now (trackedPromises d) d.

Definition stop (d : Detector) : Detector :=
  mkDetector (config d) (promiseCounter d) [].

Definition cleanStack (stack : string) : string :=
  Stack.cleanLines ["node_modules"; "node:internal"; "unawaitedPromiseDetector"] 8 stack.

Record Stats := mkStats {
  s_total : Z;
  s_unawaited : Z;
  s_suspicious : Z;
}.

Definition getStats (d : Detector) (now : Z) : Stats :=
  let ps := map snd (trackedPromises d) in
  {| s_total := Z.of_nat (length ps);
     s_unawaited := Z.of_nat (length (List.filter (fun p => negb (isAwaited p)) ps));
     s_suspicious :=
       Z.of_nat (length (List.filter
                           (fun p => negb (isAwaited p)
                                     && (now - c_createdAt p >? warningThreshold (config d)))
                           ps)) |}.

Definition fromUserCode (c : TrackedPromiseCreation) : Prop :=
  parseStack (c_stack c) = (c_file c, c_line c) /\
  Stack.isGuardianInternal (c_file c) = false.

Inductive Call :=
  | Construct (stack : string) (now : Z)
  | Attach (id : Z)
  | Expire (id : Z)
  | Check (emitReturns : Z -> bool) (now : Z)
  | Stop.

Definition step (d : Detector) (c : Call) : Detector :=
  match c with
  | Construct stack now => construct d stack now
  | Attach id => continuationAttached d id
  | Expire id => expire d id
  | Check emitReturns now => fst (checkUnawaitedPromises emitReturns d now)
  | Stop => stop d
  end.

Definition run (d : Detector) (cs : list Call) : Detector := fold_left step cs d.

End UnawaitedPromiseDetector.

(** ** The metrics registry ([src/utils/customMetrics.ts]) *)

Module CustomMetrics.

(** The entries of a [Record<string, string>], in the order in which
    [Object.entries] lists them. *)
Definition Labels := list (string * string).

(** The values of counters and gauges and the observations of histograms
    are the integers among the numbers of the sources; sums of them are
    those of the sources as long as they stay within
    [Number.MAX_SAFE_INTEGER].  Fractions, infinities and NaN are not
    covered. *)
Record Registry := mkRegistry {
  counters : gmap string Z;
  gauges : gmap string Z;
  histograms : gmap string (list Z);
  labels : gmap string Labels;
}.

Definition empty : Registry := mkRegistry ∅ ∅ ∅ ∅.

Record HistogramStats := mkStats {
  count : Z;
  sum : Z;
  avg : Q;
  min : Z;
  max : Z;
  p50 : Z;
  p95 : Z;
  p99 : Z;
}.

(** The binary64 constants written [0.5], [0.95] and [0.99]. *)
Definition c050 : float := 0x1p-1%float.
Definition c095 : float := 0x1.e666666666666p-1%float.
Definition c099 : float := 0x1.fae147ae147aep-1%float.

(** [sorted[Math.floor(sorted.length * q)]]; the index is within the array
    for every length that occurs (lemma [floorMul_percentiles]). *)
Definition percentile (sorted : list Z) (q : float) : Z :=
  nth (Z.to_nat (JS.floorMul (Z.of_nat (length sorted)) q)) sorted 0.

Definition dquote : string := String "034"%char EmptyString.

Fixpoint join (sep : string) (l : list string) : string :=
  match l with
  | [] => EmptyString
  | [x] => x
  | x :: rest => x +:+ sep +:+ join sep rest
  end.

(** The operations that set or read a metric. *)
Inductive Op :=
  | IncrementCounter (name : string) (value : option Z) (ls : option Labels)
  | SetGauge (name : string) (value : Z) (ls : option Labels)
  | RecordHistogram (name : string) (value : Z) (ls : option Labels)
  | Clear.

Section WithCollation.
(** [a.localeCompare(b)], which depends on the collation of the host. *)
Context (localeCompare : string -> string -> Z).

Definition getKey (name : string) (ls : option Labels) : string :=
  match ls with
  | None | Some [] => name
  | Some l =>
      let labelStr :=
        join ","
          (map (fun '(k, v) => k +:+ "=" +:+ dquote +:+ v +:+ dquote)
               (JS.sortBy (fun a b => localeCompare (fst a) (fst b)) l)) in
      name +:+ "{" +:+ labelStr +:+ "}"
  end.

Definition noteLabels (key : string) (ls : option Labels)
    (m : gmap string Labels) : gmap string Labels :=
  match ls with
  | Some l => <[key := l]> m
  | None => m
  end.

(** [value] is [None] when the argument is left out (default [1]). *)
Definition incrementCounter (r : Registry) (name : string) (value : option Z)
    (ls : option Labels) : Registry :=
  let key := getKey name ls in
  let current := JS.orZ (counters r !! key) 0 in
  mkRegistry (<[key := current + default 1 value]> (counters r))
             (gauges r) (histograms r) (noteLabels key ls (labels r)).

Definition setGauge (r : Registry) (name : string) (value : Z)
    (ls : option Labels) : Registry :=
  let key := getKey name ls in
  mkRegistry (counters r) (<[key := value]> (gauges r)) (histograms r)
             (noteLabels key ls (labels r)).

Definition recordHistogram (r : Registry) (name : string) (value : Z)
    (ls : option Labels) : Registry :=
  let key := getKey name ls in
  let pushed := default [] (histograms r !! key) ++ [value] in
  let values := if Z.of_nat (length pushed) >? 1000 then tl pushed else pushed in
  mkRegistry (counters r) (gauges r) (<[key := values]> (histograms r))
             (noteLabels key ls (labels r)).

Definition getCounter (r : Registry) (name : string) (ls : option Labels) : Z :=
  JS.orZ (counters r !! getKey name ls) 0.

Definition getGauge (r : Registry) (name : string) (ls : option Labels) : Z :=
  JS.orZ (gauges r !! getKey name ls) 0.

Definition statsOf (values : list Z) : HistogramStats :=
  let sorted := JS.sortBy (fun a b => a - b) values in
  let total := fold_left Z.add sorted 0 in
  {| count := Z.of_nat (length sorted);
     sum := total;
     avg := total # Pos.of_nat (length sorted);
     min := nth 0 sorted 0;
     max := nth (length sorted - 1) sorted 0;
     p50 := percentile sorted c050;
     p95 := percentile sorted c095;
     p99 := percentile sorted c099 |}.

Definition getHistogramStats (r : Registry) (name : string) (ls : option Labels)
    : option HistogramStats :=
  match histograms r !! getKey name ls with
  | None | Some [] => None
  | Some values => Some (statsOf values)
  end.

Definition clear (r : Registry) : Registry := empty.

Definition apply (r : Registry) (o : Op) : Registry :=
  match o with
  | IncrementCounter n v ls => incrementCounter r n v ls
  | SetGauge n v ls => setGauge r n v ls
  | RecordHistogram n v ls => recordHistogram r n v ls
  | Clear => clear r
  end.

Definition run (r : Registry) (ops : list Op) : Registry := fold_left apply ops r.

End WithCollation.

(** The longest prefix of [s] without the character [c], and the rest. *)
Fixpoint breakAt (c : ascii) (s : string) : string * string :=
  match s with
  | EmptyString => (EmptyString, EmptyString)
  | String a s' =>
      if Ascii.eqb a c then (EmptyString, s)
      else let '(before, rest) := breakAt c s' in (String a before, rest)
  end.

(** [s] without its last character, when that character is [c]. *)
Fixpoint dropLast (c : ascii) (s : string) : option string :=
  match s with
  | EmptyString => None
  | String a s' =>
      match s' with
      | EmptyString => if Ascii.eqb a c then Some EmptyString else None
      | _ => option_map (String a) (dropLast c s')
      end
  end.

(** Whether [s] holds a character that [.] does not match: LF, CR, or one
    of U+2028 and U+2029, which are the bytes E2 80 A8 and E2 80 A9. *)
Fixpoint hasLineTerminator (s : string) : bool :=
  match s with
  | EmptyString => false
  | String a rest =>
      Ascii.eqb a "010" || Ascii.eqb a "013"
      || (Ascii.eqb a "226"
          && match rest with
             | String b (String c _) =>
                 Ascii.eqb b "128" && (Ascii.eqb c "168" || Ascii.eqb c "169")
             | _ => false
             end)
      || hasLineTerminator rest
  end.

(** [key.match(/^([^{]+)(\{(.+)\})?$/)]: the groups 1 and 3 of the match.
    Group 1 is the longest prefix without a brace, and is not empty; what
    follows it is nothing, or a brace, one or more characters of a line, a
    closing brace and the end of the key. *)
Definition matchKey (key : string) : option (string * option string) :=
  let '(name, rest) := breakAt "{" key in
  match name, rest with
  | EmptyString, _ => None
  | _, EmptyString => Some (name, None)
  | _, String _ inner =>
      match dropLast "}" inner with
      | Some body =>
          if negb (String.eqb body "") && negb (hasLineTerminator body)
          then Some (name, Some body)
          else None
      | None => None
      end
  end.

Definition dropQuote (v : string) : string :=
  match v with
  | String a rest => if Ascii.eqb a "034" then rest else v
  | EmptyString => v
  end.

(** [v.replace(/^"|"$/g, '')]: a quote at the start and a quote at the end
    are removed. *)
Definition stripQuotes (v : string) : string :=
  let v1 := dropQuote v in
  default v1 (dropLast "034" v1).

(** [const [k, v] = pair.split('=')] and the assignment that follows; [None]
    when [v] is [undefined], on which [v.replace] throws. *)
Definition parsePair (pair : string) : option (string * string) :=
  match JS.splitOn "=" pair with
  | k :: v :: _ => Some (k, stripQuotes v)
  | _ => None
  end.

(** [labels[k] = v] on an object literal, for a string [v]: the name
    [__proto__] reaches the setter of the prototype, which ignores a string;
    every other name becomes a property of the object. *)
Definition assign (k v : string) (labels : gmap string string) : gmap string string :=
  if String.eqb k "__proto__" then labels else <[k := v]> labels.

Fixpoint parsePairs (pairs : list string) (labels : gmap string string)
    : option (gmap string string) :=
  match pairs with
  | [] => Some labels
  | p :: rest =>
      match parsePair p with
      | Some (k, v) => parsePairs rest (assign k v labels)
      | None => None
      end
  end.

(** [parseKey]: the name and the labels read back from a key; [None] when it
    throws. *)
Definition parseKey (key : string) : option (string * option (gmap string string)) :=
  match matchKey key with
  | None => Some (key, None)
  | Some (name, None) => Some (name, None)
  | Some (name, Some body) =>
      option_map (fun labels => (name, Some labels))
                 (parsePairs (JS.splitOn "," body) ∅)
  end.

(** A label name or value that [getKey] writes and [parseKey] reads back
    unchanged: without comma, equals sign, quote, line feed and carriage
    return, and without the byte E2, with which the characters U+2000 to
    U+2FFF start, the line separators U+2028 and U+2029 among them. *)
Definition plain (s : string) : bool :=
  forallb (fun a => negb (existsb (Ascii.eqb a)
                            ["," ; "="; "034"; "010"; "013"; "226"]%char))
          (list_ascii_of_string s).

(** A label name that [parseKey] reads back. *)
Definition plainLabel (s : string) : bool :=
  plain s && negb (String.eqb s "__proto__").

(** A metric name that [parseKey] reads back: not empty and without brace. *)
Definition plainName (s : string) : bool :=
  negb (String.eqb s "")
  && forallb (fun a => negb (Ascii.eqb a "{")) (list_ascii_of_string s).

(** An amount a counter is meant to be incremented by. *)
Definition positiveAmount (o : Op) : Prop :=
  match o with
  | IncrementCounter _ (Some v) _ => 0 < v
  | Clear => False
  | _ => True
  end.

(** An operation that neither sets the gauge stored under [key] nor clears
    the registry. *)
Definition leavesGauge (localeCompare : string -> string -> Z) (key : string)
    (o : Op) : Prop :=
  match o with
  | SetGauge n _ l => getKey localeCompare n l <> key
  | Clear => False
  | _ => True
  end.

(** The collation puts the label names [ks] in a strict total order. *)
Definition ordersNames (localeCompare : string -> string -> Z) (ks : list string)
    : Prop :=
  (forall a, In a ks -> ~ localeCompare a a < 0)
  /\ (forall a b c, In a ks -> In b ks -> In c ks ->
        localeCompare a b < 0 -> localeCompare b c < 0 -> localeCompare a c < 0)
  /\ (forall a b, In a ks -> In b ks -> a <> b ->
        localeCompare a b < 0 \/ localeCompare b a < 0).

End CustomMetrics.

(** ** The event-loop monitor ([src/core/eventLoopMonitor.ts]) *)

Module EventLoopMonitor.
Import EventStore.

Record EventLoopConfig := mkConfig {
  enabled : bool;
  stallThreshold : float;
  sampleInterval : Z;
}.

(** [running] tells whether the delay histogram exists, which it does between
    [start] and [stop]. *)
Record Monitor := mkMonitor {
  config : EventLoopConfig;
  running : bool;
  lastStallTime : Z;
  stallCount : Z;
}.

Definition create (c : EventLoopConfig) : Monitor := mkMonitor c false 0 0.

Definition start (m : Monitor) : Monitor :=
  if negb (enabled (config m)) || running m then m
  else mkMonitor (config m) true (lastStallTime m) (stallCount m).

Definition stop (m : Monitor) : Monitor :=
  mkMonitor (config m) false (lastStallTime m) (stallCount m).

(** [checkEventLoop].  [meanNs] is [histogram.mean], in nanoseconds; [now] is
    the clock read by the check and [later] the clock when [emit] builds the
    event; [suggestion] is the text of [generateSuggestion].  The result
    tells whether a stall was reported. *)
Definition checkEventLoop (m : Monitor) (st : Store) (meanNs : float)
    (now later : Z) (suggestion : string) : Monitor * Store * bool :=
  if negb (running m) then (m, st, false)
  else
    let mean := (meanNs / 1000000)%float in
    if PrimFloat.ltb (stallThreshold (config m)) mean then
      if now - lastStallTime m >? 5000 then
        (mkMonitor (config m) (running m) now (stallCount m + 1),
         r_store (emit st later EVENT_LOOP_STALL (mkPayload None None)
                       (mkOptions (Some (if PrimFloat.ltb 500 mean
                                         then critical else error))
                                  None None None (Some suggestion))),
         true)
      else (m, st, false)
    else (m, st, false).

(** A run of checks; the result lists the clock readings of the checks that
    reported a stall. *)
Fixpoint checkAll (m : Monitor) (st : Store)
    (checks : list (float * Z * Z * string)) : Monitor * Store * list Z :=
  match checks with
  | [] => (m, st, [])
  | (meanNs, now, later, suggestion) :: rest =>
      let '(m1, st1, reported) := checkEventLoop m st meanNs now later suggestion in
      let '(m2, st2, times) := checkAll m1 st1 rest in
      (m2, st2, if reported then now :: times else times)
  end.

End EventLoopMonitor.

(** ** The error handler ([src/utils/errorHandler.ts]) *)

Module ErrorHandler.
Import EventStore.

Record Config := mkConfig {
  maxErrors : Z;
  errorWindow : Z;
}.

(** [maxErrorsCalls] counts the calls of [config.onMaxErrors] made so far;
    the callback is taken to return. *)
Record Handler := mkHandler {
  errorCount : Z;
  errors : list (Z * string);
  config : Config;
  isDisabled : bool;
  maxErrorsCalls : Z;
}.

(** The constructor: [config.maxErrors || 100], [config.errorWindow || 60000]. *)
Definition create (maxErrors errorWindow : option Z) : Handler :=
  mkHandler 0 [] (mkConfig (JS.orZ maxErrors 100) (JS.orZ errorWindow 60000)) false 0.

(** [handle(context, error)].  [now] is the clock read at entry and [later]
    the clock when [emit] builds its event.  An exception thrown by a
    listener inside [emit] is caught, after the store has taken the event. *)
Definition handle (h : Handler) (st : Store) (now later : Z) (context : string)
    : Handler * Store :=
  if isDisabled h then (h, st)
  else
    let recent :=
      List.filter (fun e => now - fst e <? errorWindow (config h)) (errors h)
        ++ [(now, context)] in
    let count := errorCount h + 1 in
    if Z.of_nat (length recent) >? maxErrors (config h)
    then (mkHandler count recent (config h) true (maxErrorsCalls h + 1), st)
    else (mkHandler count recent (config h) false (maxErrorsCalls h),
          r_store (emit st later SYSTEM_INFO (mkPayload None None) noOptions)).

Record Stats := mkStats {
  totalErrors : Z;
  recentErrors : Z;
  s_isDisabled : bool;
}.

Definition getStats (h : Handler) : Stats :=
  mkStats (errorCount h) (Z.of_nat (length (errors h))) (isDisabled h).

Definition reset (h : Handler) : Handler :=
  mkHandler 0 [] (config h) false (maxErrorsCalls h).

(** A run of [handle] calls, each with its two clock readings and context. *)
Fixpoint handleAll (h : Handler) (st : Store) (calls : list (Z * Z * string))
    : Handler * Store :=
  match calls with
  | [] => (h, st)
  | (now, later, context) :: rest =>
      let '(h', st') := handle h st now later context in
      handleAll h' st' rest
  end.

End ErrorHandler.

(** ** The memory monitor ([src/core/memoryMonitor.ts]) *)

Module MemoryMonitor.
Import EventStore.

Record MemoryConfig := mkConfig {
  enabled : bool;
  checkInterval : Z;
  leakThreshold : Z;
  consecutiveGrowth : Z;
}.

Definition defaultConfig : MemoryConfig := mkConfig true 5000 10 3.

Record MemorySnapshot := mkSnapshot {
  timestamp : Z;
  heapUsed : Z;
  heapTotal : Z;
  external : Z;
  rss : Z;
}.

Record Monitor := mkMonitor {
  config : MemoryConfig;
  snapshots : list MemorySnapshot;
  consecutiveGrowthCount : Z;
  leakDetectedCount : Z;
}.

Definition maxSnapshots : Z := 100.

Definition create (c : MemoryConfig) : Monitor := mkMonitor c [] 0 0.

(** [takeSnapshot]; [s] is the snapshot built from [process.memoryUsage()]
    and the clock. *)
Definition takeSnapshot (m : Monitor) (s : MemorySnapshot) : Monitor :=
  let pushed := snapshots m ++ [s] in
  mkMonitor (config m)
            (if Z.of_nat (length pushed) >? maxSnapshots then tl pushed else pushed)
            (consecutiveGrowthCount m) (leakDetectedCount m).

Inductive Trend := growing | stable | decreasing.

(** The number of snapshots of [recent], after the first, whose heap is above
    that of the snapshot before. *)
Fixpoint increases (recent : list MemorySnapshot) : nat :=
  match recent with
  | a :: (b :: _) as rest =>
      ((if heapUsed b >? heapUsed a then 1 else 0) + increases rest)%nat
  | _ => 0%nat
  end.

Definition calculateTrend (m : Monitor) : Trend :=
  if (length (snapshots m) <? 5)%nat then stable
  else
    let recent := skipn (length (snapshots m) - 5) (snapshots m) in
    let n := increases recent in
    if (4 <=? n)%nat then growing
    else if (n <=? 1)%nat then decreasing
    else stable.

Definition calculateTotalGrowth (m : Monitor) : Q :=
  match snapshots m with
  | first :: _ :: _ =>
      HealthChecker.memoryMB (heapUsed (List.last (snapshots m) first) - heapUsed first)
  | _ => 0
  end.

(** [detectLeak]; [suggestion] is the text [generateLeakSuggestion] builds,
    which no other part of the monitor reads. *)
Definition detectLeak (m : Monitor) (st : Store) (later : Z) (suggestion : string)
    : Monitor * EmitResult :=
  let m1 := mkMonitor (config m) (snapshots m) (consecutiveGrowthCount m)
                      (leakDetectedCount m + 1) in
  let totalGrowth := calculateTotalGrowth m1 in
  (m1,
   emit st later MEMORY_LEAK (mkPayload None None)
        (mkOptions (Some (if HealthChecker.Qgtb totalGrowth (100 # 1)
                          then critical else error))
                   None None None (Some suggestion))).

Definition setCount (m : Monitor) (n : Z) : Monitor :=
  mkMonitor (config m) (snapshots m) n (leakDetectedCount m).

(** [checkMemory].  When a listener makes [emit] throw, the exception leaves
    [detectLeak] and [checkMemory] before the count is reset. *)
Definition checkMemory (m : Monitor) (st : Store) (s : MemorySnapshot) (later : Z)
    (suggestion : string) : Monitor * Store :=
  let m1 := takeSnapshot m s in
  match rev (snapshots m1) with
  | current :: previous :: _ =>
      let growthMB := HealthChecker.memoryMB (heapUsed current - heapUsed previous) in
      if HealthChecker.Qgtb growthMB (inject_Z (leakThreshold (config m1))) then
        let m2 := setCount m1 (consecutiveGrowthCount m1 + 1) in
        if consecutiveGrowthCount m2 >=? consecutiveGrowth (config m2) then
          let '(m3, res) := detectLeak m2 st later suggestion in
          match r_outcome res with
          | Returned => (setCount m3 0, r_store res)
          | Threw _ => (m3, r_store res)
          end
        else (m2, st)
      else if HealthChecker.Qgtb 0 growthMB then (setCount m1 0, st)
      else (m1, st)
  | _ => (m1, st)
  end.

(** A run of checks, each with the snapshot it takes. *)
Fixpoint checkAll (m : Monitor) (st : Store)
    (checks : list (MemorySnapshot * Z * string)) : Monitor * Store :=
  match checks with
  | [] => (m, st)
  | (s, later, suggestion) :: rest =>
      let '(m', st') := checkMemory m st s later suggestion in
      checkAll m' st' rest
  end.

(** The checks of a run in which the heap grew by more than the threshold. *)
Fixpoint growths (threshold : Z) (previous : option MemorySnapshot)
    (taken : list MemorySnapshot) : nat :=
  match taken with
  | [] => 0%nat
  | s :: rest =>
      ((match previous with
        | Some p =>
            if HealthChecker.Qgtb (HealthChecker.memoryMB (heapUsed s - heapUsed p))
                                  (inject_Z threshold)
            then 1 else 0
        | None => 0
        end) + growths threshold (Some s) rest)%nat
  end.

End MemoryMonitor.

(** ** The orchestrator and its configuration
       ([src/index.ts], [src/utils/configValidator.ts]) *)

Module Guardian.

(** A property of a configuration object: not there, there with the value
    [undefined], or there with a value. *)
Inductive Field (A : Type) : Type :=
  | Absent
  | Undefined
  | Value (a : A).

Arguments Absent {A}.
Arguments Undefined {A}.
Arguments Value {A} a.

(** Reading the property: [undefined] in the first two cases. *)
Definition read {A : Type} (f : Field A) : option A :=
  match f with
  | Value a => Some a
  | _ => None
  end.

(** The property [proj] of a section that may be missing: spreading or
    reading [undefined] gives no property. *)
Definition fieldOf {S A : Type} (section : Field S) (proj : S -> Field A) : Field A :=
  match section with
  | Value s => proj s
  | _ => Absent
  end.

Record EventLoopSection := mkEventLoop {
  el_enabled : Field bool;
  el_stallThreshold : Field Z;
  el_sampleInterval : Field Z;
}.

(** [pr_maxTrackedPromises] is not a property of the interface
    [GuardianConfig]; the object spread in the constructor of the tracker
    copies it like every other property of the section it is given. *)
Record PromisesSection := mkPromises {
  pr_enabled : Field bool;
  pr_deadlockThreshold : Field Z;
  pr_checkInterval : Field Z;
  pr_maxTracked : Field Z;
  pr_maxTrackedPromises : Field Z;
}.

(** [me_consecutiveGrowth]: as [pr_maxTrackedPromises], for the constructor
    of the memory monitor. *)
Record MemorySection := mkMemory {
  me_enabled : Field bool;
  me_checkInterval : Field Z;
  me_leakThreshold : Field Z;
  me_maxSnapshots : Field Z;
  me_consecutiveGrowth : Field Z;
}.

Record UnawaitedSection := mkUnawaited {
  un_enabled : Field bool;
  un_checkInterval : Field Z;
  un_warningThreshold : Field Z;
}.

Record GuardianConfig := mkGuardianConfig {
  mode : Field string;
  eventLoop : Field EventLoopSection;
  promises : Field PromisesSection;
  memory : Field MemorySection;
  unawaitedPromises : Field UnawaitedSection;
}.

(** *** [ConfigValidator] *)

(** The outcome of a validation: [None] when it returns, [Some field] when it
    throws, with the name of the offending field in place of the message. *)
Definition Check := option string.

Definition andThen (a b : Check) : Check :=
  match a with
  | Some e => Some e
  | None => b
  end.

Infix "&>" := andThen (at level 62, right associativity).

(** [validatePositive] returns at once on [value === undefined], which is
    what reading an absent property and reading one set to [undefined] both
    give; the numbers of the model are finite. *)
Definition validatePositive (value : Field Z) (name : string) (minimum : Z) : Check :=
  match value with
  | Value v =>
      if v <=? 0 then Some name
      else if v <? minimum then Some name
      else None
  | _ => None
  end.

(** [if (value !== undefined) { if (value < low) throw ...; if (value > high) throw ... }] *)
Definition validateRange (value : Field Z) (name : string) (low high : Z) : Check :=
  match value with
  | Value v =>
      if v <? low then Some name
      else if v >? high then Some name
      else None
  | _ => None
  end.

(** [if (config.section) { ... }] *)
Definition within {A : Type} (section : Field A) (checks : A -> Check) : Check :=
  match section with
  | Value s => checks s
  | _ => None
  end.

Definition validModes : list string := ["production"; "development"; "debug"].

Definition validate (c : GuardianConfig) : Check :=
  (match mode c with
   | Value m =>
       if negb (String.eqb m "") && negb (existsb (String.eqb m) validModes)
       then Some "mode" else None
   | _ => None
   end) &>
  within (eventLoop c) (fun s =>
    validatePositive (el_sampleInterval s) "eventLoop.sampleInterval" 1000 &>
    validatePositive (el_stallThreshold s) "eventLoop.stallThreshold" 10) &>
  within (promises c) (fun s =>
    validatePositive (pr_checkInterval s) "promises.checkInterval" 1000 &>
    validatePositive (pr_deadlockThreshold s) "promises.deadlockThreshold" 5000 &>
    validateRange (pr_maxTracked s) "promises.maxTracked" 10 100000) &>
  within (memory c) (fun s =>
    validatePositive (me_checkInterval s) "memory.checkInterval" 5000 &>
    validatePositive (me_leakThreshold s) "memory.leakThreshold" 1 &>
    validateRange (me_maxSnapshots s) "memory.maxSnapshots" 3 1000) &>
  within (unawaitedPromises c) (fun s =>
    validatePositive (un_checkInterval s) "unawaitedPromises.checkInterval" 1000 &>
    validatePositive (un_warningThreshold s) "unawaitedPromises.warningThreshold" 1000).

(** [validateSafe]: [{ valid, error }]. *)
Definition validateSafe (c : GuardianConfig) : bool * option string :=
  match validate c with
  | None => (true, None)
  | Some e => (false, Some e)
  end.

(** *** Mode presets *)

Definition production : GuardianConfig :=
  mkGuardianConfig Absent
    (Value (mkEventLoop (Value true) (Value 300) (Value 30000)))
    (Value (mkPromises (Value false) (Value 120000) (Value 60000) (Value 20) Absent))
    (Value (mkMemory (Value true) (Value 30000) (Value 50) (Value 5) Absent))
    (Value (mkUnawaited (Value false) Absent Absent)).

Definition development : GuardianConfig :=
  mkGuardianConfig Absent
    (Value (mkEventLoop (Value true) (Value 150) (Value 10000)))
    (Value (mkPromises (Value true) (Value 45000) (Value 15000) (Value 50) Absent))
    (Value (mkMemory (Value true) (Value 15000) (Value 20) (Value 20) Absent))
    (Value (mkUnawaited (Value true) (Value 10000) (Value 10000))).

Definition debug : GuardianConfig :=
  mkGuardianConfig Absent
    (Value (mkEventLoop (Value true) (Value 100) (Value 5000)))
    (Value (mkPromises (Value true) (Value 30000) (Value 10000) (Value 100) Absent))
    (Value (mkMemory (Value true) (Value 10000) (Value 10) (Value 50) Absent))
    (Value (mkUnawaited (Value true) (Value 5000) (Value 5000))).

(** [MODE_DEFAULTS[mode]] for the names that [validate] lets through; the
    constructor validates before it applies the defaults. *)
Definition MODE_DEFAULTS (m : string) : option GuardianConfig :=
  if String.eqb m "production" then Some production
  else if String.eqb m "development" then Some development
  else if String.eqb m "debug" then Some debug
  else None.

(** One property of [{ ...defaults, ...given }]: a property of [given] wins,
    also when its value is [undefined]. *)
Definition spread {A : Type} (defaults given : Field A) : Field A :=
  match given with
  | Absent => defaults
  | _ => given
  end.

Definition spreadEventLoop (d g : Field EventLoopSection) : EventLoopSection :=
  mkEventLoop (spread (fieldOf d el_enabled) (fieldOf g el_enabled))
              (spread (fieldOf d el_stallThreshold) (fieldOf g el_stallThreshold))
              (spread (fieldOf d el_sampleInterval) (fieldOf g el_sampleInterval)).

Definition spreadPromises (d g : Field PromisesSection) : PromisesSection :=
  mkPromises (spread (fieldOf d pr_enabled) (fieldOf g pr_enabled))
             (spread (fieldOf d pr_deadlockThreshold) (fieldOf g pr_deadlockThreshold))
             (spread (fieldOf d pr_checkInterval) (fieldOf g pr_checkInterval))
             (spread (fieldOf d pr_maxTracked) (fieldOf g pr_maxTracked))
             (spread (fieldOf d pr_maxTrackedPromises) (fieldOf g pr_maxTrackedPromises)).

Definition spreadMemory (d g : Field MemorySection) : MemorySection :=
  mkMemory (spread (fieldOf d me_enabled) (fieldOf g me_enabled))
           (spread (fieldOf d me_checkInterval) (fieldOf g me_checkInterval))
           (spread (fieldOf d me_leakThreshold) (fieldOf g me_leakThreshold))
           (spread (fieldOf d me_maxSnapshots) (fieldOf g me_maxSnapshots))
           (spread (fieldOf d me_consecutiveGrowth) (fieldOf g me_consecutiveGrowth)).

Definition spreadUnawaited (d g : Field UnawaitedSection) : UnawaitedSection :=
  mkUnawaited (spread (fieldOf d un_enabled) (fieldOf g un_enabled))
              (spread (fieldOf d un_checkInterval) (fieldOf g un_checkInterval))
              (spread (fieldOf d un_warningThreshold) (fieldOf g un_warningThreshold)).

Definition applyModeDefaults (c : GuardianConfig) : GuardianConfig :=
  match read (mode c) ≫= (fun m => if String.eqb m "" then None else MODE_DEFAULTS m) with
  | Some defaults =>
      mkGuardianConfig (mode defaults)
        (Value (spreadEventLoop (eventLoop defaults) (eventLoop c)))
        (Value (spreadPromises (promises defaults) (promises c)))
        (Value (spreadMemory (memory defaults) (memory c)))
        (Value (spreadUnawaited (unawaitedPromises defaults) (unawaitedPromises c)))
  | None =>
      mkGuardianConfig (spread (mode production) (mode c))
        (spread (eventLoop production) (eventLoop c))
        (spread (promises production) (promises c))
        (spread (memory production) (memory c))
        (spread (unawaitedPromises production) (unawaitedPromises c))
  end.

(** *** The monitors' constructors, on the sections they are given *)

(** One property of [this.config = { name: dflt, ..., ...config }], as it is
    read afterwards: [None] stands for [undefined]. *)
Definition setting {A : Type} (dflt : A) (given : Field A) : option A :=
  read (spread (Value dflt) given).

(** [this.config] of the task tracker after
    [new PromiseTracker(finalConfig.promises)]; a section that is missing or
    [undefined] is replaced by [{}]. *)
Record TrackerSettings := mkTrackerSettings {
  ts_enabled : option bool;
  ts_deadlockThreshold : option Z;
  ts_checkInterval : option Z;
  ts_maxTrackedPromises : option Z;
}.

Definition trackerSettings (s : Field PromisesSection) : TrackerSettings :=
  mkTrackerSettings
    (setting true (fieldOf s pr_enabled))
    (setting 30000 (fieldOf s pr_deadlockThreshold))
    (setting 5000 (fieldOf s pr_checkInterval))
    (setting 10000 (fieldOf s pr_maxTrackedPromises)).

Record DetectorSettings := mkDetectorSettings {
  ds_enabled : option bool;
  ds_checkInterval : option Z;
  ds_warningThreshold : option Z;
}.

Definition detectorSettings (s : Field UnawaitedSection) : DetectorSettings :=
  mkDetectorSettings
    (setting true (fieldOf s un_enabled))
    (setting 3000 (fieldOf s un_checkInterval))
    (setting 5000 (fieldOf s un_warningThreshold)).

Record MemorySettings := mkMemorySettings {
  ms_enabled : option bool;
  ms_checkInterval : option Z;
  ms_leakThreshold : option Z;
  ms_consecutiveGrowth : option Z;
}.

Definition memorySettings (s : Field MemorySection) : MemorySettings :=
  mkMemorySettings
    (setting true (fieldOf s me_enabled))
    (setting 5000 (fieldOf s me_checkInterval))
    (setting 10 (fieldOf s me_leakThreshold))
    (setting 3 (fieldOf s me_consecutiveGrowth)).

Record Settings := mkSettings {
  tracker : TrackerSettings;
  memoryS : MemorySettings;
  detector : DetectorSettings;
}.

(** The constructor of [Guardian]: the error of the validation, or the
    settings of the monitors built from the final configuration (the
    event-loop monitor is built from its section in the same way). *)
Definition construct (c : GuardianConfig) : string + Settings :=
  match validate c with
  | Some e => inl e
  | None =>
      let finalConfig := applyModeDefaults c in
      inr (mkSettings (trackerSettings (promises finalConfig))
                      (memorySettings (memory finalConfig))
                      (detectorSettings (unawaitedPromises finalConfig)))
  end.

(** The monitors of the other modules take numbers for their intervals,
    thresholds and limits, so they stand for the monitors built here when
    none of these settings is [undefined].  [enabled] is only tested for
    truth, so [undefined] there is [false]. *)
Definition trackerConfig (s : TrackerSettings) : option PromiseTracker.PromiseConfig :=
  match ts_deadlockThreshold s, ts_checkInterval s, ts_maxTrackedPromises s with
  | Some d, Some i, Some m =>
      Some (PromiseTracker.mkConfig (default false (ts_enabled s)) d i m)
  | _, _, _ => None
  end.

Definition detectorConfig (s : DetectorSettings)
    : option UnawaitedPromiseDetector.UnawaitedPromiseConfig :=
  match ds_checkInterval s, ds_warningThreshold s with
  | Some i, Some w =>
      Some (UnawaitedPromiseDetector.mkConfig (default false (ds_enabled s)) i w)
  | _, _ => None
  end.

Definition memoryConfig (s : MemorySettings) : option MemoryMonitor.MemoryConfig :=
  match ms_checkInterval s, ms_leakThreshold s, ms_consecutiveGrowth s with
  | Some i, Some l, Some g =>
      Some (MemoryMonitor.mkConfig (default false (ms_enabled s)) i l g)
  | _, _, _ => None
  end.

Record Monitors := mkMonitors {
  promiseTracker : PromiseTracker.Tracker;
  memoryMonitor : MemoryMonitor.Monitor;
  unawaitedPromiseDetector : UnawaitedPromiseDetector.Detector;
}.

Definition monitors (st : Settings) : option Monitors :=
  match trackerConfig (tracker st), memoryConfig (memoryS st),
        detectorConfig (detector st) with
  | Some t, Some m, Some d =>
      Some (mkMonitors (PromiseTracker.create t) (MemoryMonitor.create m)
                       (UnawaitedPromiseDetector.create d))
  | _, _, _ => None
  end.

(** No property of a section has the value [undefined]. *)
Definition defined {A : Type} (f : Field A) : Prop := f <> Undefined.

Definition definedSections (c : GuardianConfig) : Prop :=
  (forall s, promises c = Value s ->
     defined (pr_enabled s) /\ defined (pr_deadlockThreshold s)
     /\ defined (pr_checkInterval s) /\ defined (pr_maxTrackedPromises s)) /\
  (forall s, memory c = Value s ->
     defined (me_enabled s) /\ defined (me_checkInterval s)
     /\ defined (me_leakThreshold s) /\ defined (me_consecutiveGrowth s)) /\
  (forall s, unawaitedPromises c = Value s ->
     defined (un_enabled s) /\ defined (un_checkInterval s)
     /\ defined (un_warningThreshold s)).

End Guardian.

(** ** Sample inputs *)

Module Samples.

Definition newline : string := String "010"%char EmptyString.

(** What [new Error().stack] looks like inside the init hook when the
    monitor is installed as a dependency of an application. *)
Definition userStack : string :=
  "Error" +:+ newline +:+
  "    at PromiseTracker.onInit (/app/node_modules/async-guardian/dist/core/promiseTracker.js:131:19)"
  +:+ newline +:+
  "    at AsyncHook.init (/app/node_modules/async-guardian/dist/core/promiseTracker.js:47:16)"
  +:+ newline +:+
  "    at promiseInitHook (node:internal/async_hooks:328:3)" +:+ newline +:+
  "    at handleRequest (/app/src/server.js:42:7)".

Definition initUser (id : Z) : PromiseTracker.Call :=
  PromiseTracker.Init id "PROMISE" 0 userStack (1000 + id).

(** A tracker with room for ten tasks. *)
Definition smallTracker : PromiseTracker.Tracker :=
  PromiseTracker.create (PromiseTracker.mkConfig true 30000 5000 10).

(** A collation for the examples: labels compare equal, which leaves them in
    insertion order. *)
Definition noCollation (a b : string) : Z := 0.

(** The observations 1, 2, ..., 100 recorded in that order. *)
Definition oneToHundred : list CustomMetrics.Op :=
  map (fun v => CustomMetrics.RecordHistogram "test" (Z.of_nat v) None) (seq 1 100).

(** A collation for the examples that tells label names apart: the order of
    the code units. *)
Definition codeUnitOrder (a b : string) : Z :=
  match String.compare a b with
  | Lt => -1
  | Eq => 0
  | Gt => 1
  end.

(** The frames of a task created by the monitor's own event-loop sampler
    when the monitor runs from its build directory. *)
Definition guardianStack : string :=
  "Error" +:+ newline +:+
  "    at EventLoopMonitor.check (/srv/guardian/dist/core/eventLoopMonitor.js:60:11)"
  +:+ newline +:+
  "    at listOnTimeout (node:internal/timers:581:17)".

(** The stack inside the init hook of the task tracker for the continuation
    that the unawaited-task detector attaches to every promise it wraps (the
    [promise.then(...)] that ends its patched constructor), when the monitor
    is installed as a dependency and the promise is constructed by the
    application. *)
Definition continuationStack : string :=
  "Error" +:+ newline +:+
  "    at PromiseTracker.onInit (/app/node_modules/async-guardian/dist/core/promiseTracker.js:131:19)"
  +:+ newline +:+
  "    at AsyncHook.init (/app/node_modules/async-guardian/dist/core/promiseTracker.js:47:16)"
  +:+ newline +:+
  "    at promiseInitHook (node:internal/async_hooks:328:3)" +:+ newline +:+
  "    at Promise.then (<anonymous>)" +:+ newline +:+
  "    at promise.then (/app/node_modules/async-guardian/dist/instrumentation/unawaitedPromiseDetector.js:137:18)"
  +:+ newline +:+
  "    at new GuardianPromise (/app/node_modules/async-guardian/dist/instrumentation/unawaitedPromiseDetector.js:159:17)"
  +:+ newline +:+
  "    at handleRequest (/app/src/server.js:42:7)".

(** The same when the promise is constructed by another dependency of the
    application, from a callback of Node. *)
Definition libraryContinuationStack : string :=
  "Error" +:+ newline +:+
  "    at PromiseTracker.onInit (/app/node_modules/async-guardian/dist/core/promiseTracker.js:131:19)"
  +:+ newline +:+
  "    at AsyncHook.init (/app/node_modules/async-guardian/dist/core/promiseTracker.js:47:16)"
  +:+ newline +:+
  "    at promiseInitHook (node:internal/async_hooks:328:3)" +:+ newline +:+
  "    at Promise.then (<anonymous>)" +:+ newline +:+
  "    at promise.then (/app/node_modules/async-guardian/dist/instrumentation/unawaitedPromiseDetector.js:137:18)"
  +:+ newline +:+
  "    at new GuardianPromise (/app/node_modules/async-guardian/dist/instrumentation/unawaitedPromiseDetector.js:159:17)"
  +:+ newline +:+
  "    at Query.run (/app/node_modules/pg/lib/query.js:70:10)" +:+ newline +:+
  "    at process.processTicksAndRejections (node:internal/process/task_queues:95:5)".

(** The first of the two when the monitor runs from its build directory. *)
Definition builtContinuationStack : string :=
  "Error" +:+ newline +:+
  "    at PromiseTracker.onInit (/srv/guardian/dist/core/promiseTracker.js:131:19)"
  +:+ newline +:+
  "    at AsyncHook.init (/srv/guardian/dist/core/promiseTracker.js:47:16)"
  +:+ newline +:+
  "    at promiseInitHook (node:internal/async_hooks:328:3)" +:+ newline +:+
  "    at Promise.then (<anonymous>)" +:+ newline +:+
  "    at promise.then (/srv/guardian/dist/instrumentation/unawaitedPromiseDetector.js:137:18)"
  +:+ newline +:+
  "    at new GuardianPromise (/srv/guardian/dist/instrumentation/unawaitedPromiseDetector.js:159:17)"
  +:+ newline +:+
  "    at handleRequest (/app/src/server.js:42:7)".

(** The stack inside the patched [Promise] constructor of the unawaited-task
    detector for a promise that the dashboard of the installed monitor
    constructs when the application starts it. *)
Definition dashboardCreation : string :=
  "Error" +:+ newline +:+
  "    at new GuardianPromise (/app/node_modules/async-guardian/dist/instrumentation/unawaitedPromiseDetector.js:85:21)"
  +:+ newline +:+
  "    at DashboardServer.start (/app/node_modules/async-guardian/dist/dashboard/server.js:41:12)"
  +:+ newline +:+
  "    at bootstrap (/app/src/main.js:9:20)".

(** The same when the monitor runs from its build directory. *)
Definition builtDashboardCreation : string :=
  "Error" +:+ newline +:+
  "    at new GuardianPromise (/srv/guardian/dist/instrumentation/unawaitedPromiseDetector.js:85:21)"
  +:+ newline +:+
  "    at DashboardServer.start (/srv/guardian/dist/dashboard/server.js:41:12)"
  +:+ newline +:+
  "    at bootstrap (/app/src/main.js:9:20)".

(** The frames that belong to the hook of the task tracker and to the
    patched constructor of the detector, by their paths. *)
Definition trackerHook : list string := ["promiseTracker"; "node:internal"].
Definition detectorHook : list string := ["unawaitedPromiseDetector"; "node:internal"].

End Samples.

(** * Properties *)

(** ** JavaScript helpers *)

Example showZ_examples :
  JS.showZ 0 = "0" /\ JS.showZ 42 = "42" /\ JS.showZ (-7) = "-7".
Proof. repeat split. Qed.

Example splitLines_example :
  JS.splitLines ("Error" +:+ String "010"%char "  at f (a.js:1:2)")
  = ["Error"; "  at f (a.js:1:2)"].
Proof. reflexivity. Qed.

Example trim_example : JS.trim "  at f  " = "at f".
Proof. reflexivity. Qed.

(** A no-break space in front and a line separator behind are removed too. *)
Example trim_unicode :
  JS.trim (String "194" (String "160" " at f")
           +:+ String "226" (String "128" (String "168" " ")))
  = "at f".
Proof. reflexivity. Qed.

Example sortBy_stable :
  JS.sortBy (fun a b : Z * nat => fst a - fst b)
            [(3, 0%nat); (1, 1%nat); (3, 2%nat); (1, 3%nat)]
  = [(1, 1%nat); (1, 3%nat); (3, 0%nat); (3, 2%nat)].
Proof. reflexivity. Qed.

Lemma to_int_not_nil (z : Z) :
  Z.to_int z <> Decimal.Pos Decimal.Nil /\ Z.to_int z <> Decimal.Neg Decimal.Nil.
Proof.
  destruct z as [|p|p]; simpl; split; try discriminate;
    intros [= E]; revert E; apply DecimalPos.Unsigned.to_uint_nonnil.
Qed.

(** Rendering an integer and reading it back gives the integer. *)
Lemma parseInt_showZ (z : Z) : JS.parseInt (JS.showZ z) = Some z.
Proof.
  unfold JS.parseInt, JS.showZ.
  destruct (to_int_not_nil z) as [H1 H2].
  rewrite NilZero.isi by assumption.
  simpl. now rewrite DecimalZ.of_to.
Qed.

Lemma holdsFrom_spec (p : Z -> bool) (fuel : nat) :
  forall n, JS.holdsFrom p n fuel = true ->
  forall m, n <= m < n + Z.of_nat fuel -> p m = true.
Proof.
  induction fuel as [|fuel IH]; intros n H m Hm; [lia|].
  simpl in H. apply andb_prop in H as [Hn Hrest].
  destruct (Z.eq_dec m n) as [->|Hne]; [assumption|].
  apply (IH (n + 1) Hrest). lia.
Qed.

(** The floor of the binary64 product agrees with integer division on every
    length the monitors can meet; checked by evaluation. *)
Lemma floorMul_fifth (n : Z) :
  0 <= n <= 100000 -> JS.floorMul n PromiseTracker.fifth = n / 5.
Proof.
  intros Hn.
  assert (H : JS.holdsFrom (fun k => JS.floorMul k PromiseTracker.fifth =? k / 5)
                           0 (Z.to_nat 100001) = true) by (vm_compute; reflexivity).
  apply Z.eqb_eq. apply (holdsFrom_spec _ _ _ H). lia.
Qed.

Lemma floorMul_percentiles (n : Z) :
  0 <= n <= 1000 ->
  JS.floorMul n CustomMetrics.c050 = n * 50 / 100 /\
  JS.floorMul n CustomMetrics.c095 = n * 95 / 100 /\
  JS.floorMul n CustomMetrics.c099 = n * 99 / 100.
Proof.
  intros Hn.
  assert (H : JS.holdsFrom
                (fun k => (JS.floorMul k CustomMetrics.c050 =? k * 50 / 100)
                          && (JS.floorMul k CustomMetrics.c095 =? k * 95 / 100)
                          && (JS.floorMul k CustomMetrics.c099 =? k * 99 / 100))%bool
                0 (Z.to_nat 1001) = true) by (vm_compute; reflexivity).
  pose proof (holdsFrom_spec _ _ _ H n ltac:(lia)) as Hk. simpl in Hk.
  apply andb_prop in Hk as [Hk H99]. apply andb_prop in Hk as [H50 H95].
  repeat split; now apply Z.eqb_eq.
Qed.

(** ** Health checker *)

Section HealthCheckerFacts.
Import HealthChecker.

(** The comparison of the heap size in megabytes is a comparison of bytes. *)
Lemma Qgtb_memoryMB (heapUsed n : Z) :
  Qgtb (memoryMB heapUsed) (n # 1) = (heapUsed >? n * 1048576).
Proof.
  unfold Qgtb, memoryMB, Qle_bool. simpl.
  rewrite Z.gtb_ltb, Z.ltb_antisym. f_equal. f_equal. lia.
Qed.

(** The loop over the monitors: any monitor above 10 errors gives
    [unhealthy]; otherwise any monitor above 3 gives [degraded]. *)
Lemma monitorLoop_spec (ms : list (string * MonitorHealth)) (s : Status) :
  monitorLoop ms s =
    if existsb (fun e => mh_errors (snd e) >? 10) ms then unhealthy
    else if existsb (fun e => mh_errors (snd e) >? 3) ms then degraded
    else s.
Proof.
  revert s. induction ms as [|[n h] ms IH]; intros s; simpl; [reflexivity|].
  destruct (mh_errors h >? 10) eqn:E10; simpl; [reflexivity|].
  destruct (mh_errors h >? 3) eqn:E3; simpl; rewrite IH;
    (destruct (existsb _ ms); [reflexivity|]);
    destruct (existsb _ ms); reflexivity.
Qed.

(** What [getHealth] returns as status, by the size of the heap. *)
Lemma getHealth_status (c : Checker) (heapUsed now now' : Z) :
  status (getHealth c heapUsed now now') =
    if heapUsed >? 200 * 1048576 then unhealthy
    else if heapUsed >? 100 * 1048576 then degraded
    else monitorLoop (monitorHealth c) healthy.
Proof.
  unfold getHealth, memoryChecks; simpl.
  rewrite !Qgtb_memoryMB.
  destruct (heapUsed >? 200 * 1048576), (heapUsed >? 100 * 1048576); reflexivity.
Qed.

(** [getHealth] follows the derivation rule except when a monitor is above 10
    errors while the heap lies between 100 MB and 200 MB. *)
Lemma getHealth_follows_rule (c : Checker) (heapUsed now now' : Z) :
  ~ (monitorLoop (monitorHealth c) healthy = unhealthy /\
     100 * 1048576 < heapUsed <= 200 * 1048576) ->
  status (getHealth c heapUsed now now') =
    worse (monitorLoop (monitorHealth c) healthy) (heapStatus (memoryMB heapUsed)).
Proof.
  intros H. rewrite getHealth_status. unfold heapStatus.
  rewrite !Qgtb_memoryMB.
  destruct (heapUsed >? 200 * 1048576) eqn:E2.
  - now destruct (monitorLoop _ _).
  - destruct (heapUsed >? 100 * 1048576) eqn:E1.
    + destruct (monitorLoop _ _) eqn:EM; try reflexivity.
      exfalso. apply H. split; [reflexivity|]. lia.
    + now destruct (monitorLoop _ _).
Qed.

(** In that case the worse status of the monitors is overwritten. *)
Lemma getHealth_masks_monitors (c : Checker) (heapUsed now now' : Z) :
  100 * 1048576 < heapUsed <= 200 * 1048576 ->
  status (getHealth c heapUsed now now') = degraded.
Proof.
  intros H. rewrite getHealth_status.
  destruct (heapUsed >? 200 * 1048576) eqn:E2; [lia|].
  destruct (heapUsed >? 100 * 1048576) eqn:E1; [reflexivity|lia].
Qed.

(** C1.  Eleven failed checks of one monitor leave it with 11 consecutive
    errors; with 150 MB of heap in use [getHealth] then answers [degraded],
    where the derivation rule (a monitor above 10 errors makes the status
    unhealthy, the heap never improves it) gives [unhealthy]. *)
Theorem getHealth_monitor_failure_masked_by_heap :
  let c := Nat.iter 11 (fun c => recordMonitorCheck c "memory" false 5) (create 0) in
  let heapUsed := 150 * 1048576 in
  option_map mh_errors (JS.mapGet "memory" (monitorHealth c)) = Some 11 /\
  status (getHealth c heapUsed 10 10) = degraded /\
  worse (monitorLoop (monitorHealth c) healthy) (heapStatus (memoryMB heapUsed))
    = unhealthy.
Proof. vm_compute. repeat split. Qed.

End HealthCheckerFacts.

(** ** Event store *)

Section EventStoreFacts.
Import EventStore.

Lemma idNumber_eventId (n : Z) : idNumber (eventId n) = Some n.
Proof. unfold eventId. simpl. apply parseInt_showZ. Qed.

Lemma typeName_inj (a b : EventType) : typeName a = typeName b -> a = b.
Proof. destruct a, b; simpl; intros H; try reflexivity; discriminate H. Qed.

Lemma severityName_inj (a b : Severity) : severityName a = severityName b -> a = b.
Proof. destruct a, b; simpl; intros H; try reflexivity; discriminate H. Qed.

(** *** Listeners *)

Lemma callListeners_all (ls : list Listener) (ev : GuardianEvent) :
  forallb (fun l => l_returns l ev) ls = true ->
  callListeners ls ev = (map l_id ls, Returned).
Proof.
  induction ls as [|l ls IH]; simpl; [reflexivity|].
  intros H. apply andb_prop in H as [Hl Hls].
  rewrite Hl, (IH Hls). reflexivity.
Qed.

Lemma callListeners_first_throw (before after : list Listener) (l : Listener)
    (ev : GuardianEvent) :
  forallb (fun l => l_returns l ev) before = true ->
  l_returns l ev = false ->
  callListeners (before ++ l :: after) ev
  = (map l_id before ++ [l_id l], Threw (l_id l)).
Proof.
  induction before as [|b before IH]; simpl.
  - intros _ ->. reflexivity.
  - intros H Hl. apply andb_prop in H as [Hb Hbs].
    rewrite Hb, (IH Hbs Hl). reflexivity.
Qed.

Lemma callListeners_app (xs ys : list Listener) (ev : GuardianEvent) :
  callListeners (xs ++ ys) ev =
    match callListeners xs ev with
    | (called, Threw l) => (called, Threw l)
    | (called, Returned) =>
        let '(called', out) := callListeners ys ev in (called ++ called', out)
    end.
Proof.
  induction xs as [|x xs IH]; simpl.
  - now destruct (callListeners ys ev).
  - destruct (l_returns x ev); [|reflexivity].
    rewrite IH. destruct (callListeners xs ev) as [c [|l]]; [|reflexivity].
    now destruct (callListeners ys ev).
Qed.

(** The store and the event do not depend on the listeners. *)
Lemma emit_store (st : Store) now t d o :
  r_event (emit st now t d o) = newEvent st now t d o /\
  r_store (emit st now t d o) =
    mkStore (let pushed := events st ++ [newEvent st now t d o] in
             if Z.of_nat (length pushed) >? maxEvents then tl pushed else pushed)
            (eventCounter st + 1) (eventEmitter st).
Proof.
  unfold emit.
  destruct (callListeners (listenersOf _ "event") _) as [c [|l]]; [|now split].
  destruct (callListeners (listenersOf _ (typeName t)) _). now split.
Qed.

(** The two channels behave as one list: the listeners of ["event"] followed
    by those of the event's type. *)
Lemma emit_calls (st : Store) now t d o :
  (r_called (emit st now t d o), r_outcome (emit st now t d o)) =
  callListeners (listenersOf st "event" ++ listenersOf st (typeName t))
                (newEvent st now t d o).
Proof.
  rewrite callListeners_app. unfold emit, listenersOf; simpl.
  destruct (callListeners (default [] (eventEmitter st !! "event")) _) as [c [|l]];
    [|reflexivity].
  now destruct (callListeners (default [] (eventEmitter st !! typeName t)) _).
Qed.

Lemma emit_appends (st : Store) now t d o :
  exists older,
    events (r_store (emit st now t d o)) = older ++ [newEvent st now t d o].
Proof.
  destruct (emit_store st now t d o) as [_ ->]. simpl.
  destruct (Z.of_nat _ >? maxEvents) eqn:E.
  - destruct (events st) as [|e es] eqn:Ees.
    + vm_compute in E. discriminate E.
    + exists es. reflexivity.
  - now exists (events st).
Qed.

(** C2 (as the code has it).  [emit] stores the event, then calls the
    listeners of the ["event"] channel followed by those of the event's type,
    each channel in subscription order.  When every listener returns, all of
    them are called and [emit] returns.  When one throws, the listeners after
    it are not called and the exception leaves [emit]. *)
Theorem emit_calls_listeners_until_first_throw (st : Store) now t d o :
  let r := emit st now t d o in
  let ev := newEvent st now t d o in
  let subs := listenersOf st "event" ++ listenersOf st (typeName t) in
  r_event r = ev /\
  (exists older, events (r_store r) = older ++ [ev]) /\
  (forallb (fun l => l_returns l ev) subs = true ->
   r_called r = map l_id subs /\ r_outcome r = Returned) /\
  (forall before l after,
     subs = before ++ l :: after ->
     forallb (fun l => l_returns l ev) before = true ->
     l_returns l ev = false ->
     r_called r = map l_id before ++ [l_id l] /\ r_outcome r = Threw (l_id l)).
Proof.
  intros r ev subs. subst r.
  split; [apply emit_store|]. split; [apply emit_appends|].
  pose proof (emit_calls st now t d o) as H. fold ev subs in H.
  split.
  - intros Hall. rewrite (callListeners_all _ _ Hall) in H. now inversion H.
  - intros before l after Hsubs Hbefore Hl.
    rewrite Hsubs, (callListeners_first_throw _ _ _ _ Hbefore Hl) in H.
    now inversion H.
Qed.

(** A store with three listeners; the second one always throws. *)
Lemma emit_calls_listeners_until_first_throw_witness :
  let st :=
    on (on (on initial "event" (mkListener 1 (fun _ => true)))
           "event" (mkListener 2 (fun _ => false)))
       "MEMORY_LEAK" (mkListener 3 (fun _ => true)) in
  let r := emit st 1000 MEMORY_LEAK (mkPayload None None) noOptions in
  r_called r = [1%nat; 2%nat] /\ r_outcome r = Threw 2.
Proof.
  intros st r.
  destruct (emit_calls_listeners_until_first_throw
              st 1000 MEMORY_LEAK (mkPayload None None) noOptions)
    as (_ & _ & _ & H).
  exact (H [mkListener 1 (fun _ => true)] (mkListener 2 (fun _ => false))
           [mkListener 3 (fun _ => true)] eq_refl eq_refl eq_refl).
Defined.

(** C2 fails as stated: of two subscribers the first throws; the second is
    never called and the exception reaches the caller of [emit]. *)
Lemma emit_throwing_listener_stops_the_rest :
  let st :=
    on (on initial "event" (mkListener 1 (fun _ => false)))
       "event" (mkListener 2 (fun _ => true)) in
  let r := emit st 1000 SYSTEM_INFO (mkPayload None None) noOptions in
  map l_id (listenersOf st "event") = [1%nat; 2%nat] /\
  r_called r = [1%nat] /\
  r_outcome r = Threw 1.
Proof. vm_compute. repeat split. Qed.

(** *** Event ids *)

Lemma emitAll_ids (cs : list EmitCall) :
  forall (st : Store) (i : nat) (e : GuardianEvent),
    nth_error (snd (emitAll st cs)) i = Some e ->
    id e = eventId (eventCounter st + 1 + Z.of_nat i).
Proof.
  induction cs as [|c cs IH]; intros st i e; simpl.
  - now destruct i.
  - destruct (emitAll (r_store (emitCall st c)) cs) as [st' evs] eqn:E.
    simpl. destruct i as [|i]; simpl.
    + intros [= <-]. unfold emitCall.
      destruct (emit_store st (c_now c) (c_type c) (c_data c) (c_options c)) as [-> _].
      simpl. f_equal. lia.
    + intros H. specialize (IH (r_store (emitCall st c)) i e).
      rewrite E in IH. rewrite (IH H). unfold emitCall.
      destruct (emit_store st (c_now c) (c_type c) (c_data c) (c_options c)) as [_ ->].
      simpl. f_equal. lia.
Qed.

(** C5 (as the code has it).  In a run of [emit] calls with no [clear] in
    between, a later event carries a strictly greater id number than an
    earlier one.  [clear] sets the counter back to zero: the first event after
    it is [evt_1] again. *)
Theorem ids_increase_between_clears (st : Store) (cs : list EmitCall) :
  let evs := snd (emitAll st cs) in
  (forall i j e1 e2,
     (i < j)%nat -> nth_error evs i = Some e1 -> nth_error evs j = Some e2 ->
     idBefore e1 e2) /\
  (forall now t d o, id (r_event (emit (clear st) now t d o)) = "evt_1").
Proof.
  intros evs. split.
  - intros i j e1 e2 Hij H1 H2.
    apply emitAll_ids in H1, H2.
    exists (eventCounter st + 1 + Z.of_nat i), (eventCounter st + 1 + Z.of_nat j).
    rewrite H1, H2, !idNumber_eventId. repeat split. lia.
  - intros now t d o.
    destruct (emit_store (clear st) now t d o) as [-> _]. reflexivity.
Qed.

Lemma ids_increase_between_clears_witness :
  let c := mkCall 7 SYSTEM_INFO (mkPayload None None) noOptions in
  let r1 := emitCall initial c in
  let r2 := emitCall (r_store r1) c in
  let r3 := emitCall (r_store r2) c in
  idBefore (r_event r1) (r_event r3).
Proof.
  intros c r1 r2 r3.
  destruct (ids_increase_between_clears initial [c; c; c]) as [H _].
  apply (H 0%nat 2%nat (r_event r1) (r_event r3)); [lia|reflexivity|reflexivity].
Defined.

(** C5 fails as stated: the event emitted after a [clear] has the id of the
    event emitted before it. *)
Lemma ids_repeat_after_clear :
  let p := mkPayload None None in
  let r1 := emit initial 1 SYSTEM_INFO p noOptions in
  let r2 := emit (clear (r_store r1)) 2 SYSTEM_INFO p noOptions in
  id (r_event r1) = "evt_1" /\ id (r_event r2) = "evt_1" /\
  ~ idBefore (r_event r1) (r_event r2).
Proof.
  split; [reflexivity|]. split; [reflexivity|].
  intros (n1 & n2 & H1 & H2 & Hlt).
  vm_compute in H1, H2. inversion H1. inversion H2. lia.
Qed.

(** *** Statistics *)

Lemma bump_fold_lookup {A : Type} (f : A -> string) (k : string) (l : list A) :
  forall acc : gmap string Z,
    fold_left (fun acc e => bump (f e) acc) l acc !! k =
      match length (List.filter (fun e => bool_decide (f e = k)) l) with
      | O => acc !! k
      | S n => Some (default 0 (acc !! k) + Z.of_nat (S n))
      end.
Proof.
  induction l as [|e l IH]; intros acc; simpl; [reflexivity|].
  rewrite IH. unfold bump.
  destruct (bool_decide (f e = k)) eqn:E.
  - apply bool_decide_eq_true in E. subst k. simpl.
    rewrite lookup_insert_eq. simpl.
    destruct (length _); f_equal; lia.
  - apply bool_decide_eq_false in E.
    rewrite lookup_insert_ne by assumption. reflexivity.
Qed.

Lemma filter_length_ext {A : Type} (p q : A -> bool) (l : list A) :
  (forall x, p x = q x) -> length (List.filter p l) = length (List.filter q l).
Proof. intros H. now rewrite (List.filter_ext p q H). Qed.

(** The counts of [getEventStats] are counts over the stored events. *)
Lemma getEventStats_counts (st : Store) :
  total (getEventStats st) = Z.of_nat (length (events st)) /\
  (forall t, byType (getEventStats st) !! typeName t =
     entryFor (length (List.filter (fun e => bool_decide (type e = t)) (events st)))) /\
  (forall s, bySeverity (getEventStats st) !! severityName s =
     entryFor (length (List.filter (fun e => bool_decide (severity e = s)) (events st)))).
Proof.
  split; [reflexivity|]. split.
  - intros t. unfold getEventStats; simpl.
    rewrite (bump_fold_lookup (fun e => typeName (type e))).
    rewrite (filter_length_ext _ (fun e => bool_decide (type e = t))).
    + rewrite lookup_empty. now destruct (length _).
    + intros e. apply bool_decide_ext. split; [apply typeName_inj|congruence].
  - intros s. unfold getEventStats; simpl.
    rewrite (bump_fold_lookup (fun e => severityName (severity e))).
    rewrite (filter_length_ext _ (fun e => bool_decide (severity e = s))).
    + rewrite lookup_empty. now destruct (length _).
    + intros e. apply bool_decide_ext. split; [apply severityName_inj|congruence].
Qed.

Lemma tl_skipn {A : Type} (k : nat) (l : list A) : tl (skipn k l) = skipn (S k) l.
Proof.
  revert l. induction k as [|k IH]; intros [|x l]; try reflexivity.
  exact (IH l).
Qed.

Lemma capacity_spec : Z.of_nat capacity = maxEvents.
Proof. reflexivity. Qed.

(** One [emit] keeps the most recent [maxEvents] events. *)
Lemma emit_keeps_most_recent (st : Store) (all : list GuardianEvent) now t d o :
  events st = skipn (length all - capacity) all ->
  events (r_store (emit st now t d o))
  = skipn (length (all ++ [newEvent st now t d o]) - capacity)
          (all ++ [newEvent st now t d o]).
Proof.
  intros H. destruct (emit_store st now t d o) as [_ ->]. simpl.
  set (ev := newEvent st now t d o).
  assert (Hlen : length (events st) = (length all - (length all - capacity))%nat)
    by (rewrite H; apply length_skipn).
  rewrite length_app in *. simpl. rewrite <- capacity_spec.
  generalize dependent capacity. intros cap H Hlen.
  destruct (Z.of_nat (length (events st) + 1) >? Z.of_nat cap) eqn:E.
  - apply Z.gtb_lt in E.
    assert (cap <= length all)%nat by lia.
    rewrite H. rewrite <- (drop_app_le all [ev]) by lia.
    rewrite tl_skipn, length_app. f_equal. simpl. lia.
  - rewrite Z.gtb_ltb in E. apply Z.ltb_ge in E.
    assert (length all < cap)%nat by lia.
    replace (length all - cap)%nat with 0%nat in H by lia.
    rewrite length_app. simpl.
    replace (length all + 1 - cap)%nat with 0%nat by lia.
    simpl in *. now rewrite H.
Qed.

Lemma emitAll_keeps_most_recent (cs : list EmitCall) :
  forall (st : Store) (all : list GuardianEvent),
    events st = skipn (length all - capacity) all ->
    events (fst (emitAll st cs))
    = skipn (length (all ++ snd (emitAll st cs)) - capacity)
            (all ++ snd (emitAll st cs)).
Proof.
  induction cs as [|c cs IH]; intros st all H; simpl.
  - now rewrite app_nil_r.
  - destruct (emitAll (r_store (emitCall st c)) cs) as [st' evs] eqn:E. simpl.
    pose proof (emit_keeps_most_recent st all (c_now c) (c_type c) (c_data c)
                  (c_options c) H) as H1.
    specialize (IH (r_store (emitCall st c)) _ H1). rewrite E in IH. simpl in IH.
    unfold emitCall at 1 2.
    destruct (emit_store st (c_now c) (c_type c) (c_data c) (c_options c)) as [-> _].
    now rewrite <- app_assoc in IH.
Qed.

Lemma emitAll_length (cs : list EmitCall) (st : Store) :
  length (snd (emitAll st cs)) = length cs.
Proof.
  revert st. induction cs as [|c cs IH]; intros st; simpl; [reflexivity|].
  specialize (IH (r_store (emitCall st c))).
  destruct (emitAll (r_store (emitCall st c)) cs). simpl in *. now rewrite IH.
Qed.

(** C10.  After any run of [emit] calls on a store that holds at most 10 000
    events, the store retains the most recent 10 000 of the events stored and
    emitted; [getEventStats().total] is the number of retained events, so it
    stays at 10 000 once that many have been emitted, and the counts by type
    and by severity are counts over the retained events only. *)
Theorem getEventStats_covers_retained_events (st : Store) (cs : list EmitCall) :
  Z.of_nat (length (events st)) <= maxEvents ->
  let st' := fst (emitAll st cs) in
  let all := events st ++ snd (emitAll st cs) in
  events st' = skipn (length all - capacity) all /\
  total (getEventStats st') = Z.of_nat (length (events st')) /\
  total (getEventStats st')
    = Z.min (Z.of_nat (length (events st)) + Z.of_nat (length cs)) maxEvents /\
  (forall t, byType (getEventStats st') !! typeName t =
     entryFor (length (List.filter (fun e => bool_decide (type e = t)) (events st')))) /\
  (forall s, bySeverity (getEventStats st') !! severityName s =
     entryFor (length (List.filter (fun e => bool_decide (severity e = s)) (events st')))).
Proof.
  intros Hcap st' all. rewrite <- capacity_spec in *.
  assert (Hev : events st' = skipn (length all - capacity) all).
  { apply emitAll_keeps_most_recent.
    replace (length (events st) - capacity)%nat with 0%nat by lia. reflexivity. }
  destruct (getEventStats_counts st') as (Ht & Hty & Hsev).
  repeat split; try assumption.
  rewrite Ht, Hev, length_skipn. subst all.
  rewrite length_app, emitAll_length. lia.
Qed.

Lemma getEventStats_covers_retained_events_witness :
  let c := mkCall 7 MEMORY_LEAK (mkPayload None None) noOptions in
  total (getEventStats (fst (emitAll initial [c; c]))) = 2.
Proof.
  intros c.
  destruct (getEventStats_covers_retained_events initial [c; c]) as (_ & _ & H & _).
  - discriminate.
  - exact H.
Defined.

End EventStoreFacts.

(** ** Alert router *)

Section AlertRouterFacts.
Import EventStore AlertRouter.

(** An event whose key was recorded less than five minutes ago is dropped
    before any route is looked at. *)
Lemma route_drops_recent (r : Router) (now lastSent : Z) (ev : GuardianEvent) :
  deduplicationCache r !! getEventKey ev = Some lastSent ->
  lastSent <> 0 -> now - lastSent < 300000 ->
  route r now ev = mkRouteResult r now [].
Proof.
  intros Hc Hnz Hlt. unfold route, recentlySent. rewrite Hc.
  destruct (lastSent =? 0) eqn:E0; [lia|].
  destruct (now - lastSent <? 300000) eqn:E; [reflexivity|lia].
Qed.

Lemma route_routes (r : Router) (now : Z) (ev : GuardianEvent) :
  routes (rr_router (route r now ev)) = routes r.
Proof.
  unfold route. destruct (recentlySent _ _ _); [reflexivity|].
  now destruct (routeLoop _ _ _ _ _ _) as [[[? ?] ?] ?].
Qed.

(** The three ways a route is passed over (disabled, filtered out, rate
    limited) leave the goal to [skip], a filter that throws leaves it to
    [stop]; what remains is the case where the handler is invoked, with
    [counts1] the windows after the rate-limit check. *)
Ltac route_guards r ev counts clock counts1 skip stop :=
  destruct (negb (truthy (enabled r))); [skip|];
  destruct (accepts r ev) as [[|]|]; [|skip|stop];
  let allowed := fresh "allowed" in
  destruct (match rateLimit r with
            | Some limit => checkRateLimit counts (name r) limit clock
            | None => (true, counts)
            end) as [allowed counts1];
  destruct allowed; simpl; [|skip].

(** What one pass over the routes does to the clock, the cache and the
    trace. *)
Lemma routeLoop_spec (rs : list AlertRoute) :
  forall (i : nat) (ev : GuardianEvent) (counts : gmap string Counts)
         (cache : gmap string Z) (clock : Z),
    (forall x, In x rs -> forall e t, t <= hr_done (handler x e t)) ->
    match routeLoop rs i ev counts cache clock with
    | (_, cache', clock', ds) =>
        clock <= clock' /\
        (forall k, k <> getEventKey ev -> cache' !! k = cache !! k) /\
        Forall (fun d => d_key d = getEventKey ev /\
                         clock <= d_start d <= clock' /\ (i <= d_route d)%nat) ds /\
        ((cache' !! getEventKey ev = cache !! getEventKey ev /\
          Forall (fun d => d_ok d = false) ds) \/
         (exists c, cache' !! getEventKey ev = Some c /\ clock <= c <= clock' /\
                    Forall (fun d => d_ok d = true -> d_start d <= c) ds))
    end.
Proof.
  induction rs as [|r rs IH]; intros i ev counts cache clock Htime; simpl.
  - repeat split; try lia; auto.
  - assert (Hrest : forall x, In x rs -> forall e t, t <= hr_done (handler x e t))
      by (intros x Hx; apply Htime; now right).
    assert (Hweak : forall counts0,
      match routeLoop rs (S i) ev counts0 cache clock with
      | (_, cache', clock', ds) =>
        clock <= clock' /\
        (forall k, k <> getEventKey ev -> cache' !! k = cache !! k) /\
        Forall (fun d => d_key d = getEventKey ev /\
                         clock <= d_start d <= clock' /\ (i <= d_route d)%nat) ds /\
        ((cache' !! getEventKey ev = cache !! getEventKey ev /\
          Forall (fun d => d_ok d = false) ds) \/
         (exists c, cache' !! getEventKey ev = Some c /\ clock <= c <= clock' /\
                    Forall (fun d => d_ok d = true -> d_start d <= c) ds))
      end).
    { intros counts0. specialize (IH (S i) ev counts0 cache clock Hrest).
      destruct (routeLoop rs (S i) ev counts0 cache clock) as [[[c1 cache1] clock1] ds1].
      destruct IH as (H1 & H2 & H3 & H4). repeat split; try assumption.
      eapply List.Forall_impl; [|exact H3]. simpl. intros d (? & ? & ?).
      repeat split; try assumption; lia. }
    route_guards r ev counts clock counts1 ltac:(apply Hweak)
                 ltac:(simpl; repeat split; try lia; auto).
    pose proof (Htime r (or_introl eq_refl) ev clock) as Hdone.
    set (res := handler r ev clock) in *.
    set (cache1 := if hr_ok res then <[getEventKey ev := hr_done res]> cache else cache).
    specialize (IH (S i) ev counts1 cache1 (hr_done res) Hrest).
    destruct (routeLoop rs (S i) ev counts1 cache1 (hr_done res))
      as [[[c2 cache2] clock2] ds2].
    destruct IH as (H1 & H2 & H3 & H4).
    split; [lia|]. split.
    { intros k Hk. rewrite (H2 k Hk). subst cache1.
      destruct (hr_ok res); [now rewrite lookup_insert_ne|reflexivity]. }
    split.
    { constructor; simpl.
      - repeat split; lia.
      - eapply List.Forall_impl; [|exact H3]. simpl. intros d (? & ? & ?).
        repeat split; try assumption; lia. }
    destruct H4 as [[Hsame Hfail] | (c & Hc & Hcb & Hle)].
    + destruct (hr_ok res) eqn:Eok.
      * right. exists (hr_done res). split.
        { rewrite Hsame. subst cache1. simpl. apply lookup_insert_eq. }
        split; [lia|]. constructor; simpl; [lia|].
        eapply List.Forall_impl; [|exact Hfail]. simpl. intros d Hd Hd'. congruence.
      * left. split.
        { rewrite Hsame. subst cache1. reflexivity. }
        constructor; simpl; [reflexivity|assumption].
    + right. exists c. split; [assumption|]. split; [lia|].
      constructor; simpl; [lia|assumption].
Qed.

(** Within one pass every route is invoked at most once. *)
Lemma routeLoop_apart (rs : list AlertRoute) :
  forall (i : nat) (ev : GuardianEvent) (counts : gmap string Counts)
         (cache : gmap string Z) (clock : Z),
    (forall x, In x rs -> forall e t, t <= hr_done (handler x e t)) ->
    StronglySorted apart (snd (routeLoop rs i ev counts cache clock)).
Proof.
  induction rs as [|r rs IH]; intros i ev counts cache clock Htime; simpl.
  - constructor.
  - assert (Hrest : forall x, In x rs -> forall e t, t <= hr_done (handler x e t))
      by (intros x Hx; apply Htime; now right).
    route_guards r ev counts clock counts1 ltac:(now apply IH)
                 ltac:(simpl; constructor).
    set (res := handler r ev clock).
    set (cache1 := if hr_ok res then <[getEventKey ev := hr_done res]> cache else cache).
    pose proof (IH (S i) ev counts1 cache1 (hr_done res) Hrest) as Hs.
    pose proof (routeLoop_spec rs (S i) ev counts1 cache1 (hr_done res) Hrest) as Hspec.
    destruct (routeLoop rs (S i) ev counts1 cache1 (hr_done res))
      as [[[c2 cache2] clock2] ds2].
    simpl in *. destruct Hspec as (_ & _ & H3 & _).
    constructor; [assumption|].
    eapply List.Forall_impl; [|exact H3]. simpl.
    intros d (_ & _ & Hi) _ Hr. simpl in Hr. lia.
Qed.

(** One awaited call keeps the trace spaced. *)
Lemma route_step (r : Router) (T now : Z) (ev : GuardianEvent) (log : list Dispatch) :
  handlersTakeTime r -> 0 < T -> T <= now ->
  recorded (deduplicationCache r) T log -> StronglySorted apart log ->
  let res := route r now ev in
  recorded (deduplicationCache (rr_router res)) (rr_clock res)
           (log ++ rr_dispatches res) /\
  StronglySorted apart (log ++ rr_dispatches res) /\
  now <= rr_clock res.
Proof.
  intros Htime HT Hnow [Hpos Hlog] Hsorted. unfold route.
  destruct (recentlySent (deduplicationCache r) (getEventKey ev) now) eqn:Erecent; simpl.
  - rewrite app_nil_r. repeat split; try assumption; try lia.
    eapply List.Forall_impl; [|exact Hlog]. simpl. intros d [? ?]. split; [lia|assumption].
  - pose proof (routeLoop_spec (routes r) 0 ev (alertCounts r) (deduplicationCache r)
                  now Htime) as Hspec.
    pose proof (routeLoop_apart (routes r) 0 ev (alertCounts r) (deduplicationCache r)
                  now Htime) as Hds.
    destruct (routeLoop (routes r) 0 ev (alertCounts r) (deduplicationCache r) now)
      as [[[counts' cache'] clock'] ds].
    simpl in *. destruct Hspec as (Hclock & Hother & Hall & Hkey).
    assert (Hpos' : forall k c, cache' !! k = Some c -> 0 < c).
    { intros k c Hk. destruct (decide (k = getEventKey ev)) as [->|Hne].
      - destruct Hkey as [[Hsame _] | (c' & Hc' & Hb & _)].
        + rewrite Hsame in Hk. now apply (Hpos _ _ Hk).
        + rewrite Hc' in Hk. inversion Hk. lia.
      - rewrite (Hother k Hne) in Hk. now apply (Hpos _ _ Hk). }
    split; [split; [exact Hpos'|]|split; [|assumption]].
    + apply Forall_app. split.
      * eapply List.Forall_impl; [|exact Hlog]. simpl. intros d [Hd Hok].
        split; [lia|]. intros Eok. destruct (Hok Eok) as (c & Hc & Hle).
        destruct (decide (d_key d = getEventKey ev)) as [Ek|Hne].
        -- destruct Hkey as [[Hsame _] | (c' & Hc' & Hb & _)].
           ++ exists c. rewrite Ek, Hsame, <- Ek. now split.
           ++ exists c'. rewrite Ek. split; [assumption|lia].
        -- exists c. rewrite (Hother _ Hne). now split.
      * destruct Hkey as [[_ Hfail] | (c' & Hc' & Hb & Hle)].
        -- rewrite Forall_forall in Hall, Hfail |- *.
           intros d Hd. destruct (Hall d Hd) as (_ & ? & _).
           split; [lia|]. rewrite (Hfail d Hd). discriminate.
        -- rewrite Forall_forall in Hall, Hle |- *.
           intros d Hd. destruct (Hall d Hd) as (Ek & ? & _).
           split; [lia|]. intros Eok. exists c'. rewrite Ek.
           split; [assumption|now apply Hle].
    + apply StronglySorted_app_2; try assumption.
      intros x1 x2 Hx1 Hx2 Ek _ Eok.
      rewrite Forall_forall in Hlog, Hall.
      destruct (Hlog x1 Hx1) as [_ Hok]. destruct (Hok Eok) as (c & Hc & Hle).
      destruct (Hall x2 Hx2) as (Ek2 & Hstart & _).
      rewrite Ek, Ek2 in Hc. unfold recentlySent in Erecent. rewrite Hc in Erecent.
      pose proof (Hpos _ _ Hc) as Hcpos.
      destruct (c =? 0) eqn:E0; [lia|]. simpl in Erecent.
      apply Z.ltb_ge in Erecent. lia.
Qed.

Lemma routeAll_apart (calls : list (Z * GuardianEvent)) :
  forall (r : Router) (T : Z) (log : list Dispatch),
    handlersTakeTime r -> 0 < T ->
    recorded (deduplicationCache r) T log -> StronglySorted apart log ->
    awaited r T calls ->
    StronglySorted apart (log ++ snd (routeAll r calls)).
Proof.
  induction calls as [|[now ev] calls IH]; intros r T log Htime HT Hrec Hs Haw; simpl.
  - now rewrite app_nil_r.
  - destruct Haw as [Hnow Haw].
    destruct (route_step r T now ev log Htime HT Hnow Hrec Hs) as (Hrec' & Hs' & Hclock).
    assert (Htime' : handlersTakeTime (rr_router (route r now ev))).
    { unfold handlersTakeTime. rewrite route_routes. exact Htime. }
    assert (HT' : 0 < rr_clock (route r now ev)) by lia.
    specialize (IH _ _ _ Htime' HT' Hrec' Hs' Haw).
    destruct (routeAll (rr_router (route r now ev)) calls) as [r' ds]. simpl in *.
    now rewrite app_assoc.
Qed.

(** *** Awaited calls in the run of overlapping calls *)

Lemma settle_idle (st : Running) (n : nat) :
  suspended st = [] -> runActions st (repeat (Settle 0) n) = st.
Proof.
  intros H. induction n as [|n IH]; [reflexivity|].
  cbn [repeat runActions fold_left step]. rewrite H. exact IH.
Qed.

(** A call that goes on from position [i] and whose handlers settle one
    after the other, with nothing in between, does what [routeLoop] says. *)
Lemma enter_settled (rs : list AlertRoute) :
  forall (i : nat) (ev : GuardianEvent) (st : Running) (clock : Z) (n : nat),
    suspended st = [] -> (length rs <= n)%nat ->
    runActions (enter st rs i ev clock) (repeat (Settle 0) n)
    = match routeLoop rs i ev (alertCounts (router st))
                      (deduplicationCache (router st)) clock with
      | (counts, cache, _, ds) =>
          mkRunning (mkRouter (routes (router st)) counts cache) [] (trace st ++ ds)
      end.
Proof.
  induction rs as [|r rs IH]; intros i ev st clock n Hs Hn.
  - unfold enter. cbn [advance routeLoop]. rewrite Hs, app_nil_r.
    now apply settle_idle.
  - cbn [length] in Hn. unfold enter. cbn [advance routeLoop].
    destruct (negb (truthy (enabled r))).
    { apply (IH (S i) ev st clock n Hs). lia. }
    destruct (accepts r ev) as [[|]|].
    + destruct (match rateLimit r with
                | Some limit => checkRateLimit (alertCounts (router st)) (name r) limit clock
                | None => (true, alertCounts (router st))
                end) as [allowed counts1].
      destruct allowed; cbn [negb].
      * destruct n as [|n]; [lia|].
        set (res := handler r ev clock).
        set (cache1 := if hr_ok res
                       then <[getEventKey ev := hr_done res]> (deduplicationCache (router st))
                       else deduplicationCache (router st)).
        pose proof (IH (S i) ev
                      (mkRunning (mkRouter (routes (router st)) counts1 cache1) []
                                 (trace st ++ [mkDispatch i (getEventKey ev) clock (hr_ok res)]))
                      (hr_done res) n eq_refl ltac:(lia)) as H.
        cbn [router suspended trace alertCounts deduplicationCache routes] in H.
        cbn [repeat runActions fold_left step suspended router trace].
        rewrite Hs. cbn [app nth_error firstn skipn s_result s_event s_rest s_index
                         routes alertCounts deduplicationCache].
        fold res. fold cache1.
        unfold runActions in H. rewrite H.
        destruct (routeLoop rs (S i) ev counts1 cache1 (hr_done res))
          as [[[c2 cache2] clock2] ds2].
        now rewrite <- app_assoc.
      * apply (IH (S i) ev
                 (mkRunning (mkRouter (routes (router st)) counts1
                                      (deduplicationCache (router st)))
                            (suspended st) (trace st))
                 clock n Hs). lia.
    + apply (IH (S i) ev st clock n Hs). lia.
    + rewrite Hs, app_nil_r. now apply settle_idle.
Qed.

(** An awaited call is a call of [route]. *)
Lemma awaitedCall_route (st : Running) (now : Z) (ev : GuardianEvent) :
  suspended st = [] ->
  runActions st (awaitedCall (router st) now ev)
  = mkRunning (rr_router (route (router st) now ev)) []
              (trace st ++ rr_dispatches (route (router st) now ev)).
Proof.
  intros Hs. unfold awaitedCall, route.
  change (runActions st (Call now ev :: ?l))
    with (runActions (step st (Call now ev)) l).
  cbn [step].
  destruct (recentlySent (deduplicationCache (router st)) (getEventKey ev) now).
  - cbn [rr_router rr_dispatches]. rewrite app_nil_r.
    rewrite (settle_idle st _ Hs). destruct st as [r su tr]. simpl in Hs. now subst su.
  - rewrite (enter_settled (routes (router st)) 0 ev st now
               (length (routes (router st))) Hs (le_n _)).
    now destruct (routeLoop (routes (router st)) 0 ev (alertCounts (router st))
                            (deduplicationCache (router st)) now)
      as [[[counts cache] clock] ds].
Qed.

Lemma awaitedCalls_routes (r r' : Router) (calls : list (Z * GuardianEvent)) :
  routes r = routes r' -> awaitedCalls r calls = awaitedCalls r' calls.
Proof.
  intros E. induction calls as [|[now ev] calls IH]; [reflexivity|].
  cbn [awaitedCalls]. unfold awaitedCall. now rewrite E, IH.
Qed.

(** A run of awaited calls is [routeAll]. *)
Lemma awaitedCalls_routeAll (calls : list (Z * GuardianEvent)) :
  forall st : Running,
    suspended st = [] ->
    runActions st (awaitedCalls (router st) calls)
    = mkRunning (fst (routeAll (router st) calls)) []
                (trace st ++ snd (routeAll (router st) calls)).
Proof.
  induction calls as [|[now ev] calls IH]; intros st Hs.
  - cbn. rewrite app_nil_r. destruct st as [r su tr]. simpl in Hs. now subst su.
  - cbn [awaitedCalls routeAll]. unfold runActions. rewrite fold_left_app.
    fold (runActions st (awaitedCall (router st) now ev)).
    rewrite (awaitedCall_route st now ev Hs).
    rewrite (awaitedCalls_routes (router st) (rr_router (route (router st) now ev)))
      by (symmetry; apply route_routes).
    pose proof (IH (mkRunning (rr_router (route (router st) now ev)) []
                              (trace st ++ rr_dispatches (route (router st) now ev)))
                   eq_refl) as H.
    cbn [router trace] in H. unfold runActions in H. rewrite H.
    destruct (routeAll (rr_router (route (router st) now ev)) calls) as [r' ds].
    cbn [fst snd]. now rewrite app_assoc.
Qed.

(** The key is read from the payload: the event's own [file] and [line] do
    not enter it. *)
Lemma getEventKey_reads_payload (e1 e2 : GuardianEvent) :
  type e1 = type e2 -> data e1 = data e2 -> getEventKey e1 = getEventKey e2.
Proof. unfold getEventKey. now intros -> ->. Qed.

(** C3 (as the code has it).  The key of an event is built from its type and
    from the [file] and [line] of its payload.  In a run of awaited [route]
    calls on a clock that does not go backwards, once a handler has settled
    normally for a key, the same route is not invoked again for that key
    until five minutes after that invocation started; an event whose key was
    recorded less than five minutes ago is dropped before any route is looked
    at.  The run of awaited calls is the run in which every call is followed
    by the settling of the handlers it awaits before the next call is made. *)
Theorem route_dispatches_once_per_window (r : Router) (clock : Z)
    (calls : list (Z * GuardianEvent)) :
  (forall k c, deduplicationCache r !! k = Some c -> 0 < c) ->
  handlersTakeTime r -> 0 < clock -> awaited r clock calls ->
  StronglySorted apart (snd (routeAll r calls)) /\
  (forall now lastSent ev,
     deduplicationCache r !! getEventKey ev = Some lastSent ->
     now - lastSent < 300000 ->
     route r now ev = mkRouteResult r now []) /\
  (forall e1 e2, type e1 = type e2 -> data e1 = data e2 ->
                 getEventKey e1 = getEventKey e2) /\
  runActions (mkRunning r [] []) (awaitedCalls r calls)
  = mkRunning (fst (routeAll r calls)) [] (snd (routeAll r calls)).
Proof.
  intros Hpos Htime Hclock Haw. split; [|split; [|split]].
  - apply (routeAll_apart calls r clock []); try assumption.
    + split; [assumption|constructor].
    + constructor.
  - intros now lastSent ev Hc Hlt.
    apply (route_drops_recent r now lastSent ev Hc); [|assumption].
    specialize (Hpos _ _ Hc). lia.
  - apply getEventKey_reads_payload.
  - exact (awaitedCalls_routeAll calls (mkRunning r [] []) eq_refl).
Qed.

Lemma route_dispatches_once_per_window_witness :
  let r :=
    addRoute empty
      (mkRoute "log" None (fun _ t => mkHandlerResult true (t + 5)) None None) in
  let e :=
    mkEvent "evt_1" MEMORY_LEAK 900 critical "unknown"
            (mkPayload (Some "/app/a.js") (Some 10)) None None None None in
  StronglySorted apart (snd (routeAll r [(1000, e); (2000, e); (400000, e)])).
Proof.
  intros r e.
  refine (proj1 (route_dispatches_once_per_window r 1
                   [(1000, e); (2000, e); (400000, e)] _ _ _ _)).
  - intros k c H. change ((∅ : gmap string Z) !! k = Some c) in H.
    rewrite lookup_empty in H. discriminate H.
  - intros x [<-|[]] ev t. simpl. lia.
  - lia.
  - vm_compute. repeat split; intros; discriminate.
Defined.

(** C3 fails as stated, in three ways.  Two events with the same type and
    the same own [file] and [line], one second apart, are both handed to the
    handler, because their payloads name different files.  Two calls of
    [route] for one and the same event, the second made ten milliseconds
    after the first while the handler of the first is still pending, both
    invoke the handler of the route, and both invocations settle normally:
    the time stamp is only written once a handler has settled.  And when the
    clock is set back by half a second while a handler is pending, the time
    stamp written is older than the invocation, and the next invocation for
    the key comes less than five minutes after the first. *)
Lemma route_dispatches_same_key_twice :
  let r :=
    addRoute empty
      (mkRoute "log" None (fun _ t => mkHandlerResult true t) None None) in
  let e1 :=
    mkEvent "evt_1" MEMORY_LEAK 1000 critical "unknown"
            (mkPayload (Some "/app/x.js") (Some 1)) None
            (Some "/app/a.js") (Some 10) None in
  let e2 :=
    mkEvent "evt_2" MEMORY_LEAK 2000 critical "unknown"
            (mkPayload (Some "/app/y.js") (Some 2)) None
            (Some "/app/a.js") (Some 10) None in
  let slow :=
    addRoute empty
      (mkRoute "log" None (fun _ t => mkHandlerResult true (t + 50)) None None) in
  let e :=
    mkEvent "evt_3" MEMORY_LEAK 1000 critical "unknown"
            (mkPayload (Some "/app/a.js") (Some 10)) None
            (Some "/app/a.js") (Some 10) None in
  (ownFieldsKey e1 = ownFieldsKey e2 /\
   map (fun d => (d_route d, d_start d, d_ok d))
       (snd (routeAll r [(1000, e1); (2000, e2)]))
   = [(0%nat, 1000, true); (0%nat, 2000, true)]) /\
  (getEventKey e = ownFieldsKey e /\
   map (fun d => (d_route d, d_key d, d_start d, d_ok d))
       (trace (runActions (mkRunning slow [] [])
                 [Call 1000 e; Call 1010 e; Settle 0; Settle 0]))
   = [(0%nat, getEventKey e, 1000, true); (0%nat, getEventKey e, 1010, true)]) /\
  (let setBack :=
     addRoute empty
       (mkRoute "log" None (fun _ t => mkHandlerResult true (t - 500)) None None) in
   map (fun d => (d_route d, d_key d, d_start d, d_ok d))
       (snd (routeAll setBack [(1000, e); (300500, e)]))
   = [(0%nat, getEventKey e, 1000, true); (0%nat, getEventKey e, 300500, true)]
   /\ 300500 - 1000 < 300000).
Proof. vm_compute. repeat split; reflexivity. Qed.

(** *** The cache of time stamps *)

Lemma routeLoop_cache (rs : list AlertRoute) :
  forall (i : nat) (ev : GuardianEvent) (counts : gmap string Counts)
         (cache : gmap string Z) (clock : Z),
    match routeLoop rs i ev counts cache clock with
    | (_, cache', _, _) =>
        (forall k, k <> getEventKey ev -> cache' !! k = cache !! k) /\
        (is_Some (cache !! getEventKey ev) -> is_Some (cache' !! getEventKey ev))
    end.
Proof.
  induction rs as [|r rs IH]; intros i ev counts cache clock; simpl.
  - now split.
  - route_guards r ev counts clock counts1 ltac:(apply IH) ltac:(now split).
    set (res := handler r ev clock).
    set (cache1 := if hr_ok res then <[getEventKey ev := hr_done res]> cache else cache).
    specialize (IH (S i) ev counts1 cache1 (hr_done res)).
    destruct (routeLoop rs (S i) ev counts1 cache1 (hr_done res))
      as [[[c2 cache2] clock2] ds2].
    destruct IH as [H1 H2]. split.
    + intros k Hk. rewrite (H1 k Hk). subst cache1.
      destruct (hr_ok res); [now rewrite lookup_insert_ne|reflexivity].
    + intros Hs. apply H2. subst cache1.
      destruct (hr_ok res); [|assumption].
      rewrite lookup_insert_eq. eauto.
Qed.

(** C7 (as the code has it).  [route] never removes an entry from the cache
    of time stamps: the entries of all other keys are left as they are,
    however old, every key present before the call is present after it, and
    at most the key of the routed event is added. *)
Theorem route_never_trims_dedup_cache (r : Router) (now : Z) (ev : GuardianEvent) :
  let r' := rr_router (route r now ev) in
  (forall k, k <> getEventKey ev ->
             deduplicationCache r' !! k = deduplicationCache r !! k) /\
  dom (deduplicationCache r) ⊆ dom (deduplicationCache r') /\
  dom (deduplicationCache r') ⊆ dom (deduplicationCache r) ∪ {[getEventKey ev]}.
Proof.
  intros r'. subst r'. unfold route.
  destruct (recentlySent _ _ _); simpl; [split; [reflexivity|set_solver]|].
  pose proof (routeLoop_cache (routes r) 0 ev (alertCounts r) (deduplicationCache r) now)
    as H.
  destruct (routeLoop (routes r) 0 ev (alertCounts r) (deduplicationCache r) now)
    as [[[counts' cache'] clock'] ds].
  simpl. destruct H as [H1 H2]. split; [exact H1|]. split.
  - intros k Hk. apply elem_of_dom in Hk. apply elem_of_dom.
    destruct (decide (k = getEventKey ev)) as [->|Hne]; [now apply H2|].
    now rewrite (H1 k Hne).
  - intros k Hk. apply elem_of_union.
    destruct (decide (k = getEventKey ev)) as [->|Hne]; [right; set_solver|].
    left. apply elem_of_dom. apply elem_of_dom in Hk. now rewrite <- (H1 k Hne).
Qed.

Lemma route_never_trims_dedup_cache_witness :
  let r :=
    addRoute empty
      (mkRoute "log" None (fun _ t => mkHandlerResult true t) None None) in
  let a :=
    mkEvent "evt_1" MEMORY_LEAK 1000 critical "unknown"
            (mkPayload (Some "/app/a.js") (Some 1)) None None None None in
  let b :=
    mkEvent "evt_2" CPU_BLOCK 700000 error "unknown"
            (mkPayload (Some "/app/b.js") (Some 2)) None None None None in
  let r1 := rr_router (route r 1000 a) in
  deduplicationCache (rr_router (route r1 700000 b)) !! getEventKey a
  = deduplicationCache r1 !! getEventKey a.
Proof.
  intros r a b r1.
  apply (proj1 (route_never_trims_dedup_cache r1 700000 b)).
  vm_compute. discriminate.
Defined.

(** C7 fails as stated: ten minutes after a key was recorded, a call of
    [route] for another key leaves the old entry in the cache. *)
Lemma route_leaves_stale_dedup_entry :
  let r :=
    addRoute empty
      (mkRoute "log" None (fun _ t => mkHandlerResult true t) None None) in
  let a :=
    mkEvent "evt_1" MEMORY_LEAK 1000 critical "unknown"
            (mkPayload (Some "/app/a.js") (Some 1)) None None None None in
  let b :=
    mkEvent "evt_2" CPU_BLOCK 700000 error "unknown"
            (mkPayload (Some "/app/b.js") (Some 2)) None None None None in
  let now := 700000 in
  let r2 := rr_router (route (rr_router (route r 1000 a)) now b) in
  deduplicationCache r2 !! getEventKey a = Some 1000 /\
  300000 < now - 1000.
Proof. vm_compute. split; reflexivity. Qed.

End AlertRouterFacts.

(** ** Sorting and ordered maps *)

Section SortFacts.
Context {A : Type} (cmp : A -> A -> Z).

Lemma insertBy_perm (x : A) (l : list A) :
  Permutation (JS.insertBy cmp x l) (x :: l).
Proof.
  induction l as [|y l IH]; simpl; [reflexivity|].
  destruct (cmp x y <? 0); [reflexivity|].
  rewrite IH. apply perm_swap.
Qed.

Lemma sortBy_from_perm (l acc : list A) :
  Permutation (fold_left (fun acc x => JS.insertBy cmp x acc) l acc) (acc ++ l).
Proof.
  revert acc. induction l as [|x l IH]; intros acc; simpl.
  - now rewrite app_nil_r.
  - rewrite IH, insertBy_perm. apply Permutation_middle.
Qed.

Lemma sortBy_perm (l : list A) : Permutation (JS.sortBy cmp l) l.
Proof. unfold JS.sortBy. now rewrite sortBy_from_perm. Qed.

Lemma sortBy_length (l : list A) : length (JS.sortBy cmp l) = length l.
Proof. apply Permutation_length, sortBy_perm. Qed.

Lemma sortBy_In (l : list A) (x : A) : In x (JS.sortBy cmp l) <-> In x l.
Proof.
  split; apply Permutation_in; [|symmetry]; apply sortBy_perm.
Qed.

End SortFacts.

Section SortByKey.
Context {A : Type} (key : A -> Z).

Let byKey (a b : A) : Z := key a - key b.
Let ordered (a b : A) : Prop := key a <= key b.

Lemma insertBy_sorted (x : A) (l : list A) :
  StronglySorted ordered l -> StronglySorted ordered (JS.insertBy byKey x l).
Proof.
  induction 1 as [|y l Hs IH Hall]; simpl.
  - repeat constructor.
  - unfold byKey at 1. destruct (key x - key y <? 0) eqn:E.
    + constructor; [now constructor|].
      constructor; [unfold ordered; lia|].
      eapply List.Forall_impl; [|exact Hall]. unfold ordered. intros a Ha. lia.
    + constructor; [exact IH|].
      rewrite Forall_forall. intros a Ha.
      apply list_elem_of_In, (Permutation_in _ (insertBy_perm byKey x l)) in Ha.
      destruct Ha as [<-|Ha]; [unfold ordered; lia|].
      rewrite Forall_forall in Hall. apply Hall. now apply list_elem_of_In.
Qed.

Lemma sortBy_from_sorted (l acc : list A) :
  StronglySorted ordered acc ->
  StronglySorted ordered (fold_left (fun acc x => JS.insertBy byKey x acc) l acc).
Proof.
  revert acc. induction l as [|x l IH]; intros acc H; simpl; [assumption|].
  apply IH, insertBy_sorted, H.
Qed.

(** The result of [sort((a, b) => key(a) - key(b))] is in ascending order. *)
Lemma sortBy_sorted (l : list A) :
  StronglySorted (fun a b => key a <= key b)
                 (JS.sortBy (fun a b => key a - key b) l).
Proof. apply sortBy_from_sorted. constructor. Qed.

End SortByKey.

Section OrderedMapFacts.
Context {K V : Type} `{EqDecision K}.
Implicit Types (m : list (K * V)) (k : K) (v : V).

Lemma mapGet_In k v m : JS.mapGet k m = Some v -> In (k, v) m.
Proof.
  induction m as [|[k' v'] m IH]; simpl; [discriminate|].
  destruct (decide (k = k')) as [->|Hne].
  - intros [= ->]. now left.
  - intros H. right. now apply IH.
Qed.

Lemma mapGet_None k m : JS.mapGet k m = None <-> ~ In k (map fst m).
Proof.
  induction m as [|[k' v'] m IH]; simpl; [tauto|].
  destruct (decide (k = k')) as [->|Hne].
  - split; [discriminate|]. intros H. exfalso. apply H. now left.
  - rewrite IH. split; [intros H [E|E]; [congruence|tauto]|tauto].
Qed.

(** [delete] removes the entries of one key and nothing else. *)
Lemma mapDelete_In k m (e : K * V) :
  In e (JS.mapDelete k m) <-> In e m /\ fst e <> k.
Proof.
  induction m as [|[k' v'] m IH]; simpl; [tauto|].
  destruct (decide (k = k')) as [->|Hne]; simpl; rewrite IH.
  - split; [tauto|]. intros [[<-|H1] H2]; [now simpl in H2|tauto].
  - split; [intros [<-|[H1 H2]]; simpl; split; auto; congruence|tauto].
Qed.

Lemma mapDelete_NoDup k m : NoDup (map fst m) -> NoDup (map fst (JS.mapDelete k m)).
Proof.
  induction m as [|[k' v'] m IH]; simpl; [trivial|].
  rewrite !NoDup_cons. intros [Hk Hm].
  destruct (decide (k = k')); simpl; [now apply IH|].
  apply NoDup_cons. split; [|now apply IH].
  rewrite list_elem_of_In, in_map_iff in Hk |- *.
  intros (e & He & Hin). apply Hk. exists e. split; [assumption|].
  now apply mapDelete_In in Hin.
Qed.

Lemma deleteAll_In (ks : list (K * V)) m (e : K * V) :
  In e (fold_left (fun m d => JS.mapDelete (fst d) m) ks m)
  <-> In e m /\ ~ In (fst e) (map fst ks).
Proof.
  revert m. induction ks as [|d ks IH]; intros m; simpl; [tauto|].
  rewrite IH, mapDelete_In. split.
  - intros [[H1 H2] H3]. split; [assumption|]. intros [E|E]; auto.
  - intros [H1 H2]. repeat split; auto.
Qed.

Lemma deleteAll_NoDup (ks : list (K * V)) m :
  NoDup (map fst m) ->
  NoDup (map fst (fold_left (fun m d => JS.mapDelete (fst d) m) ks m)).
Proof.
  revert m. induction ks as [|d ks IH]; intros m H; simpl; [assumption|].
  apply IH, mapDelete_NoDup, H.
Qed.

(** Entries with unique keys that share a key are the same entry. *)
Lemma NoDup_keys_eq m (e e' : K * V) :
  NoDup (map fst m) -> In e m -> In e' m -> fst e = fst e' -> e = e'.
Proof.
  induction m as [|x m IH]; simpl; [tauto|].
  rewrite NoDup_cons, list_elem_of_In. intros [Hx Hm] [<-|He] [<-|He'] E; auto.
  - exfalso. apply Hx. rewrite E. now apply in_map.
  - exfalso. apply Hx. rewrite <- E. now apply in_map.
Qed.

Lemma NoDup_keys_entries m : NoDup (map fst m) -> NoDup m.
Proof. apply NoDup_fmap_1. Qed.

(** Deleting the keys of [ks], a duplicate-free part of the map, removes as
    many entries as [ks] has. *)
Lemma deleteAll_length (ks : list (K * V)) m :
  NoDup (map fst m) -> NoDup ks -> (forall e, In e ks -> In e m) ->
  (length (fold_left (fun m d => JS.mapDelete (fst d) m) ks m) + length ks
   = length m)%nat.
Proof.
  intros Hm Hks Hsub.
  set (kept := fold_left (fun m d => JS.mapDelete (fst d) m) ks m).
  rewrite <- length_app. apply Permutation_length.
  apply NoDup_Permutation.
  - apply NoDup_app. split; [|split; [|exact Hks]].
    + apply NoDup_keys_entries, deleteAll_NoDup, Hm.
    + intros e He Hin. apply list_elem_of_In, deleteAll_In in He.
      destruct He as [_ He]. apply He, in_map. now apply list_elem_of_In.
  - now apply NoDup_keys_entries.
  - intros e. rewrite elem_of_app, !list_elem_of_In. subst kept.
    rewrite deleteAll_In. split.
    + intros [[H _]|H]; auto.
    + intros He.
      destruct (in_dec (fun a b => decide (a = b)) (fst e) (map fst ks)) as [Hin|Hnot].
      * right. apply in_map_iff in Hin as (d & Ed & Hd).
        rewrite (NoDup_keys_eq m e d Hm He (Hsub d Hd) (eq_sym Ed)). exact Hd.
      * left. now split.
Qed.

Lemma mapSet_fresh k v m : JS.mapGet k m = None -> JS.mapSet k v m = m ++ [(k, v)].
Proof.
  induction m as [|[k' v'] m IH]; simpl; [reflexivity|].
  destruct (decide (k = k')); [discriminate|]. intros H. now rewrite IH.
Qed.

Lemma mapSet_In k v m (e : K * V) :
  In e (JS.mapSet k v m) -> e = (k, v) \/ In e m.
Proof.
  induction m as [|[k' v'] m IH]; simpl.
  - intros [<-|[]]. now left.
  - destruct (decide (k = k')); simpl; intros [<-|H]; auto.
    destruct (IH H); auto.
Qed.

Lemma mapSet_length k v m : (length m <= length (JS.mapSet k v m) <= S (length m))%nat.
Proof.
  induction m as [|[k' v'] m IH]; simpl; [lia|].
  destruct (decide (k = k')); simpl; lia.
Qed.

Lemma mapGet_mapSet_eq k v m : JS.mapGet k (JS.mapSet k v m) = Some v.
Proof.
  induction m as [|[k' v'] m IH]; simpl.
  - now destruct (decide (k = k)).
  - destruct (decide (k = k')) as [E|E]; simpl.
    + now destruct (decide (k = k)).
    + now destruct (decide (k = k')).
Qed.

End OrderedMapFacts.

(** ** Task tracker *)

Section PromiseTrackerFacts.
Import PromiseTracker.

Example parseStack_user :
  parseStack Samples.userStack = (Some "/app/src/server.js", Some 42).
Proof. reflexivity. Qed.

Example parseStack_guardian :
  parseStack Samples.guardianStack
  = (Some "/srv/guardian/dist/core/eventLoopMonitor.js", Some 60) /\
  Stack.isGuardianInternal (fst (parseStack Samples.guardianStack)) = true.
Proof. split; reflexivity. Qed.

(** A task whose parsed file is missing or not matched is stored, with
    whatever [parseStack] found. *)
Lemma onInit_stored (t : Tracker) (id trigger : Z) (stack : string) (now : Z) :
  Stack.isGuardianInternal (fst (parseStack stack)) = false ->
  JS.mapGet id (promises (onInit t id "PROMISE" trigger stack now))
  = Some (mkTracked id "PROMISE" trigger now stack pending
            (fst (parseStack stack)) (snd (parseStack stack))).
Proof.
  intros E. unfold onInit. destruct (parseStack stack) as [f l]. cbn [fst snd] in *.
  rewrite E. change (negb ("PROMISE" =? "PROMISE")%string) with false. cbv iota.
  apply mapGet_mapSet_eq.
Qed.

(** What the loop of [parseStack] returns is the file of a frame, and holds
    none of the words that disqualify a path. *)
Lemma parseLines_file (skip : list string) (lines : list string) (f : string)
    (l : option Z) :
  Stack.parseLines skip lines = (Some f, l) ->
  In f (flat_map (fun x => match Stack.matchFrame x with
                           | Some (path, _) => [path]
                           | None => []
                           end) lines)
  /\ forallb (fun w => negb (JS.includes f w)) skip = true.
Proof.
  induction lines as [|x lines IH]; cbn [Stack.parseLines flat_map]; [discriminate|].
  destruct (Stack.matchFrame x) as [[path ln]|]; [|exact IH].
  destruct (forallb (fun w => negb (JS.includes path w)) skip) eqn:E.
  - intros [= -> _]. split; [now left|exact E].
  - intros H. destruct (IH H) as [Hin Hs]. split; [|exact Hs].
    apply in_or_app. now right.
Qed.

(** When every file of the monitor that shows in a stack lies under
    [node_modules], the parsed file is not one the filter matches. *)
Lemma installed_never_matched (skip : list string) (stack : string) :
  In "node_modules" skip ->
  (forall f, In f (Stack.frameFiles stack) ->
             Stack.isGuardianInternal (Some f) = true ->
             JS.includes f "node_modules" = true) ->
  Stack.isGuardianInternal (fst (Stack.parseLines skip (JS.splitLines stack))) = false.
Proof.
  intros Hskip H.
  destruct (Stack.parseLines skip (JS.splitLines stack)) as [[f|] l] eqn:E;
    [|reflexivity].
  destruct (parseLines_file _ _ _ _ E) as [Hin Hs]. cbn [fst].
  destruct (Stack.isGuardianInternal (Some f)) eqn:Ei; [|reflexivity].
  rewrite forallb_forall in Hs. specialize (Hs _ Hskip).
  rewrite (H f Hin Ei) in Hs. discriminate Hs.
Qed.

Lemma settled_In (m : list (Z * TrackedPromise)) (e : Z * TrackedPromise) :
  In e (settled m) <-> In e m /\ isPending (snd e) = false.
Proof.
  unfold settled. rewrite filter_In. now destruct (isPending (snd e)).
Qed.

Lemma toRemove_fifth (sorted : list (Z * TrackedPromise)) :
  Z.of_nat (length sorted) <= 100000 -> toRemove sorted = (length sorted / 5)%nat.
Proof.
  intros H. unfold toRemove. rewrite floorMul_fifth by lia.
  change 5 with (Z.of_nat 5). rewrite <- Nat2Z.inj_div. apply Nat2Z.id.
Qed.

(** What [cleanupOldPromises] drops and what it keeps. *)
Lemma cleanupOldPromises_spec (t : Tracker) :
  NoDup (map fst (promises t)) ->
  Z.of_nat (length (promises t)) <= 100000 ->
  let m := promises t in
  let m' := promises (cleanupOldPromises t) in
  (length m' + length (settled m) / 5 = length m)%nat /\
  (forall e, In e m' -> In e m) /\
  (forall e, In e m -> isPending (snd e) = true -> In e m') /\
  (forall e, In e m -> ~ In e m' ->
     forall e', In e' m' -> isPending (snd e') = false ->
                createdAt (snd e) <= createdAt (snd e')).
Proof.
  intros Hm Hlen m m'. subst m'. unfold cleanupOldPromises. cbn [promises].
  set (sorted := sortedSettled (promises t)).
  assert (Hsl : length sorted = length (settled m))
    by apply sortBy_length.
  assert (Hsm : (length (settled m) <= length m)%nat) by apply filter_length_le.
  rewrite toRemove_fifth by (subst m; lia).
  set (k := (length sorted / 5)%nat).
  assert (Hk : (k <= length sorted)%nat)
    by (subst k; apply Nat.Div0.div_le_upper_bound; lia).
  assert (Hsin : forall e, In e sorted <-> In e m /\ isPending (snd e) = false).
  { intros e. unfold sorted, sortedSettled. rewrite sortBy_In. apply settled_In. }
  assert (Hnd : NoDup sorted).
  { unfold sorted, sortedSettled.
    rewrite (sortBy_perm _ (settled (promises t))).
    apply NoDup_ListNoDup, List.NoDup_filter, NoDup_ListNoDup, NoDup_keys_entries, Hm. }
  assert (Hsplit : sorted = firstn k sorted ++ skipn k sorted)
    by (symmetry; apply firstn_skipn).
  assert (Hdrop : forall e, In e (firstn k sorted) -> In e m /\ isPending (snd e) = false).
  { intros e He. apply Hsin. rewrite Hsplit. apply in_or_app. now left. }
  assert (HndR : NoDup (firstn k sorted)).
  { rewrite Hsplit in Hnd. now apply NoDup_app in Hnd as [? _]. }
  split; [|split; [|split]].
  - pose proof (deleteAll_length (firstn k sorted) m Hm HndR
                  (fun e He => proj1 (Hdrop e He))) as H.
    rewrite firstn_length_le in H by exact Hk. rewrite <- Hsl. exact H.
  - intros e He. now apply deleteAll_In in He.
  - intros e He Hp. apply deleteAll_In. split; [assumption|].
    intros Hin. apply in_map_iff in Hin as (d & Ed & Hd).
    destruct (Hdrop d Hd) as [Hdm Hdp].
    rewrite (NoDup_keys_eq m e d Hm He Hdm (eq_sym Ed)) in Hp. congruence.
  - intros e He Hgone e' He' Hp'.
    assert (HeR : In e (firstn k sorted)).
    { destruct (in_dec Z.eq_dec (fst e) (map fst (firstn k sorted))) as [Hin|Hnot].
      - apply in_map_iff in Hin as (d & Ed & Hd).
        destruct (Hdrop d Hd) as [Hdm _].
        now rewrite (NoDup_keys_eq m e d Hm He Hdm (eq_sym Ed)).
      - exfalso. apply Hgone, deleteAll_In. now split. }
    apply deleteAll_In in He' as [He'm He'k].
    assert (He'S : In e' (skipn k sorted)).
    { assert (Hs : In e' sorted) by (apply Hsin; now split).
      rewrite Hsplit in Hs. apply in_app_or in Hs as [Hs|Hs]; [|assumption].
      exfalso. apply He'k. now apply in_map. }
    assert (Hsorted : StronglySorted
              (fun a b : Z * TrackedPromise => createdAt (snd a) <= createdAt (snd b))
              sorted)
      by exact (sortBy_sorted (fun x : Z * TrackedPromise => createdAt (snd x))
                  (settled (promises t))).
    rewrite Hsplit in Hsorted.
    apply (StronglySorted_app_1_elem_of _ _ _ e e' Hsorted); now apply list_elem_of_In.
Qed.

(** A task whose parsed file is not the monitor's own is stored, after the
    clean-up when the map is full. *)
Lemma onInit_tracked (t : Tracker) (id trigger : Z) (stack : string) (now : Z) :
  Stack.isGuardianInternal (fst (parseStack stack)) = false ->
  promises (onInit t id "PROMISE" trigger stack now) =
    JS.mapSet id
      (mkTracked id "PROMISE" trigger now stack pending
                 (fst (parseStack stack)) (snd (parseStack stack)))
      (promises (if Z.of_nat (length (promises t)) >=? maxTrackedPromises (config t)
                 then cleanupOldPromises t else t)).
Proof.
  intros H. unfold onInit. simpl.
  destruct (parseStack stack) as [f l]. simpl in *. rewrite H.
  now destruct (Z.of_nat (length (promises t)) >=? maxTrackedPromises (config t)).
Qed.

(** C4 (as the code has it).  When a task is recorded while the map holds at
    least [maxTrackedPromises] entries, a fifth (rounded down) of the entries
    that are no longer pending is dropped first, none of them younger than a
    settled entry that stays; pending entries are never dropped.  The size
    after the insertion is the size before, less the entries dropped, plus
    one: with fewer than five settled entries the map grows past the cap. *)
Theorem onInit_at_capacity (t : Tracker) (id trigger : Z) (stack : string) (now : Z) :
  NoDup (map fst (promises t)) ->
  Z.of_nat (length (promises t)) <= 100000 ->
  JS.mapGet id (promises t) = None ->
  Stack.isGuardianInternal (fst (parseStack stack)) = false ->
  maxTrackedPromises (config t) <= Z.of_nat (length (promises t)) ->
  let t' := onInit t id "PROMISE" trigger stack now in
  let n := length (settled (promises t)) in
  (length (promises t') + n / 5 = length (promises t) + 1)%nat /\
  (forall e, In e (promises t) -> isPending (snd e) = true -> In e (promises t')) /\
  (forall e, In e (promises t) -> ~ In e (promises t') ->
     isPending (snd e) = false /\
     forall e', In e' (promises t') -> isPending (snd e') = false ->
                createdAt (snd e) <= createdAt (snd e')) /\
  ((n < 5)%nat -> maxTrackedPromises (config t) < Z.of_nat (length (promises t'))).
Proof.
  intros Hnd Hlen Hfresh Huser Hfull t' n. subst t'.
  rewrite (onInit_tracked t id trigger stack now Huser).
  destruct (Z.of_nat (length (promises t)) >=? maxTrackedPromises (config t)) eqn:E;
    [|lia].
  destruct (cleanupOldPromises_spec t Hnd Hlen) as (Hsize & Hsub & Hpend & Hold).
  set (m' := promises (cleanupOldPromises t)) in *.
  set (new := mkTracked _ _ _ _ _ _ _ _).
  assert (Hfresh' : JS.mapGet id m' = None).
  { apply mapGet_None. intros Hin. apply in_map_iff in Hin as (e & Ee & He).
    apply mapGet_None in Hfresh. apply Hfresh. rewrite <- Ee.
    apply in_map, Hsub, He. }
  rewrite (mapSet_fresh id new m' Hfresh').
  assert (Hsize' : (length (m' ++ [(id, new)]) + n / 5 = length (promises t) + 1)%nat).
  { rewrite length_app. cbn [length]. subst n. lia. }
  split; [exact Hsize'|]. split; [|split].
  - intros e He Hp. apply in_or_app. left. now apply Hpend.
  - intros e He Hgone.
    assert (Hgone' : ~ In e m') by (intros H; apply Hgone, in_or_app; now left).
    split.
    + destruct (isPending (snd e)) eqn:Ep; [|reflexivity].
      exfalso. apply Hgone'. now apply Hpend.
    + intros e' He' Hp'. apply in_app_or in He' as [He'|[<-|[]]].
      * now apply (Hold e He Hgone' e' He').
      * discriminate Hp'.
  - intros Hn. replace (n / 5)%nat with 0%nat in Hsize'
      by (symmetry; apply Nat.div_small; exact Hn).
    lia.
Qed.

Lemma onInit_at_capacity_witness :
  let t :=
    run Samples.smallTracker
        (map Samples.initUser [1; 2; 3; 4; 5; 6; 7; 8; 9; 10]
         ++ map Destroy [1; 2; 3; 4; 5]) in
  let t' := onInit t 11 "PROMISE" 0 Samples.userStack 2000 in
  (length (promises t') + 5 / 5 = 10 + 1)%nat.
Proof.
  intros t t'.
  refine (proj1 (onInit_at_capacity t 11 0 Samples.userStack 2000 _ _ _ _ _)).
  - apply NoDup_ListNoDup. vm_compute. repeat constructor; simpl; intuition discriminate.
  - vm_compute. discriminate.
  - reflexivity.
  - reflexivity.
  - vm_compute. discriminate.
Defined.

(** C4 fails as stated: with room for ten tasks, eleven tasks that are all
    still pending are all kept. *)
Lemma tracker_exceeds_cap_when_all_pending :
  let t :=
    run Samples.smallTracker
        (map Samples.initUser [1; 2; 3; 4; 5; 6; 7; 8; 9; 10; 11]) in
  maxTrackedPromises (config t) = 10 /\
  Z.of_nat (length (promises t)) = 11 /\
  forallb (fun e => isPending (snd e)) (promises t) = true.
Proof. vm_compute. repeat split. Qed.

(** *** Self-filtering *)

Lemma Forall_mapSet {K V : Type} `{EqDecision K} (P : K * V -> Prop)
    (k : K) (v : V) (m : list (K * V)) :
  Forall P m -> P (k, v) -> Forall P (JS.mapSet k v m).
Proof.
  rewrite !List.Forall_forall. intros Hm Hv e He.
  apply mapSet_In in He as [->|He]; auto.
Qed.

Lemma Forall_mapDelete {K V : Type} `{EqDecision K} (P : K * V -> Prop)
    (k : K) (m : list (K * V)) :
  Forall P m -> Forall P (JS.mapDelete k m).
Proof.
  rewrite !List.Forall_forall. intros Hm e He.
  apply mapDelete_In in He as [He _]. auto.
Qed.

Lemma onInit_internal (t : Tracker) (id : Z) (ty : string) (trigger : Z)
    (stack : string) (now : Z) :
  Stack.isGuardianInternal (fst (parseStack stack)) = true ->
  onInit t id ty trigger stack now = t.
Proof.
  intros H. unfold onInit. destruct (negb (String.eqb ty "PROMISE")); [reflexivity|].
  destruct (parseStack stack) as [f l]. simpl in H. now rewrite H.
Qed.

Lemma mark_userTasks (s : PStatus) (id : Z) (m : list (Z * TrackedPromise)) :
  Forall (fun e => fromUserCode (snd e)) m ->
  Forall (fun e => fromUserCode (snd e)) (mark s id m).
Proof.
  intros Hm. unfold mark. destruct (JS.mapGet id m) as [q|] eqn:E; [|assumption].
  apply Forall_mapSet; [assumption|].
  apply mapGet_In in E. rewrite List.Forall_forall in Hm. exact (Hm _ E).
Qed.

Lemma reportLoop_userTasks (emitReturns : Z -> bool) (now : Z) (ps : list TrackedPromise) :
  forall t : Tracker,
    Forall (fun e => fromUserCode (snd e)) (promises t) ->
    Forall (fun e => fromUserCode (snd e))
           (promises (fst (reportLoop emitReturns now ps t))).
Proof.
  induction ps as [|p ps IH]; intros t Ht; simpl; [assumption|].
  destruct (now - createdAt p >? deadlockThreshold (config t)); [|now apply IH].
  destruct (match JS.mapGet (asyncId p) (promises t) with
            | Some q => negb (isPending q)
            | None => false
            end); [now apply IH|].
  destruct (emitReturns (asyncId p)); [|assumption].
  specialize (IH (mkTracker (mark rejected (asyncId p) (promises t)) (config t)
                            (deadlockCount t + 1))
                 (mark_userTasks _ _ _ Ht)).
  now destruct (reportLoop emitReturns now ps _).
Qed.

(** Every call leaves the map free of the monitor's own tasks. *)
Lemma step_userTasks (t : Tracker) (c : Call) :
  Forall (fun e => fromUserCode (snd e)) (promises t) ->
  Forall (fun e => fromUserCode (snd e)) (promises (step t c)).
Proof.
  intros Ht. destruct c as [id ty trigger stack now|id|id|emitReturns now|]; simpl.
  - unfold onInit. destruct (negb (String.eqb ty "PROMISE")); [assumption|].
    destruct (parseStack stack) as [f l] eqn:Ep.
    destruct (Stack.isGuardianInternal f) eqn:Ei; [assumption|].
    simpl. apply Forall_mapSet; [|now split].
    destruct (Z.of_nat (length (promises t)) >=? maxTrackedPromises (config t));
      [|assumption].
    unfold cleanupOldPromises. simpl.
    generalize (firstn (toRemove (sortedSettled (promises t)))
                       (sortedSettled (promises t))).
    intros ks. revert Ht. generalize (promises t).
    induction ks as [|d ks IH]; intros m Hm; simpl; [assumption|].
    apply IH, Forall_mapDelete, Hm.
  - unfold onDestroy. destruct (JS.mapGet id (promises t)) as [p|] eqn:E; [|assumption].
    destruct (isPending p); [|assumption]. simpl.
    apply Forall_mapSet; [assumption|].
    apply mapGet_In in E. rewrite List.Forall_forall in Ht. exact (Ht _ E).
  - now apply Forall_mapDelete.
  - now apply reportLoop_userTasks.
  - constructor.
Qed.

Lemma run_userTasks (cs : list Call) :
  forall t : Tracker,
    Forall (fun e => fromUserCode (snd e)) (promises t) ->
    Forall (fun e => fromUserCode (snd e)) (promises (run t cs)).
Proof.
  induction cs as [|c cs IH]; intros t Ht; simpl; [assumption|].
  apply IH, step_userTasks, Ht.
Qed.

End PromiseTrackerFacts.

(** ** Unawaited-task detector *)

Section DetectorFacts.
Import UnawaitedPromiseDetector.

Example constructed_entry_is_marked_awaited :
  map (fun e => (fst e, c_file (snd e), isAwaited (snd e)))
      (trackedPromises (construct (create defaultConfig) Samples.userStack 1000))
  = [(1, Some "/app/src/server.js", true)].
Proof. reflexivity. Qed.

Lemma construct_internal (d : Detector) (stack : string) (now : Z) :
  Stack.isGuardianInternal (fst (parseStack stack)) = true ->
  construct d stack now = d.
Proof.
  intros H. unfold construct. destruct (parseStack stack) as [f l].
  simpl in H. now rewrite H.
Qed.

Lemma construct_stored (d : Detector) (stack : string) (now : Z) :
  Stack.isGuardianInternal (fst (parseStack stack)) = false ->
  JS.mapGet (promiseCounter d + 1) (trackedPromises (construct d stack now))
  = Some (mkCreation (promiseCounter d + 1) stack now
            (fst (parseStack stack)) (snd (parseStack stack)) true).
Proof.
  intros E. unfold construct. destruct (parseStack stack) as [f l]. cbn [fst snd] in *.
  rewrite E. unfold continuationAttached. cbn [trackedPromises config promiseCounter].
  rewrite mapGet_mapSet_eq. cbn [trackedPromises c_id c_stack c_createdAt c_file c_line].
  apply mapGet_mapSet_eq.
Qed.

Lemma continuationAttached_userCreations (d : Detector) (id : Z) :
  Forall (fun e => fromUserCode (snd e)) (trackedPromises d) ->
  Forall (fun e => fromUserCode (snd e)) (trackedPromises (continuationAttached d id)).
Proof.
  intros Hd. unfold continuationAttached.
  destruct (JS.mapGet id (trackedPromises d)) as [tr|] eqn:E; [|assumption].
  simpl. apply Forall_mapSet; [assumption|].
  apply mapGet_In in E. rewrite List.Forall_forall in Hd. exact (Hd _ E).
Qed.

Lemma warnLoop_userCreations (emitReturns : Z -> bool) (now : Z)
    (es : list (Z * TrackedPromiseCreation)) :
  forall d : Detector,
    Forall (fun e => fromUserCode (snd e)) (trackedPromises d) ->
    Forall (fun e => fromUserCode (snd e))
           (trackedPromises (fst (warnLoop emitReturns now es d))).
Proof.
  induction es as [|[id tr] es IH]; intros d Hd; simpl; [assumption|].
  destruct (isAwaited tr); [now apply IH|].
  destruct (now - c_createdAt tr >? warningThreshold (config d)); [|now apply IH].
  destruct (emitReturns id); [|assumption].
  specialize (IH (expire d id) (Forall_mapDelete _ _ _ Hd)).
  now destruct (warnLoop emitReturns now es (expire d id)).
Qed.

Lemma step_userCreations (d : Detector) (c : Call) :
  Forall (fun e => fromUserCode (snd e)) (trackedPromises d) ->
  Forall (fun e => fromUserCode (snd e)) (trackedPromises (step d c)).
Proof.
  intros Hd. destruct c as [stack now|id|id|emitReturns now|]; simpl.
  - unfold construct. destruct (parseStack stack) as [f l] eqn:Ep.
    destruct (Stack.isGuardianInternal f) eqn:Ei; [assumption|].
    apply continuationAttached_userCreations. simpl.
    apply Forall_mapSet; [assumption|now split].
  - now apply continuationAttached_userCreations.
  - now apply Forall_mapDelete.
  - now apply warnLoop_userCreations.
  - constructor.
Qed.

Lemma run_userCreations (cs : list Call) :
  forall d : Detector,
    Forall (fun e => fromUserCode (snd e)) (trackedPromises d) ->
    Forall (fun e => fromUserCode (snd e)) (trackedPromises (run d cs)).
Proof.
  induction cs as [|c cs IH]; intros d Hd; simpl; [assumption|].
  apply IH, step_userCreations, Hd.
Qed.

End DetectorFacts.

(** What the two guards do ensure: whatever calls reach the task tracker and
    the unawaited-task detector, the file stored with an entry is the one
    [parseStack] found in the stack captured at creation, and it is not
    matched by the monitor's path substrings and component names; a task
    whose parsed file is matched leaves both maps as they are. *)
Lemma entries_pass_the_filter
    (tc : PromiseTracker.PromiseConfig) (tcalls : list PromiseTracker.Call)
    (dc : UnawaitedPromiseDetector.UnawaitedPromiseConfig)
    (dcalls : list UnawaitedPromiseDetector.Call) :
  (forall e,
     In e (PromiseTracker.promises
             (PromiseTracker.run (PromiseTracker.create tc) tcalls)) ->
     PromiseTracker.fromUserCode (snd e)) /\
  (forall e,
     In e (UnawaitedPromiseDetector.trackedPromises
             (UnawaitedPromiseDetector.run (UnawaitedPromiseDetector.create dc) dcalls)) ->
     UnawaitedPromiseDetector.fromUserCode (snd e)) /\
  (forall t id ty trigger stack now,
     Stack.isGuardianInternal (fst (PromiseTracker.parseStack stack)) = true ->
     PromiseTracker.onInit t id ty trigger stack now = t) /\
  (forall d stack now,
     Stack.isGuardianInternal (fst (UnawaitedPromiseDetector.parseStack stack)) = true ->
     UnawaitedPromiseDetector.construct d stack now = d).
Proof.
  split; [|split; [|split]].
  - apply List.Forall_forall, run_userTasks. constructor.
  - apply List.Forall_forall, run_userCreations. constructor.
  - apply onInit_internal.
  - apply construct_internal.
Qed.

(** C6 fails on the code.  [parseStack] passes over every frame whose path
    holds [node_modules], and a task without a parsed file is not filtered.
    When the monitor is installed as a dependency, all its files lie under
    [node_modules], so the filter never sees one of them: the continuation
    that the unawaited-task detector attaches to every promise it wraps is
    created in the detector's own file, a file that the substrings match,
    and the task tracker stores it, under the file of the application that
    constructed the promise, or under no file when a dependency did; a
    promise constructed by the dashboard of the monitor is stored by the
    detector.  In general no task whose stack shows the monitor's files under
    [node_modules] only is left out.  The same continuation and the same
    promise of the dashboard are left out when the monitor runs from its
    build directory. *)
Theorem monitor_task_is_tracked_when_installed :
  Stack.creatorFile Samples.trackerHook Samples.continuationStack
  = Some "/app/node_modules/async-guardian/dist/instrumentation/unawaitedPromiseDetector.js"
  /\ Stack.isGuardianInternal
       (Stack.creatorFile Samples.trackerHook Samples.continuationStack) = true
  /\ (forall t id trigger now,
        JS.mapGet id
          (PromiseTracker.promises
             (PromiseTracker.onInit t id "PROMISE" trigger Samples.continuationStack now))
        = Some (PromiseTracker.mkTracked id "PROMISE" trigger now
                  Samples.continuationStack PromiseTracker.pending
                  (Some "/app/src/server.js") (Some 42)))
  /\ Stack.isGuardianInternal
       (Stack.creatorFile Samples.trackerHook Samples.libraryContinuationStack) = true
  /\ (forall t id trigger now,
        JS.mapGet id
          (PromiseTracker.promises
             (PromiseTracker.onInit t id "PROMISE" trigger
                Samples.libraryContinuationStack now))
        = Some (PromiseTracker.mkTracked id "PROMISE" trigger now
                  Samples.libraryContinuationStack PromiseTracker.pending None None))
  /\ Stack.creatorFile Samples.detectorHook Samples.dashboardCreation
     = Some "/app/node_modules/async-guardian/dist/dashboard/server.js"
  /\ Stack.isGuardianInternal
       (Stack.creatorFile Samples.detectorHook Samples.dashboardCreation) = true
  /\ (forall d now,
        JS.mapGet (UnawaitedPromiseDetector.promiseCounter d + 1)
          (UnawaitedPromiseDetector.trackedPromises
             (UnawaitedPromiseDetector.construct d Samples.dashboardCreation now))
        = Some (UnawaitedPromiseDetector.mkCreation
                  (UnawaitedPromiseDetector.promiseCounter d + 1)
                  Samples.dashboardCreation now (Some "/app/src/main.js") (Some 9) true))
  /\ (forall t id trigger stack now,
        (forall f, In f (Stack.frameFiles stack) ->
                   Stack.isGuardianInternal (Some f) = true ->
                   JS.includes f "node_modules" = true) ->
        JS.mapGet id
          (PromiseTracker.promises (PromiseTracker.onInit t id "PROMISE" trigger stack now))
        <> None)
  /\ (forall d stack now,
        (forall f, In f (Stack.frameFiles stack) ->
                   Stack.isGuardianInternal (Some f) = true ->
                   JS.includes f "node_modules" = true) ->
        JS.mapGet (UnawaitedPromiseDetector.promiseCounter d + 1)
          (UnawaitedPromiseDetector.trackedPromises
             (UnawaitedPromiseDetector.construct d stack now))
        <> None)
  /\ (forall t id trigger now,
        PromiseTracker.onInit t id "PROMISE" trigger Samples.builtContinuationStack now
        = t)
  /\ (forall d now,
        UnawaitedPromiseDetector.construct d Samples.builtDashboardCreation now = d).
Proof.
  split; [reflexivity|]. split; [reflexivity|]. split.
  { intros t id trigger now. now rewrite onInit_stored. }
  split; [reflexivity|]. split.
  { intros t id trigger now. now rewrite onInit_stored. }
  split; [reflexivity|]. split; [reflexivity|]. split.
  { intros d now. now rewrite construct_stored. }
  split; [|split; [|split]].
  - intros t id trigger stack now H. rewrite onInit_stored; [discriminate|].
    apply installed_never_matched; [now left|exact H].
  - intros d stack now H. rewrite construct_stored; [discriminate|].
    apply installed_never_matched; [now left|exact H].
  - intros t id trigger now. now apply onInit_internal.
  - intros d now. now apply construct_internal.
Qed.

(** ** Metrics registry *)

Section CustomMetricsFacts.
Import CustomMetrics.
Context (lc : string -> string -> Z).

Lemma orZ_Some_0 (x : Z) : JS.orZ (Some x) 0 = x.
Proof. unfold JS.orZ. destruct (x =? 0) eqn:E; [lia|reflexivity]. Qed.

(** *** Counters *)

Lemma getCounter_empty (name : string) (ls : option Labels) :
  getCounter lc empty name ls = 0.
Proof. unfold getCounter. simpl. now rewrite lookup_empty. Qed.

(** [incrementCounter] adds the amount to the counter of its key and leaves
    the other counters alone. *)
Lemma getCounter_incrementCounter (r : Registry) (name name' : string)
    (value : option Z) (ls ls' : option Labels) :
  getCounter lc (incrementCounter lc r name value ls) name' ls' =
    if decide (getKey lc name ls = getKey lc name' ls')
    then getCounter lc r name' ls' + default 1 value
    else getCounter lc r name' ls'.
Proof.
  unfold getCounter, incrementCounter. simpl.
  destruct (decide (getKey lc name ls = getKey lc name' ls')) as [E|E].
  - rewrite E, lookup_insert_eq. apply orZ_Some_0.
  - now rewrite lookup_insert_ne.
Qed.

Lemma getCounter_apply (r : Registry) (o : Op) (name : string) (ls : option Labels) :
  positiveAmount o -> getCounter lc r name ls <= getCounter lc (apply lc r o) name ls.
Proof.
  destruct o as [n v l|n v l|n v l|]; simpl; intros H; try reflexivity; try contradiction.
  rewrite getCounter_incrementCounter.
  destruct (decide _); [|reflexivity].
  destruct v as [v|]; simpl; lia.
Qed.

Lemma getCounter_run (ops : list Op) :
  forall (r : Registry) (name : string) (ls : option Labels),
    Forall positiveAmount ops ->
    getCounter lc r name ls <= getCounter lc (run lc r ops) name ls.
Proof.
  induction ops as [|o ops IH]; intros r name ls H; simpl; [reflexivity|].
  inversion H as [|? ? Ho Hops]; subst.
  etransitivity; [apply (getCounter_apply r o name ls Ho)|].
  now apply IH.
Qed.



(** *** Histograms *)

Lemma sortBy_Z_sorted (values : list Z) :
  StronglySorted Z.le (JS.sortBy (fun a b => a - b) values).
Proof. exact (sortBy_sorted (fun x : Z => x) values). Qed.

(** The indices of the three percentiles, for the lengths a histogram can
    have, and they are within the sorted array. *)
Lemma percentile_index (sorted : list Z) (k : Z) (q : float) :
  sorted <> [] -> 0 <= k < 100 ->
  JS.floorMul (Z.of_nat (length sorted)) q = Z.of_nat (length sorted) * k / 100 ->
  percentile sorted q = nth (Z.to_nat (Z.of_nat (length sorted) * k / 100)) sorted 0 /\
  (Z.to_nat (Z.of_nat (length sorted) * k / 100) < length sorted)%nat.
Proof.
  intros Hne Hk Hq. unfold percentile. rewrite Hq. split; [reflexivity|].
  assert (0 < length sorted)%nat by (destruct sorted; [congruence|simpl; lia]).
  assert (Z.of_nat (length sorted) * k / 100 < Z.of_nat (length sorted))
    by (apply Z.div_lt_upper_bound; nia).
  assert (0 <= Z.of_nat (length sorted) * k / 100) by (apply Z.div_pos; nia).
  lia.
Qed.

(** Every histogram of a registry built from the empty one holds at most
    1000 observations. *)
Lemma run_histograms_capped (ops : list Op) :
  forall r : Registry,
    (forall k vs, histograms r !! k = Some vs -> Z.of_nat (length vs) <= 1000) ->
    forall k vs, histograms (run lc r ops) !! k = Some vs ->
                 Z.of_nat (length vs) <= 1000.
Proof.
  induction ops as [|o ops IH]; intros r Hr; simpl; [exact Hr|].
  apply IH. destruct o as [n v l|n v l|n v l|]; simpl; try exact Hr.
  - intros k vs. destruct (decide (getKey lc n l = k)) as [<-|Hne].
    + rewrite lookup_insert_eq. intros [= <-].
      pose proof (Hr (getKey lc n l)) as Hold.
      destruct (histograms r !! getKey lc n l) as [old|]; simpl.
      * specialize (Hold old eq_refl).
        destruct (Z.of_nat (length (old ++ [v])) >? 1000) eqn:E.
        -- destruct old as [|x old]; simpl in *; [lia|].
           rewrite length_app in *. simpl in *. lia.
        -- lia.
      * simpl. lia.
    + rewrite lookup_insert_ne by assumption. apply Hr.
  - intros k vs. rewrite lookup_empty. discriminate.
Qed.

(** The statistics of a stored histogram. *)
Lemma getHistogramStats_spec (r : Registry) (name : string) (ls : option Labels)
    (values : list Z) :
  histograms r !! getKey lc name ls = Some values ->
  values <> [] -> Z.of_nat (length values) <= 1000 ->
  let sorted := JS.sortBy (fun a b => a - b) values in
  let n := Z.of_nat (length values) in
  StronglySorted Z.le sorted /\ Permutation sorted values /\
  (Z.to_nat (n * 99 / 100) < length sorted)%nat /\
  getHistogramStats lc r name ls =
    Some {| count := n;
            sum := fold_left Z.add sorted 0;
            avg := fold_left Z.add sorted 0 # Pos.of_nat (length values);
            min := nth 0 sorted 0;
            max := nth (length values - 1) sorted 0;
            p50 := nth (Z.to_nat (n * 50 / 100)) sorted 0;
            p95 := nth (Z.to_nat (n * 95 / 100)) sorted 0;
            p99 := nth (Z.to_nat (n * 99 / 100)) sorted 0 |}.
Proof.
  intros Hv Hne Hlen sorted n.
  assert (Hsl : length sorted = length values) by apply sortBy_length.
  assert (Hsne : sorted <> []).
  { intros E. rewrite E in Hsl. destruct values; [congruence|discriminate]. }
  destruct (floorMul_percentiles n ltac:(subst n; lia)) as (H50 & H95 & H99).
  subst n. rewrite <- Hsl in H50, H95, H99.
  destruct (percentile_index sorted 50 c050 Hsne ltac:(lia) H50) as [E50 _].
  destruct (percentile_index sorted 95 c095 Hsne ltac:(lia) H95) as [E95 _].
  destruct (percentile_index sorted 99 c099 Hsne ltac:(lia) H99) as [E99 I99].
  split; [apply sortBy_Z_sorted|]. split; [apply sortBy_perm|].
  rewrite <- Hsl. split; [exact I99|].
  unfold getHistogramStats. rewrite Hv.
  destruct values as [|v values]; [congruence|].
  unfold statsOf. fold sorted. now rewrite E50, E95, E99.
Qed.

End CustomMetricsFacts.



(** The amount is not checked either: a negative one is accepted and makes
    the counter negative. *)
Lemma counter_accepts_negative_amount :
  CustomMetrics.getCounter Samples.noCollation
    (CustomMetrics.incrementCounter Samples.noCollation CustomMetrics.empty
       "jobs_total" (Some (-5)) None)
    "jobs_total" None
  = -5.
Proof. reflexivity. Qed.



(** * Further properties of the sources *)

(** ** Event store: queries and subscriptions *)

Section EventStoreQueries.
Import EventStore.

Lemma filter_filter {A : Type} (p q : A -> bool) (l : list A) :
  List.filter p (List.filter q l) = List.filter (fun x => q x && p x) l.
Proof.
  induction l as [|x l IH]; simpl; [reflexivity|].
  destruct (q x); simpl; [destruct (p x)|]; now rewrite IH.
Qed.

Lemma filter_true {A : Type} (l : list A) : List.filter (fun _ => true) l = l.
Proof. induction l as [|x l IH]; simpl; [reflexivity|]. now rewrite IH. Qed.

(** The three passes of [getEvents] select the events that meet every
    criterion given. *)
Lemma getEvents_meets (st : Store) (filter : option EventFilter) :
  getEvents st filter = List.filter (meets filter) (events st).
Proof.
  unfold getEvents, meets.
  destruct filter as [[[t|] [s|] [since|]]|]; simpl;
    try destruct (String.eqb s "") eqn:Es; simpl;
    rewrite ?filter_filter, ?filter_true;
    try reflexivity;
    apply List.filter_ext; intros e;
    rewrite ?andb_true_r, <- ?andb_assoc; reflexivity.
Qed.

(** X1. [getEvents] returns, in the order of emission, exactly the retained
    events that meet every criterion given; an event that has just been
    emitted is returned for every filter it meets. *)
Theorem getEvents_returns_matching_events (st : Store) (filter : option EventFilter) :
  getEvents st filter = List.filter (meets filter) (events st) /\
  (forall e, In e (getEvents st filter) <-> In e (events st) /\ meets filter e = true) /\
  (forall now t d o,
     meets filter (newEvent st now t d o) = true ->
     exists older,
       getEvents (r_store (emit st now t d o)) filter
       = older ++ [r_event (emit st now t d o)]).
Proof.
  split; [apply getEvents_meets|]. split.
  - intros e. rewrite getEvents_meets. apply filter_In.
  - intros now t d o Hm. rewrite getEvents_meets.
    destruct (emit_appends st now t d o) as [older ->].
    destruct (emit_store st now t d o) as [-> _].
    exists (List.filter (meets filter) older).
    rewrite List.filter_app. simpl. now rewrite Hm.
Qed.

Lemma getEvents_returns_matching_events_witness :
  let r := emit initial 5000 MEMORY_LEAK (mkPayload None None) noOptions in
  exists older,
    getEvents (r_store r) (Some (mkFilter (Some MEMORY_LEAK) (Some "critical") (Some 5000)))
    = older ++ [r_event r].
Proof.
  intros r.
  apply (proj2 (proj2 (getEvents_returns_matching_events initial
           (Some (mkFilter (Some MEMORY_LEAK) (Some "critical") (Some 5000)))))).
  reflexivity.
Defined.

Lemma removeLast_last (i : nat) (ls : list Listener) (l : Listener) :
  l_id l = i -> removeLast i (ls ++ [l]) = ls.
Proof.
  intros Hl. induction ls as [|x ls IH]; simpl.
  - now rewrite Hl, Nat.eqb_refl.
  - rewrite existsb_app. simpl. rewrite Hl, Nat.eqb_refl, orb_true_r.
    now rewrite IH.
Qed.

Lemma removeLast_absent (i : nat) (ls : list Listener) :
  existsb (fun x => Nat.eqb (l_id x) i) ls = false -> removeLast i ls = ls.
Proof.
  induction ls as [|x ls IH]; simpl; [reflexivity|].
  intros H. apply orb_false_elim in H as [Hx Hls]. now rewrite Hls, Hx.
Qed.

Lemma listenersOf_off_on (st : Store) (ch ch' : string) (l : Listener) :
  listenersOf (off (on st ch l) ch l) ch' = listenersOf st ch'.
Proof.
  unfold off, on. simpl. rewrite lookup_insert_eq, removeLast_last by reflexivity.
  unfold listenersOf at 2 3. simpl.
  destruct (decide (ch = ch')) as [<-|Hne].
  - destruct (eventEmitter st !! ch) as [[|x ls]|] eqn:E; unfold listenersOf; simpl;
      rewrite ?E; simpl.
    + now rewrite lookup_delete_eq.
    + now rewrite lookup_insert_eq.
    + now rewrite lookup_delete_eq.
  - destruct (default [] (eventEmitter st !! ch)); unfold listenersOf; simpl.
    + now rewrite lookup_delete_ne, lookup_insert_ne.
    + now rewrite !lookup_insert_ne.
Qed.

Lemma off_events (st : Store) (ch : string) (l : Listener) :
  events (off st ch l) = events st /\ eventCounter (off st ch l) = eventCounter st.
Proof. unfold off. now destruct (eventEmitter st !! ch). Qed.

(** What [emit] does depends on the store only through its events, its
    counter and the listeners of each channel. *)
Lemma emit_ext (st st' : Store) now t d o :
  events st = events st' -> eventCounter st = eventCounter st' ->
  (forall ch, listenersOf st ch = listenersOf st' ch) ->
  r_event (emit st now t d o) = r_event (emit st' now t d o) /\
  r_called (emit st now t d o) = r_called (emit st' now t d o) /\
  r_outcome (emit st now t d o) = r_outcome (emit st' now t d o) /\
  events (r_store (emit st now t d o)) = events (r_store (emit st' now t d o)).
Proof.
  intros He Hc Hl.
  assert (Hn : newEvent st now t d o = newEvent st' now t d o)
    by (unfold newEvent; now rewrite Hc).
  pose proof (emit_calls st now t d o) as H1.
  pose proof (emit_calls st' now t d o) as H2.
  rewrite !Hl, Hn, <- H2 in H1. inversion H1 as [[Hcalled Hout]].
  destruct (emit_store st now t d o) as [-> ->].
  destruct (emit_store st' now t d o) as [-> ->].
  simpl. now rewrite He, Hn.
Qed.

(** X2. Subscribing a listener and unsubscribing it again leaves the listeners
    of every channel, and with them what [emit] calls and returns, as they
    were; unsubscribing a listener that is not registered changes nothing. *)
Theorem off_undoes_on (st : Store) (ch : string) (l : Listener) :
  (forall ch', listenersOf (off (on st ch l) ch l) ch' = listenersOf st ch') /\
  (forall now t d o,
     r_called (emit (off (on st ch l) ch l) now t d o) = r_called (emit st now t d o) /\
     r_outcome (emit (off (on st ch l) ch l) now t d o) = r_outcome (emit st now t d o)) /\
  (existsb (fun x => Nat.eqb (l_id x) (l_id l)) (listenersOf st ch) = false ->
   forall ch', listenersOf (off st ch l) ch' = listenersOf st ch').
Proof.
  split; [intros ch'; apply listenersOf_off_on|]. split.
  - intros now t d o.
    destruct (emit_ext (off (on st ch l) ch l) st now t d o) as (_ & H1 & H2 & _);
      [apply (off_events (on st ch l))|apply (off_events (on st ch l))| |now split].
    intros ch'. apply listenersOf_off_on.
  - intros Habs ch'. unfold off, listenersOf in *.
    destruct (eventEmitter st !! ch) as [ls|] eqn:E; [|reflexivity].
    simpl in *. rewrite (removeLast_absent _ _ Habs).
    destruct (decide (ch = ch')) as [<-|Hne].
    + destruct ls; [now rewrite lookup_delete_eq, E|now rewrite lookup_insert_eq, E].
    + destruct ls; [now rewrite lookup_delete_ne|now rewrite lookup_insert_ne].
Qed.

Lemma off_undoes_on_witness :
  let st := on initial "event" (mkListener 1 (fun _ => true)) in
  listenersOf (off st "MEMORY_LEAK" (mkListener 2 (fun _ => true))) "event"
  = listenersOf st "event".
Proof.
  intros st.
  apply (proj2 (proj2 (off_undoes_on st "MEMORY_LEAK" (mkListener 2 (fun _ => true))))).
  reflexivity.
Defined.

End EventStoreQueries.

(** ** Ordered maps: reading after writing *)

Section OrderedMapLookup.
Context {K V : Type} `{EqDecision K}.
Implicit Types (m : list (K * V)) (k : K) (v : V).

Lemma mapGet_mapSet_ne k k' v m :
  k <> k' -> JS.mapGet k' (JS.mapSet k v m) = JS.mapGet k' m.
Proof.
  intros Hne. induction m as [|[k0 v0] m IH]; simpl.
  - destruct (decide (k' = k)); [congruence|reflexivity].
  - destruct (decide (k = k0)) as [<-|E]; simpl.
    + destruct (decide (k' = k)); [congruence|reflexivity].
    + destruct (decide (k' = k0)); [reflexivity|apply IH].
Qed.

Lemma mapSet_keys k v m :
  JS.mapGet k m <> None -> map fst (JS.mapSet k v m) = map fst m.
Proof.
  induction m as [|[k' v'] m IH]; simpl; [congruence|].
  destruct (decide (k = k')) as [->|E]; simpl; [reflexivity|].
  intros Hk. now rewrite IH.
Qed.

Lemma mapGet_delete_ne k k' m :
  k <> k' -> JS.mapGet k' (JS.mapDelete k m) = JS.mapGet k' m.
Proof.
  intros Hne. induction m as [|[k0 v0] m IH]; simpl; [reflexivity|].
  destruct (decide (k = k0)) as [<-|E]; simpl.
  - destruct (decide (k' = k)); [congruence|apply IH].
  - destruct (decide (k' = k0)); [reflexivity|apply IH].
Qed.

Lemma mapGet_delete_eq k m : JS.mapGet k (JS.mapDelete k m) = None.
Proof.
  induction m as [|[k0 v0] m IH]; simpl; [reflexivity|].
  destruct (decide (k = k0)) as [<-|E]; simpl; [apply IH|].
  destruct (decide (k = k0)); [congruence|apply IH].
Qed.

(** With unique keys, the entry found under a key is the entry of the map. *)
Lemma In_mapGet k v m : NoDup (map fst m) -> In (k, v) m -> JS.mapGet k m = Some v.
Proof.
  induction m as [|[k' v'] m IH]; simpl; [tauto|].
  rewrite NoDup_cons, list_elem_of_In. intros [Hk Hm] [[= -> ->]|Hin].
  - now destruct (decide (k = k)).
  - destruct (decide (k = k')) as [->|E]; [|now apply IH].
    exfalso. apply Hk. apply in_map_iff. now exists (k', v).
Qed.

Lemma mapSet_NoDup k v m : NoDup (map fst m) -> NoDup (map fst (JS.mapSet k v m)).
Proof.
  intros Hm. destruct (JS.mapGet k m) eqn:E.
  - rewrite mapSet_keys; [assumption|congruence].
  - rewrite (mapSet_fresh k v m E), map_app. simpl.
    apply NoDup_app. split; [assumption|]. split; [|repeat constructor; set_solver].
    intros x Hx Hk. apply list_elem_of_singleton in Hk. subst x.
    apply mapGet_None in E. apply E. now apply list_elem_of_In.
Qed.

End OrderedMapLookup.

(** ** Health checker: consecutive errors and [isHealthy] *)

Section HealthCheckerMore.
Import HealthChecker.

Lemma errorsOf_recordMonitorCheck (c : Checker) (n m : string) (ok : bool) (now : Z) :
  errorsOf (recordMonitorCheck c n ok now) m =
    if decide (n = m) then (if ok then 0 else errorsOf c m + 1) else errorsOf c m.
Proof.
  unfold errorsOf, recordMonitorCheck. simpl.
  destruct (decide (n = m)) as [->|Hne].
  - rewrite mapGet_mapSet_eq. simpl.
    destruct ok; [reflexivity|]. now destruct (JS.mapGet m (monitorHealth c)).
  - now rewrite mapGet_mapSet_ne.
Qed.

(** How often a monitor occurs in a run of checks. *)
Lemma errorsOf_failures (m : string) (checks : list (string * bool * Z)) :
  forall c : Checker,
    Forall (fun x => fst (fst x) = m -> snd (fst x) = false) checks ->
    errorsOf (recordAll c checks) m
    = errorsOf c m
      + Z.of_nat (length (List.filter (fun x => bool_decide (fst (fst x) = m)) checks)).
Proof.
  induction checks as [|[[n ok] now] checks IH]; intros c H; simpl; [lia|].
  inversion H as [|? ? Hx Hrest]; subst. simpl in Hx.
  unfold recordAll in *. simpl. rewrite (IH _ Hrest), errorsOf_recordMonitorCheck.
  destruct (decide (n = m)) as [E|E].
  - rewrite (Hx E), bool_decide_true by assumption. simpl. lia.
  - rewrite bool_decide_false by assumption. reflexivity.
Qed.

(** X3. The error count of a monitor is the number of its failed checks since
    its last successful one (since the start when it never succeeded); the
    checks of other monitors do not touch it. *)
Theorem errors_count_failures_since_last_success (m : string)
    (before after : list (string * bool * Z)) (c : Checker) (now : Z) :
  Forall (fun x => fst (fst x) = m -> snd (fst x) = false) after ->
  errorsOf (recordAll c (before ++ (m, true, now) :: after)) m
  = Z.of_nat (length (List.filter (fun x => bool_decide (fst (fst x) = m)) after)) /\
  errorsOf (recordAll (create now) after) m
  = Z.of_nat (length (List.filter (fun x => bool_decide (fst (fst x) = m)) after)).
Proof.
  intros H. split.
  - unfold recordAll. rewrite fold_left_app. simpl.
    fold (recordAll (recordMonitorCheck (fold_left
           (fun c '(n, ok, now) => recordMonitorCheck c n ok now) before c) m true now)
           after).
    rewrite (errorsOf_failures m after _ H), errorsOf_recordMonitorCheck.
    destruct (decide (m = m)); [lia|congruence].
  - now rewrite (errorsOf_failures m after _ H).
Qed.

Lemma errors_count_failures_since_last_success_witness :
  errorsOf
    (recordAll (create 0)
       ([("memory", false, 1)] ++ ("memory", true, 2)
          :: [("memory", false, 3); ("eventLoop", true, 4); ("memory", false, 5)]))
    "memory"
  = 2.
Proof.
  refine (proj1 (errors_count_failures_since_last_success "memory"
                   [("memory", false, 1)]
                   [("memory", false, 3); ("eventLoop", true, 4); ("memory", false, 5)]
                   (create 0) 2 _)).
  repeat constructor; simpl; intros H; try reflexivity; discriminate H.
Defined.

(** X4. [isHealthy] answers [true] exactly when at most 100 MB of heap are in
    use and no monitor has more than three consecutive errors. *)
Theorem isHealthy_iff (c : Checker) (heapUsed now now' : Z) :
  isHealthy c heapUsed now now' = true <->
  heapUsed <= 100 * 1048576 /\
  Forall (fun e => mh_errors (snd e) <= 3) (monitorHealth c).
Proof.
  unfold isHealthy. rewrite getHealth_status, monitorLoop_spec.
  assert (H3 : existsb (fun e : string * MonitorHealth => mh_errors (snd e) >? 3)
                       (monitorHealth c) = false
               <-> Forall (fun e => mh_errors (snd e) <= 3) (monitorHealth c)).
  { induction (monitorHealth c) as [|e l IH]; simpl.
    - split; [constructor|reflexivity].
    - rewrite orb_false_iff, IH, Forall_cons. rewrite Z.gtb_ltb, Z.ltb_ge. tauto. }
  destruct (heapUsed >? 200 * 1048576) eqn:E2.
  { split; [discriminate|]. intros [? _]. lia. }
  destruct (heapUsed >? 100 * 1048576) eqn:E1.
  { split; [discriminate|]. intros [? _]. lia. }
  destruct (existsb (fun e => mh_errors (snd e) >? 10) (monitorHealth c)) eqn:E10.
  { split; [discriminate|]. intros [_ Hall]. exfalso.
    apply existsb_exists in E10 as (e & He & Hgt).
    rewrite List.Forall_forall in Hall. specialize (Hall e He). lia. }
  destruct (existsb (fun e => mh_errors (snd e) >? 3) (monitorHealth c)) eqn:E3.
  - split; [discriminate|]. intros [_ Hall]. apply H3 in Hall. congruence.
  - split; [|reflexivity]. intros _. split; [lia|now apply H3].
Qed.

End HealthCheckerMore.

(** ** Alert router: rate limits and the choice of routes *)

Section AlertRouterMore.
Import EventStore AlertRouter.

Lemma filter_length_impl {A : Type} (p q : A -> bool) (l : list A) :
  (forall x, p x = true -> q x = true) ->
  (length (List.filter p l) <= length (List.filter q l))%nat.
Proof.
  intros H. induction l as [|x l IH]; simpl; [lia|].
  destruct (p x) eqn:Ep; [rewrite (H x Ep); simpl; lia|].
  destruct (q x); simpl; lia.
Qed.

(** A later trimming subsumes an earlier one. *)
Lemma trim_later (len now now' : Z) (ts : list Z) :
  now <= now' ->
  List.filter (fun t => now' - t <? len) (List.filter (fun t => now - t <? len) ts)
  = List.filter (fun t => now' - t <? len) ts.
Proof.
  intros H. rewrite filter_filter. apply List.filter_ext_in. intros t _.
  destruct (now' - t <? len) eqn:E; [|apply andb_false_r].
  rewrite andb_true_r. apply Z.ltb_lt. apply Z.ltb_lt in E. lia.
Qed.

Lemma checkRateLimit_other (counts : gmap string Counts) (n m : string)
    (limit : RateLimit) (now : Z) :
  n <> m -> snd (checkRateLimit counts n limit now) !! m = counts !! m.
Proof.
  intros Hne. unfold checkRateLimit.
  destruct (counts !! n) as [c|] eqn:E; simpl;
    repeat match goal with |- context [if ?b then _ else _] => destruct b end;
    simpl; rewrite ?lookup_insert_ne by assumption; reflexivity.
Qed.

Lemma allowedAt_app (n : string) (xs ys : list (string * Z)) :
  allowedAt n (xs ++ ys) = allowedAt n xs ++ allowedAt n ys.
Proof. unfold allowedAt. now rewrite List.filter_app, map_app. Qed.

Lemma window_within_recent (w len now : Z) (ts : list Z) :
  inWindow w len now = true ->
  (length (List.filter (inWindow w len) ts)
   <= length (List.filter (fun t => (now - t <? len)%Z) ts))%nat.
Proof.
  intros Hnow. apply filter_length_impl. intros t Ht.
  unfold inWindow in *. apply andb_prop in Hnow as [H1 H2], Ht as [H3 H4].
  apply Z.ltb_lt. lia.
Qed.

Lemma checkAll_bounded (limitOf : string -> RateLimit) (n : string)
    (calls : list (string * Z)) :
  forall (counts : gmap string Counts) (T : Z) (allowed : list (string * Z)),
    tracks counts n T allowed ->
    bounded (limitOf n) (allowedAt n allowed) ->
    Forall (fun c => T <= snd c) calls ->
    StronglySorted Z.le (map snd calls) ->
    bounded (limitOf n) (allowedAt n (allowed ++ checkAll limitOf counts calls)).
Proof.
  induction calls as [|[m now] calls IH]; intros counts T allowed Htr Hb HT Hs; simpl.
  - now rewrite app_nil_r.
  - inversion HT as [|? ? HTnow HTrest]; subst. simpl in HTnow.
    inversion Hs as [|? ? Hs' Hle]; subst.
    assert (Hrest : Forall (fun c => now <= snd c) calls).
    { rewrite List.Forall_forall in *. intros c Hc. apply Hle. now apply in_map. }
    destruct (checkRateLimit counts m (limitOf m) now) as [ok counts'] eqn:E.
    rewrite app_assoc.
    destruct (decide (m = n)) as [->|Hne].
    + (* a call for the route itself *)
      destruct (Htr now HTnow) as [Hpm Hph].
      unfold checkRateLimit in E.
      set (c := default (mkCounts [] []) (counts !! n)) in *.
      set (pm := List.filter (fun t => now - t <? 60000) (perMinute c)) in *.
      set (ph := List.filter (fun t => now - t <? 3600000) (perHour c)) in *.
      assert (Htrim : tracks (match counts !! n with
                              | Some _ => <[n := mkCounts pm ph]> counts
                              | None => counts
                              end) n now allowed).
      { intros now' Hnow'. destruct (Htr now' ltac:(lia)) as [H1 H2].
        destruct (counts !! n) as [c0|] eqn:E0.
        - rewrite lookup_insert_eq. simpl. subst pm ph.
          rewrite !trim_later by assumption. subst c. simpl. now split.
        - rewrite E0. subst c. simpl in *. now split. }
      destruct (Z.of_nat (length pm) >=? maxPerMinute (limitOf n)) eqn:Em.
      { inversion E; subst. rewrite app_nil_r. eapply IH; eauto. }
      destruct (Z.of_nat (length ph) >=? maxPerHour (limitOf n)) eqn:Eh.
      { inversion E; subst. rewrite app_nil_r. eapply IH; eauto. }
      inversion E; subst ok counts'. clear E.
      apply (IH _ now).
      * intros now' Hnow'. rewrite lookup_insert_eq. simpl.
        rewrite allowedAt_app, !List.filter_app.
        destruct (Htrim now' Hnow') as [H1 H2].
        assert (Hc : default (mkCounts [] []) (match counts !! n with
                       | Some _ => <[n := mkCounts pm ph]> counts
                       | None => counts end !! n) = mkCounts pm ph \/ counts !! n = None).
        { destruct (counts !! n) eqn:E0; [left; now rewrite lookup_insert_eq|now right]. }
        assert (Hpm' : List.filter (fun t => now' - t <? 60000) pm
                       = List.filter (fun t => now' - t <? 60000) (allowedAt n allowed)).
        { destruct Hc as [Hc|Hc].
          - rewrite Hc in H1. exact H1.
          - rewrite <- (proj1 (Htr now' ltac:(lia))). subst pm.
            now rewrite trim_later. }
        assert (Hph' : List.filter (fun t => now' - t <? 3600000) ph
                       = List.filter (fun t => now' - t <? 3600000) (allowedAt n allowed)).
        { destruct Hc as [Hc|Hc].
          - rewrite Hc in H2. exact H2.
          - rewrite <- (proj2 (Htr now' ltac:(lia))). subst ph.
            now rewrite trim_later. }
        unfold allowedAt at 2 4. simpl. rewrite bool_decide_true by reflexivity.
        simpl. now rewrite Hpm', Hph'.
      * intros w. rewrite allowedAt_app, !List.filter_app, !length_app.
        unfold allowedAt at 2 4. simpl. rewrite bool_decide_true by reflexivity. simpl.
        destruct (Hb w) as [Hbm Hbh]. rewrite Z.geb_leb in Em, Eh.
        apply Z.leb_gt in Em, Eh. split.
        -- destruct (inWindow w 60000 now) eqn:Ew; simpl; [|lia].
           pose proof (window_within_recent w 60000 now (allowedAt n allowed) Ew) as Hw.
           rewrite <- Hpm in Hw. fold pm in Hw. lia.
        -- destruct (inWindow w 3600000 now) eqn:Ew; simpl; [|lia].
           pose proof (window_within_recent w 3600000 now (allowedAt n allowed) Ew) as Hw.
           rewrite <- Hph in Hw. fold ph in Hw. lia.
      * exact Hrest.
      * exact Hs'.
    + (* a call for another route *)
      apply (IH _ now).
      * intros now' Hnow'.
        replace counts' with (snd (checkRateLimit counts m (limitOf m) now))
          by now rewrite E.
        rewrite (checkRateLimit_other counts m n _ now Hne).
        rewrite allowedAt_app.
        replace (allowedAt n (if ok then [(m, now)] else [])) with (@nil Z).
        -- rewrite app_nil_r. apply Htr. lia.
        -- destruct ok; [|reflexivity]. unfold allowedAt. simpl.
           now rewrite bool_decide_false.
      * rewrite allowedAt_app.
        replace (allowedAt n (if ok then [(m, now)] else [])) with (@nil Z).
        -- now rewrite app_nil_r.
        -- destruct ok; [|reflexivity]. unfold allowedAt. simpl.
           now rewrite bool_decide_false.
      * exact Hrest.
      * exact Hs'.
Qed.

(** X5. When the clock never goes back, [checkRateLimit] allows at most
    [maxPerMinute] calls of a route name in any window of 60 seconds and at
    most [maxPerHour] in any window of an hour, whatever calls for other names
    come in between. *)
Theorem rate_limit_bounds_every_window (limitOf : string -> RateLimit)
    (calls : list (string * Z)) (n : string) (w : Z) :
  StronglySorted Z.le (map snd calls) ->
  let allowed := allowedAt n (checkAll limitOf ∅ calls) in
  Z.of_nat (length (List.filter (inWindow w 60000) allowed))
    <= Z.max 0 (maxPerMinute (limitOf n)) /\
  Z.of_nat (length (List.filter (inWindow w 3600000) allowed))
    <= Z.max 0 (maxPerHour (limitOf n)).
Proof.
  intros Hs allowed. subst allowed.
  destruct calls as [|[m t0] calls]; [simpl; lia|].
  apply (checkAll_bounded limitOf n ((m, t0) :: calls) ∅ t0 []).
  - intros now _. rewrite lookup_empty. now split.
  - intros w'. simpl. lia.
  - inversion Hs as [|? ? _ Hle]; subst. constructor; [simpl; lia|].
    rewrite List.Forall_forall in *. intros c Hc. apply Hle. now apply in_map.
  - exact Hs.
Qed.

Lemma rate_limit_bounds_every_window_witness :
  let limitOf := fun _ : string => mkRateLimit 2 5 in
  let calls := [("slack", 1000); ("slack", 2000); ("slack", 3000); ("slack", 70000)] in
  Z.of_nat (length (List.filter (inWindow 0 60000)
                      (allowedAt "slack" (checkAll limitOf ∅ calls)))) <= Z.max 0 2.
Proof.
  intros limitOf calls.
  refine (proj1 (rate_limit_bounds_every_window limitOf calls "slack" 0 _)).
  repeat constructor; simpl; lia.
Defined.

(** Every invocation in one pass is of an eligible route. *)
Lemma routeLoop_eligible (rs : list AlertRoute) :
  forall (i : nat) (ev : GuardianEvent) (counts : gmap string Counts)
         (cache : gmap string Z) (clock : Z),
    Forall (fun d => exists x, nth_error rs (d_route d - i) = Some x /\
                               (i <= d_route d)%nat /\ eligible ev x = true /\
                               d_key d = getEventKey ev)
           (snd (routeLoop rs i ev counts cache clock)).
Proof.
  induction rs as [|r rs IH]; intros i ev counts cache clock; simpl; [constructor|].
  assert (Hskip : forall counts0 cache0 clock0,
    Forall (fun d => exists x, nth_error (r :: rs) (d_route d - i) = Some x /\
                               (i <= d_route d)%nat /\ eligible ev x = true /\
                               d_key d = getEventKey ev)
           (snd (routeLoop rs (S i) ev counts0 cache0 clock0))).
  { intros counts0 cache0 clock0.
    eapply List.Forall_impl; [|apply (IH (S i))]. simpl.
    intros d (x & Hx & Hi & He & Hk). exists x. repeat split; try assumption; [|lia].
    replace (d_route d - i)%nat with (S (d_route d - S i)) by lia. exact Hx. }
  destruct (truthy (enabled r)) eqn:Een; simpl; [|apply Hskip].
  destruct (accepts r ev) as [[|]|] eqn:Eacc; [|apply Hskip|constructor].
  destruct (match rateLimit r with
            | Some limit => checkRateLimit counts (name r) limit clock
            | None => (true, counts)
            end) as [allowed counts1].
  destruct allowed; simpl; [|apply Hskip].
  specialize (Hskip counts1
    (if hr_ok (handler r ev clock)
     then <[getEventKey ev := hr_done (handler r ev clock)]> cache else cache)
    (hr_done (handler r ev clock))).
  destruct (routeLoop rs (S i) ev counts1 _ _) as [[[c2 cache2] clock2] ds2].
  simpl in *. constructor; [|assumption].
  exists r. simpl. rewrite Nat.sub_diag. repeat split; try lia.
  unfold eligible. now rewrite Een, Eacc.
Qed.

(** X6. [route] only ever invokes the handler of a route that is enabled and
    whose filter, when it has one, accepts the event; the handler of a
    disabled or filtered-out route is never called. *)
Theorem route_invokes_only_eligible_routes (r : Router) (now : Z) (ev : GuardianEvent) :
  Forall (fun d => exists x, nth_error (routes r) (d_route d) = Some x /\
                             eligible ev x = true /\ d_key d = getEventKey ev)
         (rr_dispatches (route r now ev)).
Proof.
  unfold route. destruct (recentlySent _ _ _); simpl; [constructor|].
  pose proof (routeLoop_eligible (routes r) 0 ev (alertCounts r)
                (deduplicationCache r) now) as H.
  destruct (routeLoop (routes r) 0 ev (alertCounts r) (deduplicationCache r) now)
    as [[[counts' cache'] clock'] ds].
  simpl in *. eapply List.Forall_impl; [|exact H]. simpl.
  intros d (x & Hx & _ & He & Hk). exists x. rewrite Nat.sub_0_r in Hx. now split.
Qed.

(** No filter throws on the event: the filter of every enabled route
    returns. *)
Let filtersReturn (ev : GuardianEvent) (rs : list AlertRoute) : Prop :=
  Forall (fun x => truthy (enabled x) = true -> accepts x ev <> None) rs.

Lemma routeLoop_unlimited (rs : list AlertRoute) :
  forall (i : nat) (ev : GuardianEvent) (counts : gmap string Counts)
         (cache : gmap string Z) (clock : Z),
    Forall (fun x => rateLimit x = None) rs ->
    filtersReturn ev rs ->
    map d_route (snd (routeLoop rs i ev counts cache clock)) = eligibleFrom ev i rs.
Proof.
  induction rs as [|r rs IH]; intros i ev counts cache clock Hnl Hf; simpl;
    [reflexivity|].
  inversion Hnl as [|? ? Hr Hrs]; subst. inversion Hf as [|? ? Hfr Hfs]; subst.
  rewrite Hr. unfold eligible.
  destruct (truthy (enabled r)); simpl; [|now apply IH].
  destruct (accepts r ev) as [[|]|]; simpl; [|now apply IH|now destruct Hfr].
  specialize (IH (S i) ev counts
    (if hr_ok (handler r ev clock)
     then <[getEventKey ev := hr_done (handler r ev clock)]> cache else cache)
    (hr_done (handler r ev clock)) Hrs Hfs).
  destruct (routeLoop rs (S i) ev counts _ _) as [[[c2 cache2] clock2] ds2].
  simpl in *. now rewrite IH.
Qed.

(** The same while handlers are pending: after a call has been resumed [k]
    times, the routes invoked are the first [k + 1] eligible ones. *)
Lemma enter_unlimited (rs : list AlertRoute) :
  forall (i : nat) (ev : GuardianEvent) (st : Running) (clock : Z) (k : nat),
    Forall (fun x => rateLimit x = None) rs ->
    filtersReturn ev rs ->
    suspended st = [] ->
    map d_route (trace (runActions (enter st rs i ev clock) (repeat (Settle 0) k)))
    = map d_route (trace st) ++ firstn (S k) (eligibleFrom ev i rs).
Proof.
  induction rs as [|r rs IH]; intros i ev st clock k Hnl Hf Hs.
  - unfold enter. cbn [advance eligibleFrom]. rewrite Hs, firstn_nil, app_nil_r.
    now rewrite settle_idle.
  - inversion Hnl as [|? ? Hr Hrs]; subst. inversion Hf as [|? ? Hfr Hfs]; subst.
    unfold enter. cbn [advance eligibleFrom]. unfold eligible. rewrite Hr.
    destruct (truthy (enabled r)); cbn [negb andb app];
      [|exact (IH (S i) ev st clock k Hrs Hfs Hs)].
    destruct (accepts r ev) as [[|]|]; cbn [default app];
      [|exact (IH (S i) ev st clock k Hrs Hfs Hs)|now destruct Hfr].
    cbn [negb]. set (res := handler r ev clock).
    destruct k as [|k].
    + cbn [repeat runActions fold_left trace firstn]. now rewrite map_app.
    + set (cache1 := if hr_ok res
                     then <[getEventKey ev := hr_done res]> (deduplicationCache (router st))
                     else deduplicationCache (router st)).
      pose proof (IH (S i) ev
                    (mkRunning (mkRouter (routes (router st)) (alertCounts (router st))
                                         cache1) []
                               (trace st ++ [mkDispatch i (getEventKey ev) clock (hr_ok res)]))
                    (hr_done res) k Hrs Hfs eq_refl) as H.
      cbn [router suspended trace alertCounts deduplicationCache routes] in H.
      cbn [repeat runActions fold_left step suspended router trace].
      rewrite Hs. cbn [app nth_error firstn skipn s_result s_event s_rest s_index
                       routes alertCounts deduplicationCache].
      fold res. fold cache1. unfold runActions in H. rewrite H.
      rewrite map_app, <- app_assoc. reflexivity.
Qed.

(** X7. A handler that fails does not stop the loop.  When no route is rate
    limited, the event is not a recent duplicate and no filter throws on it,
    a call of [route] that runs to its end invokes every eligible route, in
    the order of the route list, whatever the handlers before it did.  While
    it runs, the routes wait for one another: when the handlers the call
    awaited have settled [k] times, the first [k + 1] eligible routes have
    been invoked and no other, so behind a handler that never settles no
    route is reached. *)
Theorem route_reaches_every_eligible_route (r : Router) (now : Z) (ev : GuardianEvent) :
  Forall (fun x => rateLimit x = None) (routes r) ->
  Forall (fun x => truthy (enabled x) = true -> accepts x ev <> None) (routes r) ->
  recentlySent (deduplicationCache r) (getEventKey ev) now = false ->
  map d_route (rr_dispatches (route r now ev)) = eligibleFrom ev 0 (routes r)
  /\ forall k : nat,
       map d_route
         (trace (runActions (mkRunning r [] []) (Call now ev :: repeat (Settle 0) k)))
       = firstn (S k) (eligibleFrom ev 0 (routes r)).
Proof.
  intros Hnl Hf Hrec. split.
  - unfold route. rewrite Hrec.
    pose proof (routeLoop_unlimited (routes r) 0 ev (alertCounts r)
                  (deduplicationCache r) now Hnl Hf) as H.
    now destruct (routeLoop (routes r) 0 ev (alertCounts r) (deduplicationCache r) now)
      as [[[counts' cache'] clock'] ds].
  - intros k.
    change (runActions (mkRunning r [] []) (Call now ev :: repeat (Settle 0) k))
      with (runActions (step (mkRunning r [] []) (Call now ev)) (repeat (Settle 0) k)).
    cbn [step router]. rewrite Hrec.
    exact (enter_unlimited (routes r) 0 ev (mkRunning r [] []) now k Hnl Hf eq_refl).
Qed.

Lemma route_reaches_every_eligible_route_witness :
  let failing := mkRoute "pager" None (fun _ t => mkHandlerResult false t) None None in
  let working := mkRoute "log" None (fun _ t => mkHandlerResult true t) None None in
  let muted := mkRoute "mail" None (fun _ t => mkHandlerResult true t) (Some false) None in
  let r := addRoute (addRoute (addRoute empty failing) muted) working in
  let ev :=
    mkEvent "evt_1" MEMORY_LEAK 900 critical "unknown"
            (mkPayload None None) None None None None in
  map d_route (rr_dispatches (route r 1000 ev)) = [0%nat; 2%nat].
Proof.
  intros failing working muted r ev.
  refine (proj1 (route_reaches_every_eligible_route r 1000 ev _ _ _)).
  - repeat constructor.
  - repeat constructor; discriminate.
  - reflexivity.
Defined.

(** A filter that throws ends the call: the routes behind it are not
    invoked, whatever they are. *)
Example throwing_filter_ends_the_call :
  let first := mkRoute "log" None (fun _ t => mkHandlerResult true t) None None in
  let broken :=
    mkRoute "pager" (Some (fun _ => None)) (fun _ t => mkHandlerResult true t)
            None None in
  let last := mkRoute "mail" None (fun _ t => mkHandlerResult true t) None None in
  let r := addRoute (addRoute (addRoute empty first) broken) last in
  let ev :=
    mkEvent "evt_1" MEMORY_LEAK 900 critical "unknown"
            (mkPayload None None) None None None None in
  map d_route (rr_dispatches (route r 1000 ev)) = [0%nat]
  /\ eligibleFrom ev 0 (routes r) = [0%nat; 2%nat].
Proof. split; reflexivity. Qed.

Lemma routeLoop_failures (rs : list AlertRoute) :
  forall (i : nat) (ev : GuardianEvent) (counts : gmap string Counts)
         (cache : gmap string Z) (clock : Z),
    match routeLoop rs i ev counts cache clock with
    | (_, cache', _, ds) => Forall (fun d => d_ok d = false) ds -> cache' = cache
    end.
Proof.
  induction rs as [|r rs IH]; intros i ev counts cache clock; simpl; [reflexivity|].
  destruct (negb (truthy (enabled r))); [apply IH|].
  destruct (accepts r ev) as [[|]|]; [|apply IH|reflexivity].
  destruct (match rateLimit r with
            | Some limit => checkRateLimit counts (name r) limit clock
            | None => (true, counts)
            end) as [allowed counts1].
  destruct allowed; simpl; [|apply IH].
  specialize (IH (S i) ev counts1
    (if hr_ok (handler r ev clock)
     then <[getEventKey ev := hr_done (handler r ev clock)]> cache else cache)
    (hr_done (handler r ev clock))).
  destruct (routeLoop rs (S i) ev counts1 _ _) as [[[c2 cache2] clock2] ds2].
  intros Hall. inversion Hall as [|? ? Hhead Hrest]; subst. simpl in Hhead.
  rewrite Hhead in IH. now apply IH.
Qed.

(** X8. A dispatch in which no handler settles normally leaves the cache of
    time stamps as it was, so the next event with the same key is not taken
    for a duplicate of it. *)
Theorem failed_dispatch_is_not_recorded (r : Router) (now : Z) (ev : GuardianEvent) :
  Forall (fun d => d_ok d = false) (rr_dispatches (route r now ev)) ->
  deduplicationCache (rr_router (route r now ev)) = deduplicationCache r.
Proof.
  unfold route. destruct (recentlySent _ _ _); simpl; [reflexivity|].
  pose proof (routeLoop_failures (routes r) 0 ev (alertCounts r)
                (deduplicationCache r) now) as H.
  now destruct (routeLoop (routes r) 0 ev (alertCounts r) (deduplicationCache r) now)
    as [[[counts' cache'] clock'] ds].
Qed.

Lemma failed_dispatch_is_not_recorded_witness :
  let failing := mkRoute "pager" None (fun _ t => mkHandlerResult false t) None None in
  let r := addRoute empty failing in
  let ev :=
    mkEvent "evt_1" MEMORY_LEAK 900 critical "unknown"
            (mkPayload None None) None None None None in
  deduplicationCache (rr_router (route r 1000 ev)) = deduplicationCache r.
Proof.
  intros failing r ev.
  apply (failed_dispatch_is_not_recorded r 1000 ev).
  repeat constructor.
Defined.

End AlertRouterMore.

(** ** The promise tracker: queries and settling *)

Section PromiseTrackerQueries.
Import PromiseTracker.

Lemma In_pending (t : Tracker) (p : TrackedPromise) :
  In p (getPendingPromises t) <->
  (exists k, In (k, p) (promises t)) /\ isPending p = true.
Proof.
  unfold getPendingPromises. rewrite sortBy_In, filter_In, in_map_iff.
  split; intros [H Hp]; split; try assumption.
  - destruct H as [[k q] [E Hin]]. simpl in E. subst q. now exists k.
  - destruct H as [k Hin]. now exists (k, p).
Qed.

Lemma getPendingPromises_sorted (t : Tracker) :
  StronglySorted (fun a b => createdAt a <= createdAt b) (getPendingPromises t).
Proof. exact (sortBy_sorted createdAt _). Qed.

Lemma filter_none {A : Type} (f : A -> bool) (l : list A) :
  Forall (fun x => f x = false) l -> List.filter f l = [].
Proof.
  induction 1 as [|x l Hx _ IH]; simpl; [reflexivity|]. now rewrite Hx.
Qed.

Lemma insertBy_same_key {A : Type} (key : A -> Z) (c : Z) (x : A) (l : list A) :
  StronglySorted (fun a b => key a <= key b) l ->
  List.filter (fun a => key a =? c) (JS.insertBy (fun a b => key a - key b) x l)
  = List.filter (fun a => key a =? c) l ++ (if key x =? c then [x] else []).
Proof.
  induction 1 as [|y l Hs IH Hall]; simpl.
  - now destruct (key x =? c).
  - destruct (key x - key y <? 0) eqn:E.
    + apply Z.ltb_lt in E. simpl.
      destruct (key x =? c) eqn:Ex; [|now rewrite app_nil_r].
      apply Z.eqb_eq in Ex.
      assert (Hy : (key y =? c) = false) by (apply Z.eqb_neq; lia).
      rewrite Hy.
      assert (Hnone : List.filter (fun a => key a =? c) l = []).
      { apply filter_none. eapply List.Forall_impl; [|exact Hall]. cbn beta.
        intros a Ha. apply Z.eqb_neq. lia. }
      now rewrite Hnone.
    + simpl. rewrite IH. now destruct (key y =? c).
Qed.

Lemma sortBy_same_key {A : Type} (key : A -> Z) (c : Z) (l : list A) :
  List.filter (fun a => key a =? c) (JS.sortBy (fun a b => key a - key b) l)
  = List.filter (fun a => key a =? c) l.
Proof.
  unfold JS.sortBy.
  assert (Hgen : forall acc,
             StronglySorted (fun a b => key a <= key b) acc ->
             List.filter (fun a => key a =? c)
               (fold_left (fun acc x => JS.insertBy (fun a b => key a - key b) x acc)
                          l acc)
             = List.filter (fun a => key a =? c) acc
               ++ List.filter (fun a => key a =? c) l).
  { induction l as [|x l IH]; intros acc Hacc; simpl; [now rewrite app_nil_r|].
    rewrite IH by now apply insertBy_sorted.
    rewrite (insertBy_same_key key c x acc Hacc), <- app_assoc.
    now destruct (key x =? c). }
  apply (Hgen []). constructor.
Qed.

(** X9. [getPendingPromises]: the result holds the pending entries of the map
    and nothing else, each as often as the map has it; the entries come
    oldest first; and entries created at the same time keep the order they
    have in the map. *)
Theorem getPendingPromises_oldest_first (t : Tracker) :
  Permutation (getPendingPromises t)
              (List.filter isPending (map snd (promises t)))
  /\ StronglySorted (fun a b => createdAt a <= createdAt b) (getPendingPromises t)
  /\ (forall c : Z,
        List.filter (fun p => createdAt p =? c) (getPendingPromises t)
        = List.filter (fun p => createdAt p =? c)
                      (List.filter isPending (map snd (promises t)))).
Proof.
  split; [apply sortBy_perm|]. split; [apply getPendingPromises_sorted|].
  intros c. apply (sortBy_same_key createdAt).
Qed.

(** X10. [getStats]: the counts are ordered, suspicious within pending within
    total; [oldestPending] is the age of a pending entry that no pending entry
    exceeds, and 0 when nothing is pending. *)
Theorem getStats_oldest_is_greatest_age (t : Tracker) (now : Z) :
  let s := getStats t now in
  0 <= s_suspiciousCount s <= s_pending s
  /\ s_pending s <= s_total s
  /\ (forall p, In p (getPendingPromises t) -> now - createdAt p <= s_oldestPending s)
  /\ (s_pending s = 0 -> s_oldestPending s = 0)
  /\ (s_pending s <> 0 ->
      exists p, In p (getPendingPromises t) /\ s_oldestPending s = now - createdAt p).
Proof.
  unfold getStats. cbn [s_suspiciousCount s_pending s_total s_oldestPending].
  pose proof (getPendingPromises_sorted t) as Hs.
  assert (Hlen : (length (getPendingPromises t) <= length (promises t))%nat).
  { unfold getPendingPromises. rewrite sortBy_length.
    etransitivity; [apply filter_length_le|]. now rewrite length_map. }
  pose proof (filter_length_le (suspicious t now) (getPendingPromises t)) as Hf.
  destruct (getPendingPromises t) as [|p0 ps] eqn:E.
  - simpl in *. repeat split; try lia; try tauto.
  - repeat split; try lia.
    + intros p [<-|Hin]; [lia|].
      apply StronglySorted_inv in Hs. destruct Hs as [_ Hall].
      rewrite List.Forall_forall in Hall. specialize (Hall _ Hin). lia.
    + simpl. lia.
    + intros _. exists p0. split; [now left|reflexivity].
Qed.

Lemma isPending_setStatus (s : PStatus) (p : TrackedPromise) :
  isPending (setStatus s p) = if decide (s = pending) then true else false.
Proof. reflexivity. Qed.

(** X11. [onDestroy]: afterwards the entry of that id, if there is one, is not
    pending; the entries of the other ids and the order of the keys are as
    before; and a second [onDestroy] for the id changes nothing. *)
Theorem onDestroy_settles_one_entry (t : Tracker) (id : Z) :
  let t' := onDestroy t id in
  (forall p, JS.mapGet id (promises t') = Some p -> isPending p = false)
  /\ (forall k, k <> id -> JS.mapGet k (promises t') = JS.mapGet k (promises t))
  /\ map fst (promises t') = map fst (promises t)
  /\ deadlockCount t' = deadlockCount t
  /\ onDestroy t' id = t'.
Proof.
  unfold onDestroy.
  destruct (JS.mapGet id (promises t)) as [p|] eqn:E.
  - destruct (isPending p) eqn:Ep; cbn [promises deadlockCount config].
    + rewrite mapGet_mapSet_eq. repeat split.
      * now intros q [= <-].
      * intros k Hk. apply mapGet_mapSet_ne. congruence.
      * apply mapSet_keys. congruence.
    + rewrite E, Ep. repeat split. intros q Hq. congruence.
  - rewrite E. repeat split. intros q Hq. congruence.
Qed.

End PromiseTrackerQueries.

(** ** The promise tracker: the deadlock check *)

Section PromiseTrackerDeadlocks.
Import PromiseTracker.

Lemma reportLoop_ids (emitReturns : Z -> bool) (now : Z) (ps : list TrackedPromise) :
  forall (t : Tracker) (id : Z),
    In id (snd (reportLoop emitReturns now ps t)) -> In id (map asyncId ps).
Proof.
  induction ps as [|p rest IH]; intros t id; simpl; [tauto|].
  destruct (now - createdAt p >? deadlockThreshold (config t)).
  - destruct (match JS.mapGet (asyncId p) (promises t) with
              | Some q => negb (isPending q) | None => false end).
    + intros H. right. exact (IH _ _ H).
    + destruct (emitReturns (asyncId p)).
      * destruct (reportLoop emitReturns now rest _) as [t' ids] eqn:E.
        simpl. intros [<-|H]; [now left|]. right.
        apply (IH (mkTracker (mark rejected (asyncId p) (promises t))
                             (config t) (deadlockCount t + 1))).
        now rewrite E.
      * simpl. intros [<-|[]]. now left.
  - intros H. right. exact (IH _ _ H).
Qed.

Lemma reportLoop_all (now : Z) (ps : list TrackedPromise) :
  forall t : Tracker,
    NoDup (map asyncId ps) ->
    Forall (fun p => JS.mapGet (asyncId p) (promises t) = Some p
                     /\ isPending p = true) ps ->
    let r := reportLoop (fun _ => true) now ps t in
    snd r = map asyncId
              (List.filter (fun p => now - createdAt p >? deadlockThreshold (config t)) ps)
    /\ deadlockCount (fst r) = deadlockCount t + Z.of_nat (length (snd r))
    /\ config (fst r) = config t
    /\ map fst (promises (fst r)) = map fst (promises t)
    /\ (forall k, In k (snd r) ->
          JS.mapGet k (promises (fst r))
          = option_map (setStatus rejected) (JS.mapGet k (promises t)))
    /\ (forall k, ~ In k (snd r) ->
          JS.mapGet k (promises (fst r)) = JS.mapGet k (promises t)).
Proof.
  induction ps as [|p rest IH]; intros t Hnd Hall; cbn zeta.
  - simpl. repeat split; try tauto; lia.
  - simpl in Hnd. apply NoDup_cons in Hnd. destruct Hnd as [Hp Hnd].
    apply List.Forall_cons_iff in Hall. destruct Hall as [[Hget Hpend] Hall].
    simpl. destruct (now - createdAt p >? deadlockThreshold (config t)) eqn:Eold.
    + rewrite Hget, Hpend. simpl.
      set (t1 := mkTracker (mark rejected (asyncId p) (promises t))
                           (config t) (deadlockCount t + 1)).
      assert (Hm1 : promises t1 = JS.mapSet (asyncId p) (setStatus rejected p) (promises t)).
      { unfold t1, mark. simpl. now rewrite Hget. }
      assert (Hall1 : Forall (fun q => JS.mapGet (asyncId q) (promises t1) = Some q
                                       /\ isPending q = true) rest).
      { rewrite List.Forall_forall in Hall. apply List.Forall_forall.
        intros q Hq. destruct (Hall q Hq) as [Hg Hq']. split; [|exact Hq'].
        rewrite Hm1, mapGet_mapSet_ne; [exact Hg|].
        intros E. apply Hp. apply list_elem_of_In, in_map_iff. now exists q. }
      specialize (IH t1 Hnd Hall1). cbn zeta in IH.
      pose proof (reportLoop_ids (fun _ => true) now rest t1) as Hsub.
      destruct (reportLoop (fun _ => true) now rest t1) as [t' ids] eqn:E.
      cbn [fst snd] in IH, Hsub.
      destruct IH as (Hids & Hdc & Hcfg & Hkeys & Hin & Hout).
      cbn [fst snd map length]. repeat split.
      * now rewrite Hids.
      * rewrite Hdc. unfold t1. simpl. lia.
      * exact Hcfg.
      * rewrite Hkeys, Hm1. apply mapSet_keys. congruence.
      * intros k [<-|Hk].
        -- rewrite Hout, Hm1, mapGet_mapSet_eq, Hget; [reflexivity|].
           intros Hk. apply Hp, list_elem_of_In, Hsub, Hk.
        -- rewrite (Hin k Hk), Hm1, mapGet_mapSet_ne; [reflexivity|].
           intros <-. apply Hp, list_elem_of_In, Hsub, Hk.
      * intros k Hk. rewrite Hout by (intros Hk'; apply Hk; now right).
        rewrite Hm1, mapGet_mapSet_ne; [reflexivity|]. intros <-. apply Hk. now left.
    + apply (IH t Hnd Hall).
Qed.

Lemma NoDup_map_filter {A B : Type} (f : A -> B) (P : A -> bool) (l : list A) :
  NoDup (map f l) -> NoDup (map f (List.filter P l)).
Proof.
  induction l as [|x l IH]; simpl; [trivial|].
  rewrite NoDup_cons. intros [Hx Hl]. destruct (P x); simpl; [|auto].
  apply NoDup_cons. split; [|auto].
  intros Hin. apply Hx. apply list_elem_of_In, in_map_iff in Hin.
  destruct Hin as [y [E Hy]]. apply filter_In in Hy.
  apply list_elem_of_In, in_map_iff. exists y. tauto.
Qed.

Lemma keyed_ids (m : list (Z * TrackedPromise)) :
  keyed m -> map asyncId (map snd m) = map fst m.
Proof.
  induction 1 as [|e m He _ IH]; simpl; [reflexivity|]. now rewrite He, IH.
Qed.

Lemma pending_ids_NoDup (t : Tracker) :
  NoDup (map fst (promises t)) -> keyed (promises t) ->
  NoDup (map asyncId (getPendingPromises t)).
Proof.
  intros Hnd Hk. unfold getPendingPromises.
  rewrite (Permutation_map asyncId (sortBy_perm _ _)).
  apply NoDup_map_filter. now rewrite keyed_ids.
Qed.

Lemma pending_entries (t : Tracker) :
  NoDup (map fst (promises t)) -> keyed (promises t) ->
  Forall (fun p => JS.mapGet (asyncId p) (promises t) = Some p /\ isPending p = true)
         (getPendingPromises t).
Proof.
  intros Hnd Hk. apply List.Forall_forall. intros p Hp.
  apply In_pending in Hp. destruct Hp as [[k Hin] Hpend]. split; [|exact Hpend].
  unfold keyed in Hk. rewrite List.Forall_forall in Hk.
  specialize (Hk _ Hin). simpl in Hk. rewrite Hk. now apply In_mapGet.
Qed.

Lemma checkForDeadlocks_once (t : Tracker) (now now' : Z) :
  NoDup (map fst (promises t)) ->
  keyed (promises t) ->
  let r := checkForDeadlocks (fun _ => true) t now in
  snd r = map asyncId
            (List.filter (fun p => now - createdAt p >? deadlockThreshold (config t))
                         (getPendingPromises t))
  /\ deadlockCount (fst r) = deadlockCount t + Z.of_nat (length (snd r))
  /\ (forall id, In id (snd r) ->
        ~ In id (snd (checkForDeadlocks (fun _ => true) (fst r) now'))).
Proof.
  intros Hnd Hk. cbn zeta. unfold checkForDeadlocks at 1 2 3 4.
  pose proof (reportLoop_all now (getPendingPromises t) t
                (pending_ids_NoDup t Hnd Hk) (pending_entries t Hnd Hk)) as H.
  cbn zeta in H. destruct H as (Hids & Hdc & _ & Hkeys & Hin & Hout).
  split; [exact Hids|]. split; [exact Hdc|].
  intros id Hid Hagain. unfold checkForDeadlocks in Hagain.
  apply reportLoop_ids, in_map_iff in Hagain. destruct Hagain as [p [Ep Hp]].
  apply In_pending in Hp. destruct Hp as [[k Hkp] Hpend].
  assert (Hnd' : NoDup (map fst (promises
            (fst (reportLoop (fun _ => true) now (getPendingPromises t) t))))).
  { now rewrite Hkeys. }
  pose proof (In_mapGet _ _ _ Hnd' Hkp) as Hget.
  assert (Hdec : In k (snd (reportLoop (fun _ => true) now (getPendingPromises t) t))
                 \/ ~ In k (snd (reportLoop (fun _ => true) now (getPendingPromises t) t))).
  { destruct (in_dec Z.eq_dec k
                (snd (reportLoop (fun _ => true) now (getPendingPromises t) t))); auto. }
  destruct Hdec as [Hyes|Hno].
  - rewrite (Hin k Hyes) in Hget.
    destruct (JS.mapGet k (promises t)) as [q|]; [|discriminate].
    simpl in Hget. injection Hget as <-. discriminate Hpend.
  - rewrite (Hout k Hno) in Hget. apply mapGet_In in Hget.
    unfold keyed in Hk. rewrite List.Forall_forall in Hk.
    specialize (Hk _ Hget). simpl in Hk. congruence.
Qed.


Lemma mark_wellformed (s : PStatus) (id : Z) (m : list (Z * TrackedPromise)) :
  NoDup (map fst m) /\ keyed m ->
  NoDup (map fst (mark s id m)) /\ keyed (mark s id m).
Proof.
  intros [Hnd Hk]. unfold mark. destruct (JS.mapGet id m) as [q|] eqn:E; [|now split].
  split; [now apply mapSet_NoDup|].
  apply Forall_mapSet; [exact Hk|]. simpl.
  apply mapGet_In in E. unfold keyed in Hk. rewrite List.Forall_forall in Hk.
  exact (Hk _ E).
Qed.

Lemma reportLoop_wellformed (emitReturns : Z -> bool) (now : Z) (ps : list TrackedPromise) :
  forall t : Tracker,
    NoDup (map fst (promises t)) /\ keyed (promises t) ->
    NoDup (map fst (promises (fst (reportLoop emitReturns now ps t))))
    /\ keyed (promises (fst (reportLoop emitReturns now ps t))).
Proof.
  induction ps as [|p ps IH]; intros t Ht; simpl; [assumption|].
  destruct (now - createdAt p >? deadlockThreshold (config t)); [|now apply IH].
  destruct (match JS.mapGet (asyncId p) (promises t) with
            | Some q => negb (isPending q)
            | None => false
            end); [now apply IH|].
  destruct (emitReturns (asyncId p)); [|assumption].
  specialize (IH (mkTracker (mark rejected (asyncId p) (promises t)) (config t)
                            (deadlockCount t + 1))
                 (mark_wellformed _ _ _ Ht)).
  now destruct (reportLoop emitReturns now ps _).
Qed.

(** Every call keeps the keys of the map distinct and each entry under its
    own id. *)
Lemma step_wellformed (t : Tracker) (c : Call) :
  NoDup (map fst (promises t)) /\ keyed (promises t) ->
  NoDup (map fst (promises (step t c))) /\ keyed (promises (step t c)).
Proof.
  intros [Hnd Hk]. destruct c as [id ty trigger stack now|id|id|emitReturns now|]; simpl.
  - unfold onInit. destruct (negb (String.eqb ty "PROMISE")); [now split|].
    destruct (parseStack stack) as [f l] eqn:Ep.
    destruct (Stack.isGuardianInternal f) eqn:Ei; [now split|].
    cbn [promises].
    assert (H1 : NoDup (map fst (promises
                   (if Z.of_nat (length (promises t)) >=? maxTrackedPromises (config t)
                    then cleanupOldPromises t else t)))
                 /\ keyed (promises
                   (if Z.of_nat (length (promises t)) >=? maxTrackedPromises (config t)
                    then cleanupOldPromises t else t))).
    { destruct (Z.of_nat (length (promises t)) >=? maxTrackedPromises (config t));
        [|now split].
      unfold cleanupOldPromises. cbn [promises].
      split; [now apply deleteAll_NoDup|].
      generalize (firstn (toRemove (sortedSettled (promises t)))
                         (sortedSettled (promises t))).
      intros ks. revert Hk. generalize (promises t).
      induction ks as [|d ks IH]; intros m Hm; simpl; [assumption|].
      apply IH, Forall_mapDelete, Hm. }
    destruct H1 as [H1 H2]. split; [now apply mapSet_NoDup|].
    now apply Forall_mapSet.
  - unfold onDestroy. destruct (JS.mapGet id (promises t)) as [p|] eqn:E; [|now split].
    destruct (isPending p); [|now split]. cbn [promises].
    split; [now apply mapSet_NoDup|].
    apply Forall_mapSet; [assumption|]. simpl.
    apply mapGet_In in E. unfold keyed in Hk. rewrite List.Forall_forall in Hk.
    exact (Hk _ E).
  - split; [now apply mapDelete_NoDup|now apply Forall_mapDelete].
  - now apply reportLoop_wellformed.
  - split; constructor.
Qed.

Lemma run_wellformed (cs : list Call) :
  forall t : Tracker,
    NoDup (map fst (promises t)) /\ keyed (promises t) ->
    NoDup (map fst (promises (run t cs))) /\ keyed (promises (run t cs)).
Proof.
  induction cs as [|c cs IH]; intros t Ht; simpl; [assumption|].
  apply IH, step_wellformed, Ht.
Qed.

(** X12. [checkForDeadlocks], on a tracker in any state its calls can bring it
    to and with an event store whose [emit] returns: the entries reported are
    the pending entries older than the threshold, oldest first; the deadlock
    count grows by their number; and no later check reports one of them again. *)
Theorem checkForDeadlocks_reports_stuck_promises_once
    (c : PromiseConfig) (cs : list Call) (now now' : Z) :
  let t := run (create c) cs in
  let r := checkForDeadlocks (fun _ => true) t now in
  snd r = map asyncId
            (List.filter (fun p => now - createdAt p >? deadlockThreshold (config t))
                         (getPendingPromises t))
  /\ deadlockCount (fst r) = deadlockCount t + Z.of_nat (length (snd r))
  /\ (forall id, In id (snd r) ->
        ~ In id (snd (checkForDeadlocks (fun _ => true) (fst r) now'))).
Proof.
  intros t.
  destruct (run_wellformed cs (create c)) as [Hnd Hk]; [split; constructor|].
  exact (checkForDeadlocks_once t now now' Hnd Hk).
Qed.

End PromiseTrackerDeadlocks.

(** ** The promise tracker: related promises and the circular flag *)

Section PromiseTrackerRelated.
Import PromiseTracker.

Variable m : list (Z * TrackedPromise).

(** The body of the loop in [traverse] for the promise with id [target]. *)
Let visit (levels : nat) (target : Z) (st : gset Z * list TrackedPromise)
    (other : TrackedPromise) : gset Z * list TrackedPromise :=
  if (triggerAsyncId other =? target) && isPending other
  then traverse levels m other (fst st, snd st ++ [other])
  else st.

Lemma traverse_extends (levels : nat) :
  forall (p : TrackedPromise) (st : gset Z * list TrackedPromise),
    exists more, snd (traverse levels m p st) = snd st ++ more.
Proof.
  induction levels as [|n IH]; intros p st; simpl.
  - exists []. now rewrite app_nil_r.
  - destruct (bool_decide (asyncId p ∈ fst st)).
    + exists []. now rewrite app_nil_r.
    + change (exists more,
                snd (fold_left (visit n (asyncId p)) (map snd m)
                               ({[asyncId p]} ∪ fst st, snd st)) = snd st ++ more).
      change (snd st) with (snd ({[asyncId p]} ∪ fst st, snd st)) at 2.
      generalize ({[asyncId p]} ∪ fst st, snd st). generalize (map snd m).
      intros l. induction l as [|o l IHl]; intros st0; simpl.
      * exists []. now rewrite app_nil_r.
      * unfold visit at 2.
        destruct ((triggerAsyncId o =? asyncId p) && isPending o).
        -- destruct (IH o (fst st0, snd st0 ++ [o])) as [more1 H1].
           destruct (IHl (traverse n m o (fst st0, snd st0 ++ [o]))) as [more2 H2].
           exists (o :: more1 ++ more2). rewrite H2, H1. simpl.
           now rewrite <- !app_assoc.
        -- apply IHl.
Qed.

Lemma visit_none (n : nat) (target : Z) (l : list TrackedPromise)
    (st : gset Z * list TrackedPromise) :
  existsb (fun q => (triggerAsyncId q =? target) && isPending q) l = false ->
  fold_left (visit n target) l st = st.
Proof.
  revert st. induction l as [|o l IH]; intros st; simpl; [reflexivity|].
  intros H. apply orb_false_iff in H. destruct H as [Ho Hl].
  unfold visit at 2. rewrite Ho. now apply IH.
Qed.

Lemma visit_some (n : nat) (target : Z) (l : list TrackedPromise)
    (st : gset Z * list TrackedPromise) :
  existsb (fun q => (triggerAsyncId q =? target) && isPending q) l = true ->
  exists o more,
    triggerAsyncId o = target /\ isPending o = true
    /\ snd (fold_left (visit n target) l st) = snd st ++ o :: more.
Proof.
  revert st. induction l as [|o l IH]; intros st; simpl; [discriminate|].
  destruct ((triggerAsyncId o =? target) && isPending o) eqn:Eo.
  - intros _. apply andb_true_iff in Eo. destruct Eo as [Et Ep].
    apply Z.eqb_eq in Et.
    unfold visit at 2. rewrite Et, Z.eqb_refl, Ep. simpl.
    destruct (traverse_extends n o (fst st, snd st ++ [o])) as [more1 H1].
    assert (H2 : exists more2,
               snd (fold_left (visit n target) l
                              (traverse n m o (fst st, snd st ++ [o])))
               = snd (traverse n m o (fst st, snd st ++ [o])) ++ more2).
    { generalize (traverse n m o (fst st, snd st ++ [o])).
      clear. induction l as [|q l IHl]; intros st0; simpl.
      - exists []. now rewrite app_nil_r.
      - unfold visit at 2.
        destruct ((triggerAsyncId q =? target) && isPending q); [|apply IHl].
        destruct (traverse_extends n q (fst st0, snd st0 ++ [q])) as [more1 H1].
        destruct (IHl (traverse n m q (fst st0, snd st0 ++ [q]))) as [more2 H2].
        exists (q :: more1 ++ more2). rewrite H2, H1. simpl.
        now rewrite <- !app_assoc. }
    destruct H2 as [more2 H2].
    exists o, (more1 ++ more2). repeat split; try assumption.
    rewrite H2, H1. simpl. now rewrite <- !app_assoc.
  - simpl. intros H. unfold visit at 2. rewrite Eo. now apply IH.
Qed.

End PromiseTrackerRelated.

Section PromiseTrackerCircular.
Import PromiseTracker.

Lemma findRelatedPromises_first (t : Tracker) (p : TrackedPromise) :
  let child q := (triggerAsyncId q =? asyncId p) && isPending q in
  (existsb child (map snd (promises t)) = false /\ findRelatedPromises t p = [])
  \/ (existsb child (map snd (promises t)) = true
      /\ exists o more, triggerAsyncId o = asyncId p /\ isPending o = true
                        /\ findRelatedPromises t p = o :: more).
Proof.
  cbn zeta. unfold findRelatedPromises. simpl.
  rewrite bool_decide_eq_false_2 by set_solver.
  destruct (existsb (fun q => (triggerAsyncId q =? asyncId p) && isPending q)
                    (map snd (promises t))) eqn:E.
  - right. split; [reflexivity|].
    destruct (visit_some (promises t) 10 (asyncId p) (map snd (promises t))
                         ({[asyncId p]} ∪ ∅, []) E)
      as (o & more & Ho & Hp & Hs).
    exists o, more. repeat split; assumption.
  - left. split; [reflexivity|].
    pose proof (visit_none (promises t) 10 (asyncId p) (map snd (promises t))
                           ({[asyncId p]} ∪ ∅, []) E) as H.
    simpl in H. simpl. now rewrite H.
Qed.

(** X13. [findRelatedPromises] and [detectCircularWait] as [checkForDeadlocks]
    calls them, for a pending promise the map holds: the flag [isCircular] is
    true exactly when some pending entry was triggered by the promise itself,
    which is also exactly when the list of related promises is not empty. No
    cycle among the promises is needed for the flag. *)
Theorem circular_flag_means_a_pending_child (t : Tracker) (p : TrackedPromise) :
  JS.mapGet (asyncId p) (promises t) = Some p ->
  isPending p = true ->
  let child q := (triggerAsyncId q =? asyncId p) && isPending q in
  detectCircularWait t p (findRelatedPromises t p)
  = Some (existsb child (map snd (promises t)))
  /\ (findRelatedPromises t p = [] <-> existsb child (map snd (promises t)) = false).
Proof.
  intros Hget Hpend. cbn zeta.
  destruct (findRelatedPromises_first t p) as [[E Hr]|[E (o & more & Ho & Hp & Hr)]];
    cbn zeta in E; rewrite E, Hr.
  - split; [reflexivity|tauto].
  - split; [|split; discriminate].
    unfold detectCircularWait.
    assert (Hm : promises t <> []).
    { intros Hnil. rewrite Hnil in Hget. discriminate. }
    destruct (length (promises t)) as [|k] eqn:El.
    { apply length_zero_iff_nil in El. congruence. }
    cbn [length Nat.add]. cbn [someCircle hasCircle].
    rewrite size_empty. cbn [Nat.ltb Nat.leb]. rewrite andb_false_r.
    rewrite bool_decide_eq_false_2 by set_solver.
    rewrite Ho, Hget, Hpend, Z.eqb_refl.
    rewrite (right_id_L ∅ (∪)), size_singleton. reflexivity.
Qed.

Lemma circular_flag_means_a_pending_child_witness :
  let t := run Samples.smallTracker
               [Samples.initUser 1; Init 2 "PROMISE" 1 Samples.userStack 1002] in
  let p := mkTracked 1 "PROMISE" 0 1001 Samples.userStack pending
                     (Some "/app/src/server.js") (Some 42) in
  detectCircularWait t p (findRelatedPromises t p) = Some true.
Proof.
  intros t p.
  refine (proj1 (circular_flag_means_a_pending_child t p _ _)).
  - vm_compute. reflexivity.
  - reflexivity.
Defined.

Lemma size_list_to_set_le (l : list Z) :
  (size (list_to_set l : gset Z) <= length l)%nat.
Proof.
  induction l as [|x l IH].
  - rewrite list_to_set_nil, size_empty. simpl. lia.
  - rewrite list_to_set_cons, size_union_alt, size_singleton.
    assert (Hle : (size (list_to_set l ∖ {[x]} : gset Z)
                   <= size (list_to_set l : gset Z))%nat).
    { apply subseteq_size. intros y Hy. apply elem_of_difference in Hy. tauto. }
    simpl. lia.
Qed.

Lemma hasCircle_answers (m : list (Z * TrackedPromise)) (target : Z) (U : gset Z) :
  (forall k q, JS.mapGet k m = Some q -> asyncId q ∈ U) ->
  forall (fuel : nat) (current : TrackedPromise) (visited : gset Z),
    asyncId current ∈ U -> visited ⊆ U -> (size (U ∖ visited) < fuel)%nat ->
    exists b visited',
      hasCircle fuel m target current visited = (Some b, visited')
      /\ visited' ⊆ U.
Proof.
  intros Hm. induction fuel as [|fuel IH]; intros current visited Hc Hv Hf; [lia|].
  simpl.
  destruct ((asyncId current =? target) && (0 <? size visited)%nat);
    [now exists true, visited|].
  destruct (bool_decide (asyncId current ∈ visited)) eqn:Ev;
    [now exists false, visited|].
  apply bool_decide_eq_false in Ev.
  assert (Hv' : {[asyncId current]} ∪ visited ⊆ U).
  { apply union_subseteq. split; [now apply singleton_subseteq_l|exact Hv]. }
  destruct (JS.mapGet (triggerAsyncId current) m) as [trigger|] eqn:Et;
    [|now exists false, ({[asyncId current]} ∪ visited)].
  destruct (isPending trigger); [|now exists false, ({[asyncId current]} ∪ visited)].
  apply IH; [exact (Hm _ _ Et)|exact Hv'|].
  assert (Hlt : (size (U ∖ ({[asyncId current]} ∪ visited)) < size (U ∖ visited))%nat).
  { apply subset_size. split.
    - intros y. rewrite !elem_of_difference, elem_of_union. tauto.
    - intros Hsub. specialize (Hsub (asyncId current)).
      rewrite !elem_of_difference, elem_of_union, elem_of_singleton in Hsub. tauto. }
  lia.
Qed.

(** X14. [detectCircularWait] returns, whatever the map holds and whatever
    list it is given, also when the trigger links of the pending entries form
    a cycle: the set of visited ids stops the walk. *)
Theorem detectCircularWait_returns (t : Tracker) (p : TrackedPromise)
    (related : list TrackedPromise) :
  detectCircularWait t p related = Some true
  \/ detectCircularWait t p related = Some false.
Proof.
  unfold detectCircularWait.
  set (U := list_to_set (map asyncId (map snd (promises t)) ++ map asyncId related)
            : gset Z).
  assert (HU : (size U < S (length (promises t) + length related))%nat).
  { pose proof (size_list_to_set_le
                  (map asyncId (map snd (promises t)) ++ map asyncId related)) as H.
    rewrite length_app, !length_map in H. unfold U. lia. }
  assert (Hm : forall k q, JS.mapGet k (promises t) = Some q -> asyncId q ∈ U).
  { intros k q Hq. apply mapGet_In in Hq. unfold U.
    apply elem_of_list_to_set, list_elem_of_In, in_or_app. left.
    apply in_map, in_map_iff. now exists (k, q). }
  assert (Hr : forall r, In r related -> asyncId r ∈ U).
  { intros r Hin. unfold U.
    apply elem_of_list_to_set, list_elem_of_In, in_or_app. right. now apply in_map. }
  assert (Hv : (∅ : gset Z) ⊆ U) by set_solver.
  revert HU Hr Hv. generalize (S (length (promises t) + length related)).
  generalize (∅ : gset Z). clearbody U.
  induction related as [|r rest IH]; intros visited fuel HU Hr Hv; simpl; [now right|].
  destruct (hasCircle_answers (promises t) (asyncId p) U Hm fuel r visited)
    as (b & visited' & E & Hv'); [apply Hr; now left|exact Hv| |].
  { assert (Hle : (size (U ∖ visited) <= size U)%nat).
    { apply subseteq_size. intros y Hy. apply elem_of_difference in Hy. tauto. }
    lia. }
  rewrite E. destruct b; [now left|].
  apply IH; [exact HU|intros r' Hin; apply Hr; now right|exact Hv'].
Qed.

End PromiseTrackerCircular.

(** ** The unawaited-promise detector *)

Section DetectorMore.
Import UnawaitedPromiseDetector.

Lemma mapSet_mapSet {K V : Type} `{EqDecision K} (k : K) (v v' : V) (m : list (K * V)) :
  JS.mapSet k v' (JS.mapSet k v m) = JS.mapSet k v' m.
Proof.
  induction m as [|[k0 v0] m IH]; simpl.
  - now destruct (decide (k = k)).
  - destruct (decide (k = k0)) as [E|E]; simpl.
    + now destruct (decide (k = k)).
    + destruct (decide (k = k0)); [contradiction|]. now rewrite IH.
Qed.

Lemma construct_handled (d : Detector) (stack : string) (now : Z) :
  Forall (fun e => isAwaited (snd e) = true) (trackedPromises d) ->
  Forall (fun e => isAwaited (snd e) = true) (trackedPromises (construct d stack now)).
Proof.
  intros Hd. unfold construct. destruct (parseStack stack) as [f l].
  destruct (Stack.isGuardianInternal f); [assumption|].
  unfold continuationAttached. cbn [trackedPromises config promiseCounter].
  rewrite mapGet_mapSet_eq. cbn [trackedPromises]. rewrite mapSet_mapSet.
  now apply Forall_mapSet.
Qed.

Lemma warnLoop_handled (emitReturns : Z -> bool) (now : Z)
    (es : list (Z * TrackedPromiseCreation)) (d : Detector) :
  Forall (fun e => isAwaited (snd e) = true) es ->
  warnLoop emitReturns now es d = (d, []).
Proof.
  induction 1 as [|[id tr] es Htr _ IH]; simpl; [reflexivity|].
  simpl in Htr. now rewrite Htr.
Qed.

Lemma step_handled (d : Detector) (c : Call) :
  Forall (fun e => isAwaited (snd e) = true) (trackedPromises d) ->
  Forall (fun e => isAwaited (snd e) = true) (trackedPromises (step d c)).
Proof.
  intros Hd. destruct c as [stack now|id|id|emitReturns now|]; simpl.
  - now apply construct_handled.
  - unfold continuationAttached.
    destruct (JS.mapGet id (trackedPromises d)); [|assumption].
    now apply Forall_mapSet.
  - now apply Forall_mapDelete.
  - unfold checkUnawaitedPromises. now rewrite warnLoop_handled.
  - constructor.
Qed.

Lemma run_handled (cs : list Call) :
  forall d : Detector,
    Forall (fun e => isAwaited (snd e) = true) (trackedPromises d) ->
    Forall (fun e => isAwaited (snd e) = true) (trackedPromises (run d cs)).
Proof.
  induction cs as [|c cs IH]; intros d Hd; simpl; [assumption|].
  apply IH, step_handled, Hd.
Qed.

(** X15. The patched constructor calls the patched [then] of the promise it
    has just recorded, which marks the entry as awaited. So in every state the
    detector can reach, whatever the application does with its promises, a
    check reports nothing and removes nothing, and the statistics count no
    unawaited and no suspicious promise. *)
Theorem detector_never_reports (c : UnawaitedPromiseConfig) (cs : list Call)
    (emitReturns : Z -> bool) (now : Z) :
  let d := run (create c) cs in
  checkUnawaitedPromises emitReturns d now = (d, [])
  /\ s_unawaited (getStats d now) = 0
  /\ s_suspicious (getStats d now) = 0.
Proof.
  intros d.
  assert (Hd : Forall (fun e => isAwaited (snd e) = true) (trackedPromises d)).
  { apply run_handled. constructor. }
  split; [now apply warnLoop_handled|].
  unfold getStats. cbn [s_unawaited s_suspicious].
  rewrite !filter_none; [split; reflexivity| |].
  - apply List.Forall_forall. intros p Hp. apply in_map_iff in Hp.
    destruct Hp as [e [<- He]]. rewrite List.Forall_forall in Hd.
    now rewrite (Hd e He).
  - apply List.Forall_forall. intros p Hp. apply in_map_iff in Hp.
    destruct Hp as [e [<- He]]. rewrite List.Forall_forall in Hd.
    now rewrite (Hd e He).
Qed.

End DetectorMore.

(** ** Custom metrics: histograms, gauges and label order *)

Section CustomMetricsMore.
Import CustomMetrics.
Context (lc : string -> string -> Z).

Lemma sorted_nth_le (l : list Z) :
  StronglySorted Z.le l ->
  forall i j : nat, (i <= j < length l)%nat -> nth i l 0 <= nth j l 0.
Proof.
  induction 1 as [|x l Hs IH Hall]; intros i j Hij; simpl in Hij; [lia|].
  destruct i as [|i], j as [|j]; simpl; try lia.
  - rewrite List.Forall_forall in Hall. apply Hall, nth_In. lia.
  - apply IH. lia.
Qed.

(** X16. [getHistogramStats], for a registry built by any operations from the
    empty one, with integer observations: when it returns statistics they
    describe between 1 and 1000 observations, and the minimum, the three
    percentiles and the maximum lie in this order.  (The observations of the
    embedding are integers; the sum and the mean, which the sources compute
    in binary64 arithmetic, are not part of this statement.) *)
Theorem histogram_stats_are_ordered (ops : list Op) (name : string)
    (ls : option Labels) (s : HistogramStats) :
  getHistogramStats lc (run lc empty ops) name ls = Some s ->
  1 <= count s <= 1000
  /\ min s <= p50 s /\ p50 s <= p95 s /\ p95 s <= p99 s /\ p99 s <= max s.
Proof.
  intros Hs.
  destruct (histograms (run lc empty ops) !! getKey lc name ls) as [values|] eqn:Ev;
    [|unfold getHistogramStats in Hs; now rewrite Ev in Hs].
  assert (Hne : values <> []).
  { intros ->. unfold getHistogramStats in Hs. now rewrite Ev in Hs. }
  assert (Hcap : Z.of_nat (length values) <= 1000).
  { apply (run_histograms_capped lc ops empty) with (k := getKey lc name ls);
      [|exact Ev].
    intros k vs. simpl. rewrite lookup_empty. discriminate. }
  destruct (getHistogramStats_spec lc _ name ls values Ev Hne Hcap)
    as (Hsorted & Hperm & H99 & E).
  rewrite E in Hs. injection Hs as <-. cbn [count min max p50 p95 p99].
  set (sorted := JS.sortBy (fun a b => a - b) values) in *.
  assert (Hlen : length sorted = length values) by apply sortBy_length.
  set (n := Z.of_nat (length values)) in *.
  assert (Hn : 1 <= n).
  { subst n. destruct values; [congruence|simpl; lia]. }
  assert (H0 : 0 <= n * 50 / 100) by (apply Z.div_pos; lia).
  assert (H1 : n * 50 / 100 <= n * 95 / 100) by (apply Z.div_le_mono; lia).
  assert (H2 : n * 95 / 100 <= n * 99 / 100) by (apply Z.div_le_mono; lia).
  assert (Hlast : (length values - 1 < length sorted)%nat) by lia.
  split; [lia|].
  split; [apply (sorted_nth_le sorted Hsorted); lia|].
  split; [apply (sorted_nth_le sorted Hsorted); lia|].
  split; [apply (sorted_nth_le sorted Hsorted); lia|].
  apply (sorted_nth_le sorted Hsorted); lia.
Qed.

Lemma latest_app {A : Type} (k : nat) (a b : list A) :
  skipn (length (skipn (length a - k) a ++ b) - k) (skipn (length a - k) a ++ b)
  = skipn (length (a ++ b) - k) (a ++ b).
Proof.
  assert (E : skipn (length a - k) a ++ b = skipn (length a - k) (a ++ b)).
  { rewrite skipn_app. replace (length a - k - length a)%nat with 0%nat by lia.
    reflexivity. }
  rewrite E, skipn_skipn, length_skipn. f_equal. rewrite length_app. lia.
Qed.

Lemma recordHistogram_latest (r : Registry) (name : string) (ls : option Labels)
    (v : Z) :
  Z.of_nat (length (default [] (histograms r !! getKey lc name ls))) <= 1000 ->
  let pushed := default [] (histograms r !! getKey lc name ls) ++ [v] in
  histograms (recordHistogram lc r name v ls) !! getKey lc name ls
  = Some (skipn (length pushed - 1000) pushed).
Proof.
  intros Hcap. cbn zeta. unfold recordHistogram. cbn [histograms].
  rewrite lookup_insert_eq. f_equal.
  set (old := default [] (histograms r !! getKey lc name ls)) in *.
  assert (Hlen : length (old ++ [v]) = S (length old))
    by (rewrite length_app; simpl; lia).
  destruct (Z.of_nat (length (old ++ [v])) >? 1000) eqn:E.
  - apply Z.gtb_lt in E.
    replace (length (old ++ [v]) - 1000)%nat with 1%nat by lia.
    now destruct (old ++ [v]).
  - rewrite Z.gtb_ltb in E. apply Z.ltb_ge in E.
    replace (length (old ++ [v]) - 1000)%nat with 0%nat by lia. reflexivity.
Qed.

Lemma run_record_latest (name : string) (ls : option Labels) (vs : list Z) :
  forall (r : Registry) (v : Z),
    Z.of_nat (length (default [] (histograms r !! getKey lc name ls))) <= 1000 ->
    let all := default [] (histograms r !! getKey lc name ls) ++ v :: vs in
    histograms (run lc r (map (fun x => RecordHistogram name x ls) (v :: vs)))
      !! getKey lc name ls
    = Some (skipn (length all - 1000) all).
Proof.
  induction vs as [|w vs IH]; intros r v Hcap; cbn zeta.
  - apply (recordHistogram_latest r name ls v Hcap).
  - change (run lc r (map (fun x => RecordHistogram name x ls) (v :: w :: vs)))
      with (run lc (recordHistogram lc r name v ls)
                (map (fun x => RecordHistogram name x ls) (w :: vs))).
    pose proof (recordHistogram_latest r name ls v Hcap) as Hv. cbn zeta in Hv.
    set (old := default [] (histograms r !! getKey lc name ls)) in *.
    assert (Hcap' : Z.of_nat (length (default []
                      (histograms (recordHistogram lc r name v ls)
                         !! getKey lc name ls))) <= 1000).
    { rewrite Hv. simpl. rewrite length_skipn. lia. }
    rewrite (IH _ w Hcap'), Hv. simpl default.
    rewrite (latest_app 1000 (old ++ [v]) (w :: vs)).
    now rewrite <- app_assoc.
Qed.

(** X17. [recordHistogram], on a registry built by any operations from the
    empty one: after one or more observations are recorded under a name, its
    histogram holds the observations recorded so far in the order they came,
    without all but the last 1000 of them. *)
Theorem histogram_keeps_latest_observations (ops : list Op) (name : string)
    (ls : option Labels) (v : Z) (vs : list Z) :
  let r := run lc empty ops in
  let all := default [] (histograms r !! getKey lc name ls) ++ v :: vs in
  histograms (run lc r (map (fun x => RecordHistogram name x ls) (v :: vs)))
    !! getKey lc name ls
  = Some (skipn (length all - 1000) all).
Proof.
  intros r. apply run_record_latest.
  destruct (histograms r !! getKey lc name ls) as [old|] eqn:E; simpl; [|lia].
  apply (run_histograms_capped lc ops empty) with (k := getKey lc name ls);
    [|exact E].
  intros k ws. simpl. rewrite lookup_empty. discriminate.
Qed.

Lemma getGauge_apply (r : Registry) (o : Op) (name : string) (ls : option Labels) :
  leavesGauge lc (getKey lc name ls) o ->
  getGauge lc (apply lc r o) name ls = getGauge lc r name ls.
Proof.
  destruct o as [n v l|n v l|n v l|]; simpl; try reflexivity; [|tauto].
  intros Hne. unfold getGauge, setGauge. cbn [gauges].
  now rewrite lookup_insert_ne.
Qed.

(** X18. [setGauge] and [getGauge]: a gauge reads the value it was last set
    to, whatever counters, histograms and other gauges were updated since,
    also ones of the same name. *)
Theorem gauge_reads_last_value (r : Registry) (name : string) (v : Z)
    (ls : option Labels) (ops : list Op) :
  Forall (leavesGauge lc (getKey lc name ls)) ops ->
  getGauge lc (run lc (setGauge lc r name v ls) ops) name ls = v.
Proof.
  intros Hops.
  assert (H0 : getGauge lc (setGauge lc r name v ls) name ls = v).
  { unfold getGauge, setGauge. cbn [gauges]. rewrite lookup_insert_eq.
    apply orZ_Some_0. }
  revert H0. generalize (setGauge lc r name v ls).
  induction Hops as [|o ops Ho _ IH]; intros r0 H0; simpl; [exact H0|].
  apply IH. now rewrite getGauge_apply.
Qed.

(** *** Label order *)

Let byName (a b : string * string) : Z := lc (fst a) (fst b).
Let before (a b : string * string) : Prop := byName a b < 0.

Lemma insertBy_strict (ks : list string) (x : string * string)
    (l : list (string * string)) :
  ordersNames lc ks ->
  In (fst x) ks -> (forall e, In e l -> In (fst e) ks) ->
  ~ In (fst x) (map fst l) ->
  StronglySorted before l -> StronglySorted before (JS.insertBy byName x l).
Proof.
  intros (Hirr & Htrans & Htotal) Hx Hl Hfresh Hs.
  induction Hs as [|y l Hs IH Hall]; simpl.
  - repeat constructor.
  - destruct (byName x y <? 0) eqn:E.
    + apply Z.ltb_lt in E. constructor; [now constructor|].
      constructor; [exact E|].
      rewrite List.Forall_forall in Hall |- *. intros z Hz.
      apply (Htrans (fst x) (fst y) (fst z)); auto.
      * apply Hl. now left.
      * apply Hl. now right.
      * exact (Hall z Hz).
    + apply Z.ltb_ge in E.
      assert (Hyx : before y x).
      { destruct (Htotal (fst x) (fst y)) as [H|H]; auto.
        - apply Hl. now left.
        - intros Exy. apply Hfresh. simpl. now left.
        - unfold byName in E. lia. }
      constructor.
      * apply IH; [intros e He; apply Hl; now right|].
        intros Hin. apply Hfresh. simpl. now right.
      * apply List.Forall_forall. intros z Hz.
        apply (Permutation_in _ (insertBy_perm byName x l)) in Hz.
        destruct Hz as [<-|Hz]; [exact Hyx|].
        rewrite List.Forall_forall in Hall. exact (Hall z Hz).
Qed.

Lemma sortBy_strict (ks : list string) (l : list (string * string)) :
  ordersNames lc ks -> (forall e, In e l -> In (fst e) ks) ->
  NoDup (map fst l) ->
  StronglySorted before (JS.sortBy byName l).
Proof.
  intros Hord Hl Hnd. unfold JS.sortBy.
  assert (Hgen : forall acc : list (string * string),
             (forall e, In e acc -> In (fst e) ks) ->
             NoDup (map fst (acc ++ l)) ->
             StronglySorted before acc ->
             StronglySorted before
               (fold_left (fun acc x => JS.insertBy byName x acc) l acc)).
  { clear Hnd. induction l as [|x l IH]; intros acc Hacc Hnd Hs; simpl; [exact Hs|].
    assert (Hfresh : ~ In (fst x) (map fst acc)).
    { rewrite map_app in Hnd. simpl in Hnd.
      apply NoDup_ListNoDup, List.NoDup_remove_2 in Hnd.
      intros Hin. apply Hnd, in_or_app. now left. }
    apply IH.
    - intros e He. apply Hl. now right.
    - intros e He. apply (Permutation_in _ (insertBy_perm byName x acc)) in He.
      destruct He as [<-|He]; [apply Hl; now left|now apply Hacc].
    - assert (P : Permutation (JS.insertBy byName x acc ++ l) (acc ++ x :: l)).
      { rewrite (insertBy_perm byName x acc). apply Permutation_middle. }
      now rewrite (Permutation_map fst P).
    - apply (insertBy_strict ks); auto. apply Hl. now left. }
  apply Hgen; [intros e []|exact Hnd|constructor].
Qed.

Lemma strict_sorted_unique (ks : list string) (l1 : list (string * string)) :
  ordersNames lc ks ->
  forall l2 : list (string * string),
    (forall e, In e l1 -> In (fst e) ks) ->
    StronglySorted before l1 -> StronglySorted before l2 -> Permutation l1 l2 ->
    l1 = l2.
Proof.
  intros (Hirr & Htrans & Htotal).
  induction l1 as [|x l1 IH]; intros l2 Hl H1 H2 Hp.
  - apply Permutation_nil in Hp. now subst.
  - destruct l2 as [|y l2]; [apply Permutation_sym, Permutation_nil in Hp; discriminate|].
    apply StronglySorted_inv in H1. destruct H1 as [H1 Hx].
    apply StronglySorted_inv in H2. destruct H2 as [H2 Hy].
    rewrite List.Forall_forall in Hx, Hy.
    assert (Exy : x = y).
    { assert (Hxin : In x (y :: l2)) by (apply (Permutation_in _ Hp); now left).
      assert (Hyin : In y (x :: l1))
        by (apply (Permutation_in _ (Permutation_sym Hp)); now left).
      destruct Hxin as [E|Hxin]; [now symmetry|].
      destruct Hyin as [E|Hyin]; [exact E|].
      exfalso. apply (Hirr (fst x)); [apply Hl; now left|].
      apply (Htrans (fst x) (fst y) (fst x)).
      - apply Hl. now left.
      - apply Hl. now right.
      - apply Hl. now left.
      - exact (Hx y Hyin).
      - exact (Hy x Hxin). }
    subst y. f_equal. apply IH; auto.
    + intros e He. apply Hl. now right.
    + now apply Permutation_cons_inv in Hp.
Qed.

Lemma getKey_permutation (name : string) (l l' : Labels) :
  NoDup (map fst l) ->
  Permutation l l' ->
  ordersNames lc (map fst l) ->
  getKey lc name (Some l) = getKey lc name (Some l').
Proof.
  intros Hnd Hp Hord.
  assert (Hs : JS.sortBy byName l = JS.sortBy byName l').
  { apply (strict_sorted_unique (map fst l)); [exact Hord| | | |].
    - intros e He. apply sortBy_In in He. now apply in_map.
    - apply (sortBy_strict (map fst l)); [exact Hord| |exact Hnd].
      intros e He. now apply in_map.
    - apply (sortBy_strict (map fst l)); [exact Hord| |].
      + intros e He. apply in_map. apply (Permutation_in _ (Permutation_sym Hp) He).
      + now rewrite <- (Permutation_map fst Hp).
    - now rewrite !sortBy_perm. }
  destruct l as [|e l], l' as [|e' l'].
  - reflexivity.
  - apply Permutation_nil in Hp. discriminate.
  - apply Permutation_sym, Permutation_nil in Hp. discriminate.
  - unfold getKey. unfold byName in Hs. now rewrite Hs.
Qed.

(** X19. [getKey]: the key of a metric does not depend on the order in which
    the labels are written, as long as the collation orders their names: two
    label objects with the same entries give the same key, and so reach the
    same counter. *)
Theorem getKey_ignores_label_order (name : string) (l l' : Labels) :
  NoDup (map fst l) ->
  Permutation l l' ->
  ordersNames lc (map fst l) ->
  getKey lc name (Some l) = getKey lc name (Some l')
  /\ forall r : Registry, getCounter lc r name (Some l) = getCounter lc r name (Some l').
Proof.
  intros Hnd Hp Hord.
  pose proof (getKey_permutation name l l' Hnd Hp Hord) as Hk.
  split; [exact Hk|]. intros r. unfold getCounter. now rewrite Hk.
Qed.

End CustomMetricsMore.

Lemma histogram_stats_are_ordered_witness :
  let ops := [CustomMetrics.RecordHistogram "duration" 100 None;
              CustomMetrics.RecordHistogram "duration" 200 None;
              CustomMetrics.RecordHistogram "duration" 150 None] in
  let s := CustomMetrics.statsOf [100; 200; 150] in
  CustomMetrics.min s <= CustomMetrics.p50 s.
Proof.
  intros ops s.
  refine (proj1 (proj2 (histogram_stats_are_ordered Samples.noCollation ops
                          "duration" None s _))).
  vm_compute. reflexivity.
Defined.

Lemma gauge_reads_last_value_witness :
  CustomMetrics.getGauge Samples.noCollation
    (CustomMetrics.run Samples.noCollation
       (CustomMetrics.setGauge Samples.noCollation CustomMetrics.empty "temp" 42 None)
       [CustomMetrics.IncrementCounter "temp" None None;
        CustomMetrics.RecordHistogram "temp" 5 None;
        CustomMetrics.SetGauge "other" 1 None])
    "temp" None
  = 42.
Proof.
  apply (gauge_reads_last_value Samples.noCollation).
  repeat constructor. simpl. discriminate.
Defined.

Lemma getKey_ignores_label_order_witness :
  CustomMetrics.getKey Samples.codeUnitOrder "requests"
    (Some [("route", "/a"); ("method", "GET")])
  = CustomMetrics.getKey Samples.codeUnitOrder "requests"
      (Some [("method", "GET"); ("route", "/a")]).
Proof.
  refine (proj1 (getKey_ignores_label_order Samples.codeUnitOrder "requests"
                   [("route", "/a"); ("method", "GET")]
                   [("method", "GET"); ("route", "/a")] _ _ _)).
  - apply NoDup_ListNoDup. repeat constructor; simpl; intuition discriminate.
  - apply perm_swap.
  - repeat split; simpl; intros;
      repeat match goal with
             | H : _ \/ _ |- _ => destruct H
             | H : False |- _ => destruct H
             end; subst; vm_compute in *;
      intuition (try discriminate; try reflexivity; try congruence).
Defined.

(** ** Stack traces shown in events *)

Section CleanStack.

Let free (l : string) : Prop := ~ In "010"%char (list_ascii_of_string l).

Lemma splitLines_free (s : string) : Forall free (JS.splitLines s).
Proof.
  induction s as [|c s IH]; simpl.
  - repeat constructor. intros [].
  - destruct (Ascii.eqb c "010") eqn:E.
    + constructor; [intros []|exact IH].
    + destruct (JS.splitLines s) as [|l ls]; [repeat constructor|].
      * intros [H|[]]. subst c. discriminate.
      * apply List.Forall_cons_iff in IH. destruct IH as [Hl Hls].
        constructor; [|exact Hls].
        intros [H|H]; [subst c; discriminate|now apply Hl].
Qed.

Lemma splitLines_line (x : string) (s : string) :
  free x ->
  JS.splitLines (x +:+ JS.newline +:+ s) = x :: JS.splitLines s
  /\ JS.splitLines x = [x].
Proof.
  induction x as [|c x IH]; intros Hx; simpl.
  - split; reflexivity.
  - assert (Hc : Ascii.eqb c "010" = false).
    { apply Ascii.eqb_neq. intros ->. apply Hx. now left. }
    assert (Hx' : free x) by (intros H; apply Hx; now right).
    destruct (IH Hx') as [IH1 IH2]. rewrite Hc. split.
    + change (x +:+ JS.newline +:+ s) with (x +:+ JS.newline +:+ s) in IH1.
      now rewrite IH1.
    + now rewrite IH2.
Qed.

Lemma splitLines_join (ls : list string) :
  ls <> [] -> Forall free ls -> JS.splitLines (JS.join JS.newline ls) = ls.
Proof.
  induction ls as [|x ls IH]; [congruence|]. intros _ Hall.
  apply List.Forall_cons_iff in Hall. destruct Hall as [Hx Hls].
  destruct ls as [|y ls].
  - simpl. exact (proj2 (splitLines_line x EmptyString Hx)).
  - change (JS.join JS.newline (x :: y :: ls))
      with (x +:+ JS.newline +:+ JS.join JS.newline (y :: ls)).
    rewrite (proj1 (splitLines_line x _ Hx)). f_equal.
    apply IH; [discriminate|exact Hls].
Qed.

Lemma firstn_subset {A : Type} (n : nat) (l : list A) (x : A) :
  In x (firstn n l) -> In x l.
Proof.
  revert l. induction n as [|n IH]; intros [|y l]; simpl; try tauto.
  intros [H|H]; [now left|right; now apply IH].
Qed.

Lemma filter_all {A : Type} (f : A -> bool) (l : list A) :
  Forall (fun x => f x = true) l -> List.filter f l = l.
Proof.
  induction 1 as [|x l Hx _ IH]; simpl; [reflexivity|]. now rewrite Hx, IH.
Qed.

(** What [cleanStack] returns, read line by line: the kept lines, or one
    empty line when nothing is kept. *)
Lemma cleanLines_lines (skip : list string) (keep : nat) (stack : string) :
  let kept :=
    firstn keep
      (List.filter (fun l => forallb (fun w => negb (JS.includes l w)) skip)
                   (JS.splitLines stack)) in
  JS.splitLines (Stack.cleanLines skip keep stack)
  = match kept with [] => [EmptyString] | _ => kept end.
Proof.
  cbn zeta. unfold Stack.cleanLines.
  set (kept := firstn keep _).
  assert (Hfree : Forall free kept).
  { apply List.Forall_forall. intros l Hl. unfold kept in Hl.
    apply firstn_subset, filter_In in Hl. destruct Hl as [Hl _].
    pose proof (splitLines_free stack) as H. rewrite List.Forall_forall in H.
    exact (H l Hl). }
  destruct kept as [|x kept'] eqn:E; [reflexivity|].
  apply splitLines_join; [discriminate|exact Hfree].
Qed.

Lemma cleanLines_spec (skip : list string) (keep : nat) (stack : string) :
  Forall (fun w => w <> EmptyString) skip ->
  let out := JS.splitLines (Stack.cleanLines skip keep stack) in
  (length out <= Nat.max 1 keep)%nat
  /\ Forall (fun l => forallb (fun w => negb (JS.includes l w)) skip = true) out
  /\ (forall l, In l out -> l <> EmptyString -> In l (JS.splitLines stack))
  /\ Stack.cleanLines skip keep (Stack.cleanLines skip keep stack)
     = Stack.cleanLines skip keep stack.
Proof.
  intros Hskip. cbn zeta. rewrite cleanLines_lines.
  set (ok := fun l => forallb (fun w => negb (JS.includes l w)) skip).
  set (kept := firstn keep (List.filter ok (JS.splitLines stack))).
  assert (Hlen : (length kept <= keep)%nat) by apply firstn_le_length.
  assert (Hok : Forall (fun l => ok l = true) kept).
  { apply List.Forall_forall. intros l Hl. unfold kept in Hl.
    apply firstn_subset, filter_In in Hl. tauto. }
  assert (Hin : forall l, In l kept -> In l (JS.splitLines stack)).
  { intros l Hl. unfold kept in Hl. apply firstn_subset, filter_In in Hl. tauto. }
  assert (Hempty : ok EmptyString = true).
  { unfold ok. apply forallb_forall. intros w Hw.
    rewrite List.Forall_forall in Hskip. specialize (Hskip w Hw).
    destruct w; [congruence|reflexivity]. }
  assert (Hidem : Stack.cleanLines skip keep (Stack.cleanLines skip keep stack)
                  = Stack.cleanLines skip keep stack).
  { unfold Stack.cleanLines at 1. rewrite cleanLines_lines.
    fold ok. fold kept. unfold Stack.cleanLines. fold ok. fold kept.
    destruct kept as [|x kept'] eqn:E.
    - simpl. rewrite Hempty. generalize keep. now intros [|[|k]].
    - rewrite (filter_all ok _ Hok). rewrite firstn_all2 by exact Hlen.
      reflexivity. }
  destruct kept as [|x kept'] eqn:E.
  - repeat split.
    + simpl. lia.
    + repeat constructor. exact Hempty.
    + intros l [<-|[]] Hl. congruence.
    + exact Hidem.
  - repeat split.
    + lia.
    + exact Hok.
    + intros l Hl _. now apply Hin.
    + exact Hidem.
Qed.

(** X20. [cleanStack] of the promise tracker and of the unawaited-promise
    detector: the result has at most 10 lines (8 for the detector), none of
    them holds one of the words [node_modules], [node:internal] and
    [async_hooks] ([unawaitedPromiseDetector] for the detector), every line
    that is not empty is a line of the stack given, and cleaning a cleaned
    stack changes nothing. *)
Theorem cleanStack_keeps_user_lines (stack : string) :
  let cleans (clean : string -> string) (keep : nat) (skip : list string) :=
    let out := JS.splitLines (clean stack) in
    (length out <= keep)%nat
    /\ Forall (fun l => Forall (fun w => JS.includes l w = false) skip) out
    /\ (forall l, In l out -> l <> EmptyString -> In l (JS.splitLines stack))
    /\ clean (clean stack) = clean stack in
  cleans PromiseTracker.cleanStack 10%nat
         ["node_modules"; "node:internal"; "async_hooks"]
  /\ cleans UnawaitedPromiseDetector.cleanStack 8%nat
            ["node_modules"; "node:internal"; "unawaitedPromiseDetector"].
Proof.
  assert (Hgen : forall skip keep,
             Forall (fun w => w <> EmptyString) skip -> (1 <= keep)%nat ->
             let out := JS.splitLines (Stack.cleanLines skip keep stack) in
             (length out <= keep)%nat
             /\ Forall (fun l => Forall (fun w => JS.includes l w = false) skip) out
             /\ (forall l, In l out -> l <> EmptyString -> In l (JS.splitLines stack))
             /\ Stack.cleanLines skip keep (Stack.cleanLines skip keep stack)
                = Stack.cleanLines skip keep stack).
  { intros skip keep Hskip Hkeep.
    destruct (cleanLines_spec skip keep stack Hskip) as (Hlen & Hok & Hin & Hidem).
    cbn zeta. repeat split; [lia| |exact Hin|exact Hidem].
    eapply List.Forall_impl; [|exact Hok]. cbn beta. intros l Hl.
    apply List.Forall_forall. intros w Hw. rewrite forallb_forall in Hl.
    apply negb_true_iff. exact (Hl w Hw). }
  cbn zeta. split.
  - apply (Hgen ["node_modules"; "node:internal"; "async_hooks"] 10%nat);
      [repeat constructor; discriminate|lia].
  - apply (Hgen ["node_modules"; "node:internal"; "unawaitedPromiseDetector"] 8%nat);
      [repeat constructor; discriminate|lia].
Qed.

End CleanStack.

(** ** The source line of an event *)

Lemma chars_app (a b : string) :
  list_ascii_of_string (a +:+ b) = list_ascii_of_string a ++ list_ascii_of_string b.
Proof. induction a as [|c a IH]; simpl; [reflexivity|]. now rewrite IH. Qed.

Section EventSource.
Import EventStore.

(** None of the bytes that [trim] removes is the letter a. *)
Lemma isSpace_letter (a : ascii) : JS.isSpace a = true -> a <> "a"%char.
Proof. intros H ->. discriminate H. Qed.

Lemma isSpace2_letter (a b : ascii) :
  JS.isSpace2 a b = true -> a <> "a"%char /\ b <> "a"%char.
Proof.
  unfold JS.isSpace2. rewrite andb_true_iff, !Nat.eqb_eq. intros [Ha Hb].
  split; intros ->; discriminate.
Qed.

Lemma isSpace3_letter (a b c : ascii) :
  JS.isSpace3 a b c = true -> a <> "a"%char /\ b <> "a"%char /\ c <> "a"%char.
Proof.
  unfold JS.isSpace3. cbv zeta. intros H.
  repeat first [rewrite orb_true_iff in H | rewrite andb_true_iff in H
               | rewrite Nat.eqb_eq in H | rewrite Nat.leb_le in H].
  repeat split; intros ->; change (nat_of_ascii "a") with 97%nat in H; lia.
Qed.

(** [trimStart] cuts a prefix off, and the letter a is not in it. *)
Lemma trimStart_prefix (n : nat) :
  forall s : string, (String.length s <= n)%nat ->
    exists w, s = w +:+ JS.trimStart s /\ ~ In "a"%char (list_ascii_of_string w).
Proof.
  induction n as [|n IH]; intros s Hn.
  - destruct s; [|simpl in Hn; lia]. exists EmptyString. split; [reflexivity|intros []].
  - destruct s as [|a s1]; [exists EmptyString; split; [reflexivity|intros []]|].
    cbn [JS.trimStart]. simpl in Hn.
    destruct (JS.isSpace a) eqn:Ea.
    { destruct (IH s1 ltac:(lia)) as (w & E & Hw).
      exists (String a w). split; [rewrite E at 1; reflexivity|].
      simpl. intros [Ha|Ha]; [now apply (isSpace_letter a Ea)|now apply Hw]. }
    destruct s1 as [|b s2]; [exists EmptyString; split; [reflexivity|intros []]|].
    simpl in Hn.
    destruct (JS.isSpace2 a b) eqn:Eb.
    { destruct (IH s2 ltac:(lia)) as (w & E & Hw).
      destruct (isSpace2_letter a b Eb) as [Ha Hb].
      exists (String a (String b w)). split; [rewrite E at 1; reflexivity|].
      simpl. intros [H|[H|H]]; [now apply Ha|now apply Hb|now apply Hw]. }
    destruct s2 as [|c s3]; [exists EmptyString; split; [reflexivity|intros []]|].
    simpl in Hn.
    destruct (JS.isSpace3 a b c) eqn:Ec.
    { destruct (IH s3 ltac:(lia)) as (w & E & Hw).
      destruct (isSpace3_letter a b c Ec) as (Ha & Hb & Hc).
      exists (String a (String b (String c w))). split; [rewrite E at 1; reflexivity|].
      simpl. intros [H|[H|[H|H]]];
        [now apply Ha|now apply Hb|now apply Hc|now apply Hw]. }
    exists EmptyString. split; [reflexivity|intros []].
Qed.

Lemma trimStart_blank (s : string) :
  JS.trimStart s = EmptyString -> ~ In "a"%char (list_ascii_of_string s).
Proof.
  intros E. destruct (trimStart_prefix (String.length s) s (le_n _)) as (w & Es & Hw).
  rewrite E in Es. rewrite Es, chars_app, app_nil_r. exact Hw.
Qed.

Lemma trimEnd_blank (s : string) :
  JS.trimEnd s = EmptyString -> JS.trimStart s = EmptyString.
Proof.
  destruct s as [|c s]; [reflexivity|]. cbn [JS.trimEnd].
  now destruct (JS.trimStart (String c s)).
Qed.

(** A line that [trim] empties holds white space only, so not the letter a. *)
Lemma trim_blank (s : string) :
  JS.trim s = EmptyString -> ~ In "a"%char (list_ascii_of_string s).
Proof.
  unfold JS.trim. intros H. apply trimEnd_blank, trimStart_blank in H.
  destruct (trimStart_prefix (String.length s) s (le_n _)) as (w & Es & Hw).
  rewrite Es, chars_app. intros Hin. apply in_app_or in Hin. tauto.
Qed.

Lemma includes_at (l : string) :
  JS.includes l "at " = true -> In "a"%char (list_ascii_of_string l).
Proof.
  induction l as [|c l IH]; [discriminate|].
  cbn [JS.includes String.prefix list_ascii_of_string].
  destruct (ascii_dec "a" c) as [<-|Hne]; [intros _; now left|].
  intros H. right. now apply IH.
Qed.

Lemma firstUserLine_spec (lines : list string) (l : string) :
  firstUserLine lines = Some l ->
  l <> EmptyString /\ exists x, In x lines /\ l = JS.trim x.
Proof.
  induction lines as [|x lines IH]; simpl; [discriminate|].
  destruct (JS.includes x "at ") eqn:Eat; simpl.
  - destruct (negb (JS.includes x "node_modules") && negb (JS.includes x "node:internal")).
    + intros [= <-]. split; [|exists x; split; [now left|reflexivity]].
      intros Hblank. apply trim_blank in Hblank.
      apply includes_at in Eat. contradiction.
    + intros H. destruct (IH H) as [Hne (y & Hy & E)].
      split; [exact Hne|]. exists y. split; [now right|exact E].
  - intros H. destruct (IH H) as [Hne (y & Hy & E)].
    split; [exact Hne|]. exists y. split; [now right|exact E].
Qed.

(** X21. [extractSource]: the source of an event is never the empty string; it
    is either ["unknown"] or a line of the stack given to [emit] without the
    white space around it, where white space is what [trim] removes: the
    white space and line terminators of ECMAScript, those above U+007F
    included. So every event that [emit] hands to the listeners names a
    source. *)
Theorem event_source_is_never_empty (st : Store) (now : Z) (t : EventType)
    (d : Payload) (o : EmitOptions) :
  let ev := r_event (emit st now t d o) in
  source ev <> EmptyString
  /\ (source ev = "unknown"
      \/ exists s l, o_stack o = Some s /\ In l (JS.splitLines s)
                     /\ source ev = JS.trim l).
Proof.
  cbn zeta. destruct (emit_store st now t d o) as [-> _]. cbn [newEvent source].
  unfold extractSource. destruct (o_stack o) as [s|]; [|split; [discriminate|now left]].
  destruct (String.eqb s ""); [split; [discriminate|now left]|].
  destruct (firstUserLine (JS.splitLines s)) as [l|] eqn:E.
  - destruct (firstUserLine_spec _ _ E) as [Hne (x & Hx & ->)].
    split; [exact Hne|]. right. exists s, x. now repeat split.
  - destruct (nth_error (JS.splitLines s) 1) as [x|] eqn:E1; simpl.
    + destruct (String.eqb_spec (JS.trim x) "") as [Ex|Ex].
      * split; [discriminate|now left].
      * split; [exact Ex|]. right. exists s, x.
        repeat split. now apply nth_error_In in E1.
    + split; [discriminate|now left].
Qed.

End EventSource.

(** ** The alert router: the list of routes *)

Section AlertRouterRoutes.
Import EventStore AlertRouter.


End AlertRouterRoutes.

(** ** The error handler *)

Section ErrorHandlerFacts.
Import EventStore ErrorHandler.

Lemma handle_step (h : Handler) (st : Store) (now later : Z) (context : string) :
  maxErrorsCalls h = (if isDisabled h then 1 else 0) ->
  (isDisabled h = false ->
   Z.of_nat (length (errors h)) <= Z.max 0 (maxErrors (config h))) ->
  let h' := fst (handle h st now later context) in
  let st' := snd (handle h st now later context) in
  config h' = config h
  /\ maxErrorsCalls h' = (if isDisabled h' then 1 else 0)
  /\ (isDisabled h' = false ->
      Z.of_nat (length (errors h')) <= Z.max 0 (maxErrors (config h)))
  /\ (isDisabled h = false ->
      Z.of_nat (length (errors h')) <= Z.max 0 (maxErrors (config h)) + 1)
  /\ eventCounter st' - errorCount h' + maxErrorsCalls h'
     = eventCounter st - errorCount h + maxErrorsCalls h
  /\ eventEmitter st' = eventEmitter st.
Proof.
  intros Hcalls Hlen. cbn zeta. unfold handle.
  destruct (isDisabled h) eqn:Ed; cbn [fst snd].
  - rewrite Ed. repeat split; try assumption; discriminate.
  - specialize (Hlen eq_refl).
    set (kept := List.filter (fun e => now - fst e <? errorWindow (config h)) (errors h)).
    assert (Hk : (length kept <= length (errors h))%nat) by apply List.filter_length_le.
    assert (Hr : length (kept ++ [(now, context)]) = S (length kept))
      by (rewrite length_app; simpl; lia).
    destruct (Z.of_nat (length (kept ++ [(now, context)])) >? maxErrors (config h)) eqn:E;
      cbn [fst snd config maxErrorsCalls isDisabled errors errorCount].
    + repeat split; lia.
    + rewrite Z.gtb_ltb in E. apply Z.ltb_ge in E.
      destruct (emit_store st later SYSTEM_INFO (mkPayload None None) noOptions)
        as [_ ->].
      cbn [eventCounter eventEmitter]. repeat split; lia.
Qed.

Lemma handleAll_disabled (h : Handler) (st : Store) (calls : list (Z * Z * string)) :
  isDisabled h = true -> handleAll h st calls = (h, st).
Proof.
  intros Hd. induction calls as [|[[now later] context] calls IH]; simpl; [reflexivity|].
  unfold handle. now rewrite Hd.
Qed.

Lemma handleAll_spec (calls : list (Z * Z * string)) :
  forall (h : Handler) (st : Store),
    maxErrorsCalls h = (if isDisabled h then 1 else 0) ->
    Z.of_nat (length (errors h)) <= Z.max 0 (maxErrors (config h)) + 1 ->
    (isDisabled h = false ->
     Z.of_nat (length (errors h)) <= Z.max 0 (maxErrors (config h))) ->
    let h' := fst (handleAll h st calls) in
    let st' := snd (handleAll h st calls) in
    config h' = config h
    /\ maxErrorsCalls h' = (if isDisabled h' then 1 else 0)
    /\ Z.of_nat (length (errors h')) <= Z.max 0 (maxErrors (config h)) + 1
    /\ eventCounter st' - errorCount h' + maxErrorsCalls h'
       = eventCounter st - errorCount h + maxErrorsCalls h
    /\ eventEmitter st' = eventEmitter st.
Proof.
  induction calls as [|[[now later] context] calls IH]; intros h st Hc Hl1 Hl0; cbn zeta.
  - simpl. repeat split; assumption.
  - simpl. destruct (isDisabled h) eqn:Ed.
    + unfold handle. rewrite Ed. rewrite handleAll_disabled by exact Ed.
      cbn [fst snd]. rewrite Ed. repeat split; assumption.
    + pose proof (handle_step h st now later context) as Hs.
      rewrite Ed in Hs. specialize (Hs Hc Hl0). cbn zeta in Hs.
      destruct (handle h st now later context) as [h1 st1]. cbn [fst snd] in Hs.
      destruct Hs as (Hcfg & Hc1 & Hl0' & Hl1' & Hcount & Hem).
      specialize (Hl1' eq_refl).
      specialize (IH h1 st1 Hc1). rewrite Hcfg in IH.
      specialize (IH Hl1' Hl0'). cbn zeta in IH.
      destruct IH as (Hcfg2 & Hc2 & Hl2 & Hcount2 & Hem2).
      repeat split; try assumption; try congruence; lia.
Qed.

(** X23. [handle], in any run of calls on a new handler: the callback
    [onMaxErrors] is called once when the handler disables itself and not
    otherwise; the event store receives one event for every error counted
    except the one that disabled the handler; the list of recent errors never
    holds more than [maxErrors + 1] entries; and once disabled, the handler
    ignores every further call. *)
Theorem error_handler_reports_until_disabled (maxErrors0 errorWindow0 : option Z)
    (st : Store) (calls : list (Z * Z * string)) :
  let h := fst (handleAll (create maxErrors0 errorWindow0) st calls) in
  let st' := snd (handleAll (create maxErrors0 errorWindow0) st calls) in
  maxErrorsCalls h = (if isDisabled h then 1 else 0)
  /\ eventCounter st' = eventCounter st + errorCount h - maxErrorsCalls h
  /\ recentErrors (getStats h) <= Z.max 0 (maxErrors (config h)) + 1
  /\ (isDisabled h = true -> forall more, handleAll h st' more = (h, st')).
Proof.
  cbn zeta.
  pose proof (handleAll_spec calls (create maxErrors0 errorWindow0) st) as H.
  cbn zeta in H. destruct H as (Hcfg & Hc & Hl & Hcount & _).
  - reflexivity.
  - simpl. lia.
  - intros _. simpl. lia.
  - rewrite Hcfg. repeat split.
    + exact Hc.
    + simpl in Hcount. lia.
    + exact Hl.
    + intros Hd more. now apply handleAll_disabled.
Qed.

End ErrorHandlerFacts.

(** ** The memory monitor *)

Section MemoryMonitorFacts.
Import EventStore MemoryMonitor.

Lemma checkMemory_snapshots (m : Monitor) (st : Store) (s : MemorySnapshot)
    (later : Z) (suggestion : string) :
  snapshots (fst (checkMemory m st s later suggestion)) = snapshots (takeSnapshot m s)
  /\ config (fst (checkMemory m st s later suggestion)) = config m.
Proof.
  unfold checkMemory.
  destruct (rev (snapshots (takeSnapshot m s))) as [|current [|previous older]];
    [now split|now split|].
  destruct (HealthChecker.Qgtb _ (inject_Z _)).
  - destruct (_ >=? _); [|now split].
    unfold detectLeak. destruct (r_outcome _); now split.
  - destruct (HealthChecker.Qgtb 0 _); now split.
Qed.

Lemma takeSnapshot_latest (m : Monitor) (s : MemorySnapshot)
    (all : list MemorySnapshot) :
  snapshots m = skipn (length all - 100) all ->
  snapshots (takeSnapshot m s) = skipn (length (all ++ [s]) - 100) (all ++ [s]).
Proof.
  intros H. unfold takeSnapshot. cbn [snapshots].
  rewrite <- (latest_app 100 all [s]), <- H.
  assert (Hlen : (length (snapshots m) <= 100)%nat).
  { rewrite H, length_skipn. lia. }
  assert (Hp : length (snapshots m ++ [s]) = S (length (snapshots m)))
    by (rewrite length_app; simpl; lia).
  unfold maxSnapshots. destruct (Z.of_nat (length (snapshots m ++ [s])) >? 100) eqn:E.
  - apply Z.gtb_lt in E.
    replace (length (snapshots m ++ [s]) - 100)%nat with 1%nat by lia.
    now destruct (snapshots m ++ [s]).
  - rewrite Z.gtb_ltb in E. apply Z.ltb_ge in E.
    replace (length (snapshots m ++ [s]) - 100)%nat with 0%nat by lia. reflexivity.
Qed.

Lemma checkAll_latest (checks : list (MemorySnapshot * Z * string)) :
  forall (m : Monitor) (st : Store) (all : list MemorySnapshot),
    snapshots m = skipn (length all - 100) all ->
    let taken := all ++ map (fun x => fst (fst x)) checks in
    snapshots (fst (checkAll m st checks)) = skipn (length taken - 100) taken.
Proof.
  induction checks as [|[[s later] suggestion] checks IH]; intros m st all H; cbn zeta.
  - simpl. now rewrite app_nil_r.
  - simpl. pose proof (checkMemory_snapshots m st s later suggestion) as [Hs _].
    destruct (checkMemory m st s later suggestion) as [m' st']. cbn [fst] in Hs.
    rewrite (takeSnapshot_latest m s all H) in Hs.
    specialize (IH m' st' (all ++ [s]) Hs). cbn zeta in IH.
    now rewrite <- app_assoc in IH.
Qed.

(** X24. [takeSnapshot] and [checkMemory]: after [start] and any number of
    checks the monitor holds the snapshots taken so far, in the order taken,
    without all but the last 100 of them, whatever the configuration says. *)
Theorem memory_monitor_keeps_latest_snapshots (c : MemoryConfig) (first : MemorySnapshot)
    (st : Store) (checks : list (MemorySnapshot * Z * string)) :
  let m := fst (checkAll (takeSnapshot (create c) first) st checks) in
  let taken := first :: map (fun x => fst (fst x)) checks in
  snapshots m = skipn (length taken - 100) taken
  /\ Z.of_nat (length (snapshots m)) = Z.min (Z.of_nat (length taken)) 100.
Proof.
  cbn zeta.
  pose proof (checkAll_latest checks (takeSnapshot (create c) first) st [first] eq_refl)
    as H.
  cbn zeta in H. cbn [app] in H. split; [exact H|].
  rewrite H, length_skipn. lia.
Qed.

(** X25. [calculateTrend] answers [growing] exactly when there are at least
    five snapshots and the heap grew from each of the last five to the next;
    when the heap did not grow between any two of the last five, also when it
    stayed the same, the answer is [decreasing]. *)
Theorem trend_is_growing_iff (m : Monitor) :
  let recent := skipn (length (snapshots m) - 5) (snapshots m) in
  (calculateTrend m = growing <->
   (5 <= length (snapshots m))%nat /\ Sorted Z.lt (map heapUsed recent))
  /\ ((5 <= length (snapshots m))%nat ->
      Sorted Z.ge (map heapUsed recent) -> calculateTrend m = decreasing).
Proof.
  cbn zeta. unfold calculateTrend.
  destruct (length (snapshots m) <? 5)%nat eqn:E.
  - apply Nat.ltb_lt in E. split; [|lia]. split; [discriminate|lia].
  - apply Nat.ltb_ge in E.
    assert (Hlen : length (skipn (length (snapshots m) - 5) (snapshots m)) = 5%nat).
    { rewrite length_skipn. lia. }
    destruct (skipn (length (snapshots m) - 5) (snapshots m))
      as [|a [|b [|c0 [|d [|e [|f rest]]]]]]; try discriminate Hlen.
    cbn [increases map].
    assert (Hlt : Sorted Z.lt [heapUsed a; heapUsed b; heapUsed c0; heapUsed d; heapUsed e]
                  <-> heapUsed a < heapUsed b /\ heapUsed b < heapUsed c0
                      /\ heapUsed c0 < heapUsed d /\ heapUsed d < heapUsed e).
    { split.
      - intros Hs.
        apply Sorted_inv in Hs. destruct Hs as [Hs H1]. apply HdRel_inv in H1.
        apply Sorted_inv in Hs. destruct Hs as [Hs H2]. apply HdRel_inv in H2.
        apply Sorted_inv in Hs. destruct Hs as [Hs H3]. apply HdRel_inv in H3.
        apply Sorted_inv in Hs. destruct Hs as [Hs H4]. apply HdRel_inv in H4.
        tauto.
      - intros (H1 & H2 & H3 & H4). repeat (constructor; try assumption). }
    assert (Hge : Sorted Z.ge [heapUsed a; heapUsed b; heapUsed c0; heapUsed d; heapUsed e]
                  -> heapUsed a >= heapUsed b /\ heapUsed b >= heapUsed c0
                     /\ heapUsed c0 >= heapUsed d /\ heapUsed d >= heapUsed e).
    { intros Hs.
      apply Sorted_inv in Hs. destruct Hs as [Hs H1]. apply HdRel_inv in H1.
      apply Sorted_inv in Hs. destruct Hs as [Hs H2]. apply HdRel_inv in H2.
      apply Sorted_inv in Hs. destruct Hs as [Hs H3]. apply HdRel_inv in H3.
      apply Sorted_inv in Hs. destruct Hs as [Hs H4]. apply HdRel_inv in H4.
      tauto. }
    rewrite Hlt.
    destruct (heapUsed b >? heapUsed a) eqn:E1;
      destruct (heapUsed c0 >? heapUsed b) eqn:E2;
      destruct (heapUsed d >? heapUsed c0) eqn:E3;
      destruct (heapUsed e >? heapUsed d) eqn:E4;
      cbn [Nat.add Nat.leb];
      repeat match goal with
             | H : (_ >? _) = true |- _ => apply Z.gtb_lt in H
             | H : (_ >? _) = false |- _ =>
                 rewrite Z.gtb_ltb in H; apply Z.ltb_ge in H
             end;
      (split;
       [split; [try discriminate; intros _; repeat split; assumption
               |intros (_ & H1 & H2 & H3 & H4); try reflexivity; lia]
       |intros _ Hs; apply Hge in Hs; try reflexivity; lia]).
Qed.

Lemma emit_returns (st : Store) now t d o :
  listenersReturn st ->
  r_outcome (emit st now t d o) = Returned
  /\ listenersReturn (r_store (emit st now t d o)).
Proof.
  intros Hq.
  assert (Hall : forall ch ev,
             forallb (fun l => l_returns l ev) (default [] (eventEmitter st !! ch)) = true).
  { intros ch ev. apply forallb_forall. intros l Hl. exact (Hq ch l ev Hl). }
  split.
  - unfold emit, listenersOf. cbn [eventEmitter].
    rewrite (callListeners_all _ _ (Hall "event" _)).
    now rewrite (callListeners_all _ _ (Hall (typeName t) _)).
  - destruct (emit_store st now t d o) as [_ ->].
    intros ch l ev Hl. exact (Hq ch l ev Hl).
Qed.

Lemma rev_last (l : list MemorySnapshot) :
  rev l = match last l with
          | Some p => p :: tl (rev l)
          | None => []
          end.
Proof.
  destruct (rev l) as [|p older] eqn:Er.
  - apply (f_equal (@rev _)) in Er. rewrite rev_involutive in Er. now subst.
  - apply (f_equal (@rev _)) in Er. rewrite rev_involutive in Er. subst l.
    simpl. now rewrite last_snoc.
Qed.

Lemma rev_takeSnapshot (m : Monitor) (s : MemorySnapshot) :
  exists older,
    rev (snapshots (takeSnapshot m s))
    = s :: match last (snapshots m) with
           | Some p => p :: older
           | None => []
           end.
Proof.
  unfold takeSnapshot. cbn [snapshots]. unfold maxSnapshots.
  destruct (Z.of_nat (length (snapshots m ++ [s])) >? 100) eqn:E.
  - apply Z.gtb_lt in E. rewrite length_app in E. simpl in E.
    destruct (snapshots m) as [|x [|y l']] eqn:El; simpl in E; try lia.
    change (last (x :: y :: l')) with (last (y :: l')).
    change (tl ((x :: y :: l') ++ [s])) with ((y :: l') ++ [s]).
    generalize (y :: l'). intros l2.
    rewrite rev_app_distr. cbn [rev app]. rewrite (rev_last l2).
    destruct (last l2) as [p|] eqn:Ep; [eexists; reflexivity|now exists []].
  - rewrite rev_app_distr. cbn [rev app]. rewrite (rev_last (snapshots m)).
    destruct (last (snapshots m)); [eexists; reflexivity|now exists []].
Qed.

Lemma checkMemory_counts (m : Monitor) (st : Store) (s : MemorySnapshot)
    (later : Z) (suggestion : string) :
  listenersReturn st ->
  0 <= consecutiveGrowthCount m ->
  let m' := fst (checkMemory m st s later suggestion) in
  let st' := snd (checkMemory m st s later suggestion) in
  leakDetectedCount m' * consecutiveGrowth (config m) + consecutiveGrowthCount m'
  <= leakDetectedCount m * consecutiveGrowth (config m) + consecutiveGrowthCount m
     + Z.of_nat (growths (leakThreshold (config m)) (last (snapshots m)) [s])
  /\ 0 <= consecutiveGrowthCount m'
  /\ eventCounter st' - leakDetectedCount m' = eventCounter st - leakDetectedCount m
  /\ listenersReturn st'.
Proof.
  intros Hq Hc. cbn zeta.
  pose proof (fun o => emit_returns st later MEMORY_LEAK (mkPayload None None) o Hq)
    as Hemit.
  pose proof (fun o => proj2 (emit_store st later MEMORY_LEAK (mkPayload None None) o))
    as Hstore.
  unfold checkMemory.
  destruct (rev_takeSnapshot m s) as [older ->].
  cbn [growths].
  destruct (last (snapshots m)) as [p|].
  2:{ cbn [fst snd takeSnapshot consecutiveGrowthCount leakDetectedCount].
      repeat split; try assumption; simpl; lia. }
  change (config (takeSnapshot m s)) with (config m).
  destruct (HealthChecker.Qgtb (HealthChecker.memoryMB (heapUsed s - heapUsed p))
                               (inject_Z (leakThreshold (config m)))).
  - change (consecutiveGrowthCount (setCount (takeSnapshot m s)
                                      (consecutiveGrowthCount (takeSnapshot m s) + 1)))
      with (consecutiveGrowthCount m + 1).
    change (config (setCount (takeSnapshot m s)
                      (consecutiveGrowthCount (takeSnapshot m s) + 1)))
      with (config m).
    destruct (consecutiveGrowthCount m + 1 >=? consecutiveGrowth (config m)) eqn:Ege.
    + apply Z.geb_le in Ege. unfold detectLeak.
      match goal with
      | |- context [emit st later MEMORY_LEAK ?d ?o] =>
          destruct (Hemit o) as [Hret Hq']; pose proof (Hstore o) as Hst;
          set (res := emit st later MEMORY_LEAK d o) in *
      end.
      assert (Hcount : eventCounter (r_store res) = eventCounter st + 1)
        by (rewrite Hst; reflexivity).
      rewrite Hret. cbn [fst snd setCount leakDetectedCount consecutiveGrowthCount].
      change (leakDetectedCount (takeSnapshot m s)) with (leakDetectedCount m).
      repeat split; try lia. exact Hq'.
    + rewrite Z.geb_leb in Ege. apply Z.leb_gt in Ege.
      cbn [fst snd setCount takeSnapshot leakDetectedCount consecutiveGrowthCount].
      repeat split; try assumption; simpl; lia.
  - destruct (HealthChecker.Qgtb 0 _);
      cbn [fst snd setCount takeSnapshot leakDetectedCount consecutiveGrowthCount];
      repeat split; try assumption; simpl; lia.
Qed.

Lemma checkMemory_last (m : Monitor) (st : Store) (s : MemorySnapshot)
    (later : Z) (suggestion : string) :
  last (snapshots (fst (checkMemory m st s later suggestion))) = Some s.
Proof.
  rewrite (proj1 (checkMemory_snapshots m st s later suggestion)).
  destruct (rev_takeSnapshot m s) as [older Hr].
  apply (f_equal (@rev _)) in Hr. rewrite rev_involutive in Hr. rewrite Hr.
  simpl. apply last_snoc.
Qed.

Lemma checkAll_counts (checks : list (MemorySnapshot * Z * string)) :
  forall (m : Monitor) (st : Store),
    listenersReturn st ->
    0 <= consecutiveGrowthCount m ->
    let m' := fst (checkAll m st checks) in
    let st' := snd (checkAll m st checks) in
    leakDetectedCount m' * consecutiveGrowth (config m) + consecutiveGrowthCount m'
    <= leakDetectedCount m * consecutiveGrowth (config m) + consecutiveGrowthCount m
       + Z.of_nat (growths (leakThreshold (config m)) (last (snapshots m))
                           (map (fun x => fst (fst x)) checks))
    /\ 0 <= consecutiveGrowthCount m'
    /\ eventCounter st' - leakDetectedCount m' = eventCounter st - leakDetectedCount m.
Proof.
  induction checks as [|[[s later] suggestion] checks IH]; intros m st Hq Hc; cbn zeta.
  - simpl. repeat split; lia.
  - cbn [checkAll map fst].
    pose proof (checkMemory_counts m st s later suggestion Hq Hc) as H1.
    pose proof (checkMemory_last m st s later suggestion) as Hlast.
    pose proof (proj2 (checkMemory_snapshots m st s later suggestion)) as Hcfg.
    cbn zeta in H1.
    destruct (checkMemory m st s later suggestion) as [m1 st1].
    cbn [fst snd] in H1, Hlast, Hcfg.
    destruct H1 as (Hle & Hc1 & Hev & Hq1).
    specialize (IH m1 st1 Hq1 Hc1). cbn zeta in IH.
    rewrite Hcfg, Hlast in IH. destruct IH as (Hle2 & Hc2 & Hev2).
    assert (Hg : growths (leakThreshold (config m)) (last (snapshots m))
                         (s :: map (fun x => fst (fst x)) checks)
                 = (growths (leakThreshold (config m)) (last (snapshots m)) [s]
                    + growths (leakThreshold (config m)) (Some s)
                              (map (fun x => fst (fst x)) checks))%nat).
    { cbn [growths]. lia. }
    rewrite Hg. repeat split; lia.
Qed.

(** X26. [checkMemory], after [start] and any number of checks, when no
    listener of the event store throws: every leak reported took at least
    [consecutiveGrowth] checks in which the heap had grown by more than
    [leakThreshold] MB since the check before, so the number of leaks times
    [consecutiveGrowth] is at most the number of such checks; and the store
    has received exactly one event for each leak. *)
Theorem leak_reports_need_repeated_growth (c : MemoryConfig) (first : MemorySnapshot)
    (st : Store) (checks : list (MemorySnapshot * Z * string)) :
  listenersReturn st ->
  let m := fst (checkAll (takeSnapshot (create c) first) st checks) in
  let st' := snd (checkAll (takeSnapshot (create c) first) st checks) in
  leakDetectedCount m * consecutiveGrowth c
  <= Z.of_nat (growths (leakThreshold c) (Some first)
                       (map (fun x => fst (fst x)) checks))
  /\ eventCounter st' = eventCounter st + leakDetectedCount m.
Proof.
  intros Hq. cbn zeta.
  pose proof (checkAll_counts checks (takeSnapshot (create c) first) st Hq) as H.
  cbn zeta in H. destruct H as (Hle & Hc & Hev); [simpl; lia|].
  change (config (takeSnapshot (create c) first)) with c in Hle.
  change (last (snapshots (takeSnapshot (create c) first))) with (Some first) in Hle.
  change (leakDetectedCount (takeSnapshot (create c) first)) with 0 in Hle, Hev.
  change (consecutiveGrowthCount (takeSnapshot (create c) first)) with 0 in Hle.
  split; lia.
Qed.

End MemoryMonitorFacts.

Lemma leak_reports_need_repeated_growth_witness :
  let grow (mb : Z) := MemoryMonitor.mkSnapshot (1000 * mb) (mb * 1048576) 0 0 0 in
  let checks := [(grow 40, 2000, "leak"); (grow 60, 3000, "leak");
                 (grow 80, 4000, "leak")] in
  let m :=
    fst (MemoryMonitor.checkAll
           (MemoryMonitor.takeSnapshot
              (MemoryMonitor.create MemoryMonitor.defaultConfig) (grow 20))
           EventStore.initial checks) in
  MemoryMonitor.leakDetectedCount m * 3 <= 3.
Proof.
  intros grow checks m.
  refine (proj1 (leak_reports_need_repeated_growth MemoryMonitor.defaultConfig
                   (grow 20) EventStore.initial checks _)).
  intros ch l ev Hl. unfold EventStore.listenersOf, EventStore.initial in Hl.
  simpl in Hl. rewrite lookup_empty in Hl. destruct Hl.
Defined.

(** ** The orchestrator and its configuration *)

Section GuardianFacts.
Import Guardian.

Lemma andThen_None (a b : Check) : andThen a b = None <-> a = None /\ b = None.
Proof. destruct a; simpl; [split; [discriminate|intros [H _]; discriminate]|tauto]. Qed.

Lemma validatePositive_spread (a b : Field Z) (n : string) (k : Z) :
  validatePositive a n k = None -> validatePositive b n k = None ->
  validatePositive (spread a b) n k = None.
Proof. now destruct b. Qed.

Lemma validateRange_spread (a b : Field Z) (n : string) (lo hi : Z) :
  validateRange a n lo hi = None -> validateRange b n lo hi = None ->
  validateRange (spread a b) n lo hi = None.
Proof. now destruct b. Qed.

Lemma validate_sections (c : GuardianConfig) :
  validate c = None <->
  (match mode c with
   | Value m =>
       if negb (String.eqb m "") && negb (existsb (String.eqb m) validModes)
       then Some "mode" else None
   | _ => None
   end) = None
  /\ validate (mkGuardianConfig Absent (eventLoop c) Absent Absent Absent) = None
  /\ validate (mkGuardianConfig Absent Absent (promises c) Absent Absent) = None
  /\ validate (mkGuardianConfig Absent Absent Absent (memory c) Absent) = None
  /\ validate (mkGuardianConfig Absent Absent Absent Absent (unawaitedPromises c)) = None.
Proof.
  unfold validate. cbn [mode eventLoop promises memory unawaitedPromises within].
  rewrite !andThen_None. intuition.
Qed.

Lemma section_eventLoop (d : EventLoopSection) (g : Field EventLoopSection) :
  validate (mkGuardianConfig Absent (Value d) Absent Absent Absent) = None ->
  validate (mkGuardianConfig Absent g Absent Absent Absent) = None ->
  validate (mkGuardianConfig Absent (Value (spreadEventLoop (Value d) g))
              Absent Absent Absent)
  = None.
Proof.
  unfold validate. cbn [mode eventLoop promises memory unawaitedPromises within andThen].
  rewrite ?andThen_None. intros Hd Hg.
  destruct g as [| |g]; cbn [within] in Hg; rewrite ?andThen_None in Hg;
    cbn [spreadEventLoop el_enabled el_stallThreshold el_sampleInterval fieldOf];
    repeat split; try tauto;
    try (apply validatePositive_spread; tauto).
Qed.

Lemma section_promises (d : PromisesSection) (g : Field PromisesSection) :
  validate (mkGuardianConfig Absent Absent (Value d) Absent Absent) = None ->
  validate (mkGuardianConfig Absent Absent g Absent Absent) = None ->
  validate (mkGuardianConfig Absent Absent (Value (spreadPromises (Value d) g))
              Absent Absent)
  = None.
Proof.
  unfold validate. cbn [mode eventLoop promises memory unawaitedPromises within andThen].
  rewrite ?andThen_None. intros Hd Hg.
  destruct g as [| |g]; cbn [within] in Hg; rewrite ?andThen_None in Hg;
    cbn [spreadPromises pr_enabled pr_deadlockThreshold pr_checkInterval pr_maxTracked
         pr_maxTrackedPromises fieldOf];
    repeat split; try tauto;
    try (apply validatePositive_spread; tauto);
    try (apply validateRange_spread; tauto).
Qed.

Lemma section_memory (d : MemorySection) (g : Field MemorySection) :
  validate (mkGuardianConfig Absent Absent Absent (Value d) Absent) = None ->
  validate (mkGuardianConfig Absent Absent Absent g Absent) = None ->
  validate (mkGuardianConfig Absent Absent Absent (Value (spreadMemory (Value d) g))
              Absent)
  = None.
Proof.
  unfold validate. cbn [mode eventLoop promises memory unawaitedPromises within andThen].
  rewrite ?andThen_None. intros Hd Hg.
  destruct g as [| |g]; cbn [within] in Hg; rewrite ?andThen_None in Hg;
    cbn [spreadMemory me_enabled me_checkInterval me_leakThreshold me_maxSnapshots
         me_consecutiveGrowth fieldOf];
    repeat split; try tauto;
    try (apply validatePositive_spread; tauto);
    try (apply validateRange_spread; tauto).
Qed.

Lemma section_unawaited (d : UnawaitedSection) (g : Field UnawaitedSection) :
  validate (mkGuardianConfig Absent Absent Absent Absent (Value d)) = None ->
  validate (mkGuardianConfig Absent Absent Absent Absent g) = None ->
  validate (mkGuardianConfig Absent Absent Absent Absent
              (Value (spreadUnawaited (Value d) g)))
  = None.
Proof.
  unfold validate. cbn [mode eventLoop promises memory unawaitedPromises within andThen].
  rewrite ?andThen_None. intros Hd Hg.
  destruct g as [| |g]; cbn [within] in Hg; rewrite ?andThen_None in Hg;
    cbn [spreadUnawaited un_enabled un_checkInterval un_warningThreshold fieldOf];
    repeat split; try tauto;
    try (apply validatePositive_spread; tauto).
Qed.

Lemma preset_valid (defaults : GuardianConfig) (c : GuardianConfig) :
  In defaults [production; development; debug] ->
  validate c = None ->
  validate
    (mkGuardianConfig (mode defaults)
       (Value (spreadEventLoop (eventLoop defaults) (eventLoop c)))
       (Value (spreadPromises (promises defaults) (promises c)))
       (Value (spreadMemory (memory defaults) (memory c)))
       (Value (spreadUnawaited (unawaitedPromises defaults) (unawaitedPromises c))))
  = None.
Proof.
  intros Hd H. apply validate_sections in H. destruct H as (_ & Hel & Hpr & Hme & Hun).
  apply validate_sections.
  cbn [mode eventLoop promises memory unawaitedPromises].
  destruct Hd as [<-|[<-|[<-|[]]]];
    cbn [production development debug mode eventLoop promises memory unawaitedPromises];
    (split; [reflexivity|]);
    (split; [apply section_eventLoop; [reflexivity|exact Hel]|]);
    (split; [apply section_promises; [reflexivity|exact Hpr]|]);
    (split; [apply section_memory; [reflexivity|exact Hme]
            |apply section_unawaited; [reflexivity|exact Hun]]).
Qed.

(** The preset that [applyModeDefaults] merges with is one of the three. *)
Lemma mode_preset (c defaults : GuardianConfig) :
  read (mode c) ≫= (fun m => if String.eqb m "" then None else MODE_DEFAULTS m)
  = Some defaults ->
  In defaults [production; development; debug].
Proof.
  destruct (mode c) as [| |m]; try discriminate. cbn [read mbind option_bind].
  destruct (String.eqb m ""); [discriminate|]. unfold MODE_DEFAULTS.
  destruct (String.eqb m "production"); [intros [= <-]; now left|].
  destruct (String.eqb m "development"); [intros [= <-]; right; now left|].
  destruct (String.eqb m "debug"); [intros [= <-]; right; right; now left|].
  discriminate.
Qed.

Lemma defaults_keep_a_valid_configuration (c : GuardianConfig) :
  validate c = None -> validate (applyModeDefaults c) = None.
Proof.
  intros H. unfold applyModeDefaults.
  destruct (read (mode c) ≫= (fun m => if String.eqb m "" then None else MODE_DEFAULTS m))
    as [defaults|] eqn:Ed.
  - apply preset_valid; [|exact H]. now apply (mode_preset c).
  - apply validate_sections in H. destruct H as (Hm & Hel & Hpr & Hme & Hun).
    apply validate_sections.
    cbn [mode eventLoop promises memory unawaitedPromises production spread].
    split; [destruct (mode c); try exact Hm; reflexivity|].
    split; [destruct (eventLoop c); try exact Hel; reflexivity|].
    split; [destruct (promises c); try exact Hpr; reflexivity|].
    split; [destruct (memory c); try exact Hme; reflexivity
           |destruct (unawaitedPromises c); try exact Hun; reflexivity].
Qed.

(** A validated property, once the constructor of a monitor has put its own
    default under it, is [undefined] or at least the minimum. *)
Lemma setting_minimum (f : Field Z) (n : string) (k d x : Z) :
  validatePositive f n k = None -> k <= d -> setting d f = Some x -> k <= x.
Proof.
  destruct f as [| |v]; cbn; intros Hv Hd [= <-]; [exact Hd|].
  destruct (v <=? 0); [discriminate|].
  destruct (v <? k) eqn:E; [discriminate|]. now apply Z.ltb_ge in E.
Qed.

Lemma spread_defined {A : Type} (a b : Field A) :
  defined a -> defined b -> defined (spread a b).
Proof. now destruct b. Qed.

Lemma setting_defined {A : Type} (d : A) (f : Field A) :
  defined f -> setting d f <> None.
Proof. unfold defined. now destruct f. Qed.

Lemma fieldOf_defined {S A : Type} (g : Field S) (proj : S -> Field A) :
  (forall s, g = Value s -> defined (proj s)) -> defined (fieldOf g proj).
Proof. destruct g as [| |s]; cbn; [discriminate|discriminate|]. intros H. now apply H. Qed.

Lemma preset_defined (defaults : GuardianConfig) :
  In defaults [production; development; debug] -> definedSections defaults.
Proof.
  intros [<-|[<-|[<-|[]]]]; (split; [|split]); intros s [= <-];
    repeat split; discriminate.
Qed.

(** The final configuration has no [undefined] property in its sections when
    the given one has none. *)
Lemma defaults_keep_sections_defined (c : GuardianConfig) :
  definedSections c -> definedSections (applyModeDefaults c).
Proof.
  intros (Hpr & Hme & Hun). unfold applyModeDefaults.
  destruct (read (mode c) ≫= (fun m => if String.eqb m "" then None else MODE_DEFAULTS m))
    as [defaults|] eqn:Ed.
  - destruct (preset_defined defaults (mode_preset c defaults Ed)) as (Dpr & Dme & Dun).
    (split; [|split]); cbn [promises memory unawaitedPromises]; intros s [= <-];
      cbn [spreadPromises spreadMemory spreadUnawaited
           pr_enabled pr_deadlockThreshold pr_checkInterval pr_maxTrackedPromises
           me_enabled me_checkInterval me_leakThreshold me_consecutiveGrowth
           un_enabled un_checkInterval un_warningThreshold];
      repeat split; apply spread_defined; apply fieldOf_defined; intros s0 Hs;
      first [apply (Dpr s0 Hs) | apply (Dme s0 Hs) | apply (Dun s0 Hs)
            | apply (Hpr s0 Hs) | apply (Hme s0 Hs) | apply (Hun s0 Hs)].
  - destruct (preset_defined production (or_introl eq_refl)) as (Dpr & Dme & Dun).
    (split; [|split]); cbn [promises memory unawaitedPromises production spread];
      intros s Hs.
    + destruct (promises c); [now apply Dpr|discriminate|now apply Hpr].
    + destruct (memory c); [now apply Dme|discriminate|now apply Hme].
    + destruct (unawaitedPromises c); [now apply Dun|discriminate|now apply Hun].
Qed.

Lemma monitors_defined (f : GuardianConfig) :
  definedSections f ->
  monitors (mkSettings (trackerSettings (promises f)) (memorySettings (memory f))
                       (detectorSettings (unawaitedPromises f))) <> None.
Proof.
  intros (Hpr & Hme & Hun). unfold monitors. cbn [tracker memoryS detector].
  assert (Ht : trackerConfig (trackerSettings (promises f)) <> None).
  { unfold trackerConfig, trackerSettings.
    cbn [ts_enabled ts_deadlockThreshold ts_checkInterval ts_maxTrackedPromises].
    pose proof (setting_defined 30000 _ (fieldOf_defined (promises f) pr_deadlockThreshold
                  (fun s Hs => proj1 (proj2 (Hpr s Hs))))).
    pose proof (setting_defined 5000 _ (fieldOf_defined (promises f) pr_checkInterval
                  (fun s Hs => proj1 (proj2 (proj2 (Hpr s Hs)))))).
    pose proof (setting_defined 10000 _ (fieldOf_defined (promises f) pr_maxTrackedPromises
                  (fun s Hs => proj2 (proj2 (proj2 (Hpr s Hs)))))).
    destruct (setting 30000 _); [|congruence].
    destruct (setting 5000 _); [|congruence].
    destruct (setting 10000 _); [|congruence]. discriminate. }
  assert (Hm : memoryConfig (memorySettings (memory f)) <> None).
  { unfold memoryConfig, memorySettings.
    cbn [ms_enabled ms_checkInterval ms_leakThreshold ms_consecutiveGrowth].
    pose proof (setting_defined 5000 _ (fieldOf_defined (memory f) me_checkInterval
                  (fun s Hs => proj1 (proj2 (Hme s Hs))))).
    pose proof (setting_defined 10 _ (fieldOf_defined (memory f) me_leakThreshold
                  (fun s Hs => proj1 (proj2 (proj2 (Hme s Hs)))))).
    pose proof (setting_defined 3 _ (fieldOf_defined (memory f) me_consecutiveGrowth
                  (fun s Hs => proj2 (proj2 (proj2 (Hme s Hs)))))).
    destruct (setting 5000 _); [|congruence].
    destruct (setting 10 _); [|congruence].
    destruct (setting 3 _); [|congruence]. discriminate. }
  assert (Hd : detectorConfig (detectorSettings (unawaitedPromises f)) <> None).
  { unfold detectorConfig, detectorSettings.
    cbn [ds_enabled ds_checkInterval ds_warningThreshold].
    pose proof (setting_defined 3000 _ (fieldOf_defined (unawaitedPromises f) un_checkInterval
                  (fun s Hs => proj1 (proj2 (Hun s Hs))))).
    pose proof (setting_defined 5000 _ (fieldOf_defined (unawaitedPromises f)
                  un_warningThreshold (fun s Hs => proj2 (proj2 (Hun s Hs))))).
    destruct (setting 3000 _); [|congruence].
    destruct (setting 5000 _); [|congruence]. discriminate. }
  destruct (trackerConfig _); [|congruence].
  destruct (memoryConfig _); [|congruence].
  destruct (detectorConfig _); [|congruence]. discriminate.
Qed.

(** What the validation of the final configuration says about the properties
    the monitors read. *)
Lemma validated_settings (f : GuardianConfig) :
  validate f = None ->
  validatePositive (fieldOf (promises f) pr_checkInterval) "promises.checkInterval" 1000
  = None
  /\ validatePositive (fieldOf (promises f) pr_deadlockThreshold)
       "promises.deadlockThreshold" 5000 = None
  /\ validatePositive (fieldOf (memory f) me_checkInterval) "memory.checkInterval" 5000
     = None
  /\ validatePositive (fieldOf (memory f) me_leakThreshold) "memory.leakThreshold" 1
     = None
  /\ validatePositive (fieldOf (unawaitedPromises f) un_checkInterval)
       "unawaitedPromises.checkInterval" 1000 = None
  /\ validatePositive (fieldOf (unawaitedPromises f) un_warningThreshold)
       "unawaitedPromises.warningThreshold" 1000 = None.
Proof.
  intros H. apply validate_sections in H. destruct H as (_ & _ & Hpr & Hme & Hun).
  revert Hpr Hme Hun. unfold validate.
  cbn [mode eventLoop promises memory unawaitedPromises within andThen].
  destruct (promises f) as [| |pr], (memory f) as [| |me],
           (unawaitedPromises f) as [| |un];
    cbn [within fieldOf validatePositive]; rewrite ?andThen_None; intuition.
Qed.


(** A property that is present with the value [undefined] passes the
    validation, replaces the value of the preset and the default of the
    tracker, and leaves the tracker without an interval for its timer. *)
Lemma undefined_property_reaches_the_tracker :
  let c := mkGuardianConfig (Value "debug") Absent
             (Value (mkPromises Absent Absent Undefined Absent Absent)) Absent Absent in
  exists st, construct c = inr st /\ ts_checkInterval (tracker st) = None
             /\ monitors st = None.
Proof. eexists. split; [reflexivity|]. split; reflexivity. Qed.

(** X28. The section [promises] of the configuration has a property
    [maxTracked], which the validator keeps between 10 and 100000 and the
    presets set to 20, 50 and 100; the tracker reads [maxTrackedPromises].
    So whatever [maxTracked] is set to, the tracker that [Guardian] builds is
    the same, and its limit is the property [maxTrackedPromises] of the
    section when the caller put one there, which the validator does not look
    at, and 10000 otherwise. *)
Theorem configured_limit_never_reaches_tracker
    (m : Field string) (el : Field EventLoopSection) (me : Field MemorySection)
    (un : Field UnawaitedSection) (e : Field bool) (d i limit v v' : Field Z) :
  let c x y := mkGuardianConfig m el (Value (mkPromises e d i x y)) me un in
  trackerSettings (promises (applyModeDefaults (c v limit)))
  = trackerSettings (promises (applyModeDefaults (c v' limit)))
  /\ ts_maxTrackedPromises (trackerSettings (promises (applyModeDefaults (c v limit))))
     = setting 10000 limit
  /\ validate (c v limit) = validate (c v Absent)
  /\ (forall c0 : GuardianConfig,
        fieldOf (promises c0) pr_maxTrackedPromises = Absent ->
        ts_maxTrackedPromises (trackerSettings (promises (applyModeDefaults c0)))
        = Some 10000).
Proof.
  intros c. split; [|split; [|split]].
  - unfold c, applyModeDefaults. cbn [mode promises].
    destruct (read m ≫= _) as [defaults|]; reflexivity.
  - unfold c, applyModeDefaults. cbn [mode promises].
    destruct (read m ≫= _) as [defaults|] eqn:Ed; [|reflexivity].
    cbn [promises trackerSettings fieldOf spreadPromises pr_maxTrackedPromises
         ts_maxTrackedPromises].
    destruct (mode_preset (c v limit) _ Ed) as [<-|[<-|[<-|[]]]]; now destruct limit.
  - reflexivity.
  - intros c0 H0. unfold applyModeDefaults.
    destruct (read (mode c0) ≫= _) as [defaults|] eqn:Ed.
    + cbn [promises trackerSettings fieldOf spreadPromises pr_maxTrackedPromises
           ts_maxTrackedPromises]. rewrite H0.
      destruct (mode_preset _ _ Ed) as [<-|[<-|[<-|[]]]]; reflexivity.
    + cbn [promises spread production].
      destruct (promises c0) as [| |s]; try reflexivity.
      cbn [fieldOf] in H0.
      change (setting 10000 (pr_maxTrackedPromises s) = Some 10000).
      now rewrite H0.
Qed.

(** A caller that writes the property the tracker reads gets its limit,
    here one below the smallest [maxTracked] the validator accepts. *)
Lemma maxTrackedPromises_is_not_validated :
  let c := mkGuardianConfig Absent Absent
             (Value (mkPromises Absent Absent Absent Absent (Value 5))) Absent Absent in
  exists st, construct c = inr st /\ ts_maxTrackedPromises (tracker st) = Some 5.
Proof. eexists. split; reflexivity. Qed.

End GuardianFacts.


(** ** The event-loop monitor *)

Section EventLoopMonitorFacts.
Import EventStore EventLoopMonitor.

Lemma checkAll_spaced (checks : list (float * Z * Z * string)) :
  forall (m : Monitor) (st : Store),
    let m' := fst (fst (checkAll m st checks)) in
    let st' := snd (fst (checkAll m st checks)) in
    let times := snd (checkAll m st checks) in
    StronglySorted (fun a b => 5000 < b - a) (lastStallTime m :: times)
    /\ stallCount m' = stallCount m + Z.of_nat (length times)
    /\ eventCounter st' = eventCounter st + Z.of_nat (length times).
Proof.
  induction checks as [|[[[meanNs now] later] suggestion] checks IH]; intros m st;
    cbn zeta.
  - simpl. repeat split; try lia. repeat constructor.
  - cbn [checkAll]. unfold checkEventLoop.
    destruct (negb (running m)); [|destruct (PrimFloat.ltb _ _);
      [destruct (now - lastStallTime m >? 5000) eqn:E|]].
    2:{ specialize (IH (mkMonitor (config m) (running m) now (stallCount m + 1))
                       (r_store (emit st later EVENT_LOOP_STALL (mkPayload None None)
                          (mkOptions
                             (Some (if PrimFloat.ltb 500 (meanNs / 1000000)
                                    then critical else error))
                             None None None (Some suggestion))))).
        cbn zeta in IH.
        destruct (checkAll _ _ checks) as [[m2 st2] times].
        cbn [fst snd lastStallTime stallCount] in *.
        destruct IH as (Hs & Hc & He).
        rewrite (proj2 (emit_store st later EVENT_LOOP_STALL _ _)) in He.
        cbn [eventCounter] in He. apply Z.gtb_lt in E.
        repeat split.
        - constructor; [exact Hs|].
          apply StronglySorted_inv in Hs. destruct Hs as [_ Hall].
          constructor; [lia|].
          eapply List.Forall_impl; [|exact Hall]. cbn beta. intros t Ht. lia.
        - rewrite Hc. cbn [length]. lia.
        - rewrite He. cbn [length]. lia. }
    all: specialize (IH m st); cbn zeta in IH;
      destruct (checkAll m st checks) as [[m2 st2] times];
      cbn [fst snd] in *; exact IH.
Qed.

(** X29. [checkEventLoop]: in any run of checks, each stall reported comes
    more than 5000 ms after the stall reported before it, by the clock of the
    checks; and the stall count and the event store both grow by exactly the
    number of stalls reported. *)
Theorem stalls_are_reported_five_seconds_apart (c : EventLoopConfig) (st : Store)
    (checks : list (float * Z * Z * string)) :
  let m := start (create c) in
  let m' := fst (fst (checkAll m st checks)) in
  let st' := snd (fst (checkAll m st checks)) in
  let times := snd (checkAll m st checks) in
  StronglySorted (fun a b => 5000 < b - a) times
  /\ stallCount m' = Z.of_nat (length times)
  /\ eventCounter st' = eventCounter st + Z.of_nat (length times).
Proof.
  cbn zeta. destruct (checkAll_spaced checks (start (create c)) st) as (Hs & Hc & He).
  split; [now apply StronglySorted_inv in Hs|]. split; [|exact He].
  rewrite Hc. unfold start, create. cbn [config running].
  now destruct (negb (enabled c) || false).
Qed.

End EventLoopMonitorFacts.

(** ** Custom metrics: reading a key back *)

Section ParseKey.
Import CustomMetrics.

Let lacks (c : ascii) (s : string) : Prop :=
  Forall (fun a => Ascii.eqb a c = false) (list_ascii_of_string s).

Lemma lacks_app (c : ascii) (a b : string) :
  lacks c (a +:+ b) <-> lacks c a /\ lacks c b.
Proof. unfold lacks. rewrite chars_app. apply List.Forall_app. Qed.

Lemma splitOn_part (sep : ascii) (x s : string) :
  lacks sep x ->
  JS.splitOn sep (x +:+ String sep s) = x :: JS.splitOn sep s
  /\ JS.splitOn sep x = [x].
Proof.
  induction x as [|c x IH]; intros Hx; simpl.
  - rewrite Ascii.eqb_refl. split; reflexivity.
  - apply List.Forall_cons_iff in Hx. destruct Hx as [Hc Hx].
    destruct (IH Hx) as [IH1 IH2]. rewrite Hc. split.
    + now rewrite IH1.
    + now rewrite IH2.
Qed.

Lemma splitOn_join (sep : ascii) (parts : list string) :
  parts <> [] -> Forall (lacks sep) parts ->
  JS.splitOn sep (join (String sep EmptyString) parts) = parts.
Proof.
  induction parts as [|x parts IH]; [congruence|]. intros _ Hall.
  apply List.Forall_cons_iff in Hall. destruct Hall as [Hx Hparts].
  destruct parts as [|y parts].
  - simpl. exact (proj2 (splitOn_part sep x EmptyString Hx)).
  - change (join (String sep EmptyString) (x :: y :: parts))
      with (x +:+ String sep (join (String sep EmptyString) (y :: parts))).
    rewrite (proj1 (splitOn_part sep x _ Hx)). f_equal.
    apply IH; [discriminate|exact Hparts].
Qed.

Lemma breakAt_app (c : ascii) (name rest : string) :
  lacks c name -> breakAt c (name +:+ String c rest) = (name, String c rest).
Proof.
  induction name as [|a name IH]; intros Hn; simpl.
  - now rewrite Ascii.eqb_refl.
  - apply List.Forall_cons_iff in Hn. destruct Hn as [Ha Hn].
    now rewrite Ha, (IH Hn).
Qed.

Lemma breakAt_none (c : ascii) (name : string) :
  lacks c name -> breakAt c name = (name, EmptyString).
Proof.
  induction name as [|a name IH]; intros Hn; simpl; [reflexivity|].
  apply List.Forall_cons_iff in Hn. destruct Hn as [Ha Hn].
  now rewrite Ha, (IH Hn).
Qed.

Lemma dropLast_app (c : ascii) (s : string) :
  dropLast c (s +:+ String c EmptyString) = Some s.
Proof.
  induction s as [|a s IH]; simpl.
  - now rewrite Ascii.eqb_refl.
  - rewrite IH. now destruct s.
Qed.

(** The text that [getKey] writes for one label. *)
Let written (e : string * string) : string :=
  fst e +:+ "=" +:+ dquote +:+ snd e +:+ dquote.

Lemma plain_lacks (s : string) (c : ascii) :
  plain s = true -> In c ["," ; "="; "034"; "010"; "013"; "226"]%char -> lacks c s.
Proof.
  unfold plain, lacks. intros Hp Hc. apply List.Forall_forall. intros a Ha.
  rewrite forallb_forall in Hp. specialize (Hp a Ha).
  apply negb_true_iff in Hp.
  destruct (Ascii.eqb a c) eqn:E; [|reflexivity].
  apply Ascii.eqb_eq in E. subst a.
  assert (Hex : existsb (Ascii.eqb c) ["," ; "="; "034"; "010"; "013"; "226"]%char
                = true).
  { apply existsb_exists. exists c. split; [exact Hc|apply Ascii.eqb_refl]. }
  congruence.
Qed.

Lemma written_lacks (e : string * string) (c : ascii) :
  plain (fst e) = true -> plain (snd e) = true ->
  In c ["," ; "010"; "013"; "226"]%char -> lacks c (written e).
Proof.
  intros Hk Hv Hc. unfold written, dquote.
  assert (Hc' : In c ["," ; "="; "034"; "010"; "013"; "226"]%char).
  { simpl in Hc |- *. tauto. }
  apply lacks_app. split; [now apply plain_lacks|].
  change ("=" +:+ String "034" "" +:+ snd e +:+ String "034" "")
    with (String "=" (String "034" (snd e +:+ String "034" ""))).
  constructor; [destruct Hc as [<-|[<-|[<-|[<-|[]]]]]; reflexivity|].
  constructor; [destruct Hc as [<-|[<-|[<-|[<-|[]]]]]; reflexivity|].
  apply lacks_app. split; [now apply plain_lacks|].
  constructor; [destruct Hc as [<-|[<-|[<-|[<-|[]]]]]; reflexivity|constructor].
Qed.

Lemma stripQuotes_written (v : string) :
  stripQuotes (String "034" (v +:+ String "034" EmptyString)) = v.
Proof.
  unfold stripQuotes. cbn [dropQuote]. rewrite Ascii.eqb_refl.
  now rewrite dropLast_app.
Qed.

Lemma parsePair_written (e : string * string) :
  plain (fst e) = true -> plain (snd e) = true ->
  parsePair (written e) = Some e.
Proof.
  intros Hk Hv. unfold parsePair, written, dquote.
  change (fst e +:+ "=" +:+ String "034" "" +:+ snd e +:+ String "034" "")
    with (fst e +:+ String "=" (String "034" (snd e +:+ String "034" ""))).
  rewrite (proj1 (splitOn_part "=" (fst e) _
                    (plain_lacks _ "=" Hk ltac:(simpl; tauto)))).
  assert (Hq : lacks "=" (String "034" (snd e +:+ String "034" ""))).
  { constructor; [reflexivity|]. apply lacks_app.
    split; [apply (plain_lacks _ "="); [exact Hv|simpl; tauto]|].
    constructor; [reflexivity|constructor]. }
  rewrite (proj2 (splitOn_part "=" _ EmptyString Hq)).
  rewrite stripQuotes_written. now destruct e.
Qed.

Lemma parsePairs_written (l : list (string * string)) :
  forall acc : gmap string string,
    Forall (fun e => plainLabel (fst e) = true /\ plain (snd e) = true) l ->
    NoDup (map fst l) ->
    parsePairs (map written l) acc = Some (list_to_map l ∪ acc).
Proof.
  induction l as [|[k v] l IH]; intros acc Hall Hnd; simpl.
  - now rewrite (left_id_L ∅ (∪)).
  - apply List.Forall_cons_iff in Hall. destruct Hall as [[Hk Hv] Hall].
    simpl in Hnd. apply NoDup_cons in Hnd. destruct Hnd as [Hfresh Hnd].
    apply andb_true_iff in Hk. destruct Hk as [Hk Hproto].
    apply negb_true_iff in Hproto. cbn [fst] in Hproto.
    rewrite (parsePair_written (k, v) Hk Hv). unfold assign. rewrite Hproto.
    rewrite (IH _ Hall Hnd). f_equal.
    rewrite <- insert_union_l. symmetry. apply insert_union_r.
    apply not_elem_of_list_to_map_1. exact Hfresh.
Qed.

Lemma join_written_lacks (c : ascii) (l : list (string * string)) :
  In c ["010"; "013"; "226"]%char ->
  Forall (fun e => plain (fst e) = true /\ plain (snd e) = true) l ->
  lacks c (join "," (map written l)).
Proof.
  intros Hc. induction 1 as [|e l [Hk Hv] Hall IH]; [constructor|].
  assert (He : lacks c (written e)).
  { apply written_lacks; try assumption. simpl in Hc |- *. tauto. }
  destruct l as [|e' l]; [exact He|].
  change (join "," (map written (e :: e' :: l)))
    with (written e +:+ String "," (join "," (map written (e' :: l)))).
  apply lacks_app. split; [exact He|].
  constructor; [destruct Hc as [<-|[<-|[<-|[]]]]; reflexivity|exact IH].
Qed.

(** Without the bytes 0A, 0D and E2 there is no line terminator. *)
Lemma lacks_hasLineTerminator (s : string) :
  lacks "010" s -> lacks "013" s -> lacks "226" s -> hasLineTerminator s = false.
Proof.
  induction s as [|a s IH]; intros H1 H2 H3; [reflexivity|].
  apply List.Forall_cons_iff in H1, H2, H3.
  destruct H1 as [E1 H1], H2 as [E2 H2], H3 as [E3 H3].
  cbn [hasLineTerminator]. rewrite E1, E2, E3. now apply IH.
Qed.


Lemma written_nonempty (e : string * string) (rest : string) :
  written e +:+ rest <> EmptyString.
Proof. unfold written. now destruct (fst e). Qed.

Lemma join_written_nonempty (l : list (string * string)) :
  l <> [] -> join "," (map written l) <> EmptyString.
Proof.
  destruct l as [|e [|e' l]]; [congruence| |]; intros _.
  - simpl. unfold written. now destruct (fst e).
  - change (join "," (map written (e :: e' :: l)))
      with (written e +:+ String "," (join "," (map written (e' :: l)))).
    apply written_nonempty.
Qed.

Variable lc : string -> string -> Z.

(** X30. [parseKey] reads back what [getKey] writes: for a name without brace
    and labels whose names and values hold no comma, equals sign, quote, line
    feed or carriage return and no character from U+2000 to U+2FFF (the
    range of the line separators U+2028 and U+2029), none of them named
    [__proto__], the key parses into the name and the same labels; and when the collation orders the label names,
    [getKey] on the name and the labels read back, in whatever order the
    object lists them, gives the key again, which is how [getAllMetrics] finds
    the statistics of a histogram. *)
Theorem parseKey_reads_back_getKey (name : string) (labels : Labels) :
  plainName name = true ->
  labels <> [] ->
  NoDup (map fst labels) ->
  Forall (fun e => plainLabel (fst e) = true /\ plain (snd e) = true) labels ->
  parseKey (getKey lc name (Some labels)) = Some (name, Some (list_to_map labels))
  /\ parseKey (getKey lc name None) = Some (name, None)
  /\ (ordersNames lc (map fst labels) ->
      forall l' : Labels,
        NoDup (map fst l') ->
        (list_to_map l' : gmap string string) = list_to_map labels ->
        getKey lc name (Some l') = getKey lc name (Some labels)).
Proof.
  intros Hname Hne Hnd Hplain.
  apply andb_true_iff in Hname. destruct Hname as [Hname0 Hbrace].
  apply negb_true_iff in Hname0. apply String.eqb_neq in Hname0.
  assert (Hlacks : lacks "{" name).
  { apply List.Forall_forall. intros a Ha. rewrite forallb_forall in Hbrace.
    apply negb_true_iff. exact (Hbrace a Ha). }
  split; [|split].
  - set (sorted := JS.sortBy (fun a b => lc (fst a) (fst b)) labels).
    assert (Hperm : Permutation sorted labels) by apply sortBy_perm.
    assert (Hsne : sorted <> []).
    { intros E. rewrite E in Hperm. apply Permutation_nil in Hperm. congruence. }
    assert (Hslabel : Forall (fun e => plainLabel (fst e) = true
                                       /\ plain (snd e) = true) sorted).
    { apply List.Forall_forall. intros e He.
      rewrite List.Forall_forall in Hplain. apply Hplain.
      exact (Permutation_in _ Hperm He). }
    assert (Hsplain : Forall (fun e => plain (fst e) = true /\ plain (snd e) = true)
                             sorted).
    { eapply List.Forall_impl; [|exact Hslabel]. cbn beta. intros e [Hk Hv].
      apply andb_true_iff in Hk. tauto. }
    assert (Hsnd : NoDup (map fst sorted)).
    { now rewrite (Permutation_map fst Hperm). }
    assert (Hkey : getKey lc name (Some labels)
                   = name +:+ String "{" (join "," (map written sorted)
                                          +:+ String "}" EmptyString)).
    { unfold getKey. destruct labels as [|e labels]; [congruence|].
      fold sorted. f_equal. f_equal. f_equal. f_equal.
      apply map_ext. now intros [k v]. }
    rewrite Hkey. unfold parseKey, matchKey.
    rewrite (breakAt_app "{" name _ Hlacks).
    destruct name as [|a name']; [congruence|].
    rewrite dropLast_app.
    assert (Hbody : negb (String.eqb (join "," (map written sorted)) "")
                    && negb (hasLineTerminator (join "," (map written sorted)))
                    = true).
    { apply andb_true_iff. split.
      - apply negb_true_iff, String.eqb_neq. now apply join_written_nonempty.
      - apply negb_true_iff, lacks_hasLineTerminator;
          (apply join_written_lacks; [simpl; tauto|exact Hsplain]). }
    rewrite Hbody.
    rewrite (splitOn_join "," (map written sorted)).
    + rewrite (parsePairs_written sorted ∅ Hslabel Hsnd). cbn [option_map].
      rewrite (right_id_L ∅ (∪)). do 3 f_equal.
      apply list_to_map_proper; [exact Hsnd|exact Hperm].
    + destruct sorted; [congruence|discriminate].
    + apply List.Forall_forall. intros x Hx. apply in_map_iff in Hx.
      destruct Hx as [e [<- He]]. rewrite List.Forall_forall in Hsplain.
      destruct (Hsplain e He) as [Hk Hv].
      apply written_lacks; [exact Hk|exact Hv|simpl; tauto].
  - cbn [getKey]. unfold parseKey, matchKey.
    rewrite (breakAt_none "{" name Hlacks).
    destruct name; [congruence|reflexivity].
  - intros Hord l' Hnd' Hmap. symmetry.
    apply (getKey_permutation lc name labels l' Hnd); [|exact Hord].
    symmetry. now apply (list_to_map_inj (M := gmap string)).
Qed.

End ParseKey.

Lemma parseKey_reads_back_getKey_witness :
  CustomMetrics.parseKey
    (CustomMetrics.getKey Samples.codeUnitOrder "requests"
       (Some [("route", "/a"); ("method", "GET")]))
  = Some ("requests", Some (list_to_map [("route", "/a"); ("method", "GET")])).
Proof.
  refine (proj1 (parseKey_reads_back_getKey Samples.codeUnitOrder "requests"
                   [("route", "/a"); ("method", "GET")] _ _ _ _)).
  - reflexivity.
  - discriminate.
  - apply NoDup_ListNoDup. repeat constructor; simpl; intuition discriminate.
  - repeat constructor.
Defined.
